(** * Parse.Collection (src/collection.js): a shallow embedding

    The collection keeps an array of model references together with two
    lookup tables ([_byId], [_byCid]) and a cached [length].  Models are
    [Parse.Object]s living on a heap; the collection stores references to
    them, subscribes to their events and re-broadcasts them.

    JavaScript objects used as dictionaries ([_byId], [_byCid] and the
    two tables local to [add]) are finite maps of their own entries,
    keyed by the string form of the property name.  A lookup that finds
    no own entry goes on to [Object.prototype], as it does in JavaScript:
    [table['constructor']] answers a built-in function, not [undefined].
    An assignment under the name [__proto__], which in JavaScript
    replaces the prototype of the table instead of making an entry, is
    kept as an entry; [add] never makes one (its first loop refuses the
    name), only a ['change:objectId'] event with that id can. *)

From Stdlib Require Import ZArith Lia Sorted Permutation.
From stdpp Require Import base option list strings gmap pretty.

Open Scope Z_scope.
#[local] Set Warnings "-clear-no-such-hyp".

Abbreviation ref := positive.
Abbreviation cref := positive.

(** ** JavaScript values *)

Inductive value :=
  | VUndefined
  | VNull
  | VBool (b : bool)
  | VNum (n : Z)
  | VStr (s : string)
  | VObj (r : ref)
  | VNative (k : string).   (* Object.prototype[k], a built-in *)

Definition truthy (v : value) : bool :=
  match v with
  | VUndefined | VNull => false
  | VBool b => b
  | VNum n => negb (n =? 0)
  | VStr s => negb (String.eqb s "")
  | VObj _ => true
  | VNative _ => true
  end.

(** [a || b] *)
Definition js_or (a b : value) : value := if truthy a then a else b.

(** [Parse._isNullOrUndefined] *)
Definition _isNullOrUndefined (v : value) : bool :=
  match v with
  | VUndefined | VNull => true
  | _ => false
  end.

(** *** Numbers as property keys

    A [VNum n] is the number an integer literal [n] denotes: the double
    nearest to [n], ties to even, and [Infinity] from [2^1024] on.  Its
    string form is that of [Number.prototype.toString]: the shortest
    decimal digits that denote the same double, written out in full below
    [10^21] and in exponent form from there on. *)

(** The double nearest to a natural number, ties to even. *)
Definition nearest_double (a : Z) : Z :=
  if a <? 2 ^ 53 then a
  else
    let e := Z.log2 a - 52 in
    let q := a / 2 ^ e in
    let r := a mod 2 ^ e in
    let half := 2 ^ (e - 1) in
    let q' := if r <? half then q
              else if half <? r then q + 1
              else if Z.even q then q else q + 1 in
    q' * 2 ^ e.

(** The number of decimal digits of a positive number. *)
Definition digits (a : Z) : Z := Z.of_nat (String.length (pretty a)).

(** The decimal numbers with [k] significant digits next to the double
    [x] that denote [x], the nearest first. *)
Definition candidates (x : Z) (k : Z) : list Z :=
  let p := 10 ^ (digits x - k) in
  let lo := x / p * p in
  let hi := lo + p in
  let near := if x - lo <? hi - x then [lo; hi]
              else if hi - x <? x - lo then [hi; lo]
              else if Z.even (x / p) then [lo; hi] else [hi; lo] in
  filter (λ v, nearest_double v = x) near.

(** The shortest decimal number that denotes the double [x]. *)
Definition shortest (x : Z) : Z :=
  default x
    (head (concat (map (candidates x)
                     (filter (λ k, k <=? digits x)
                        (Z.of_nat <$> seq 1 17))))).

Fixpoint strip_zeros (fuel : nat) (v : Z) : Z :=
  match fuel with
  | O => v
  | S fuel' => if v mod 10 =? 0 then strip_zeros fuel' (v / 10) else v
  end.

(** [Number.prototype.toString] on a positive double. *)
Definition positive_to_string (x : Z) : string :=
  let v := shortest x in
  if digits v <=? 21 then pretty v
  else
    let s := pretty (strip_zeros 400 v) in
    let e := pretty (digits v - 1) in
    match s with
    | String d EmptyString => String d ("e+" +:+ e)
    | String d rest => String d ("." +:+ rest +:+ "e+" +:+ e)
    | EmptyString => EmptyString
    end.

Definition number_to_string (n : Z) : string :=
  let x := nearest_double (Z.abs n) in
  let body := if 2 ^ 1024 <=? x then "Infinity"
              else if x <? 2 ^ 53 then pretty x
              else positive_to_string x in
  if n <? 0 then "-" +:+ body else body.

(** What [String(f)] gives for the built-in [Object.prototype[k]]; for
    [__proto__] the built-in is [Object.prototype] itself. *)
Definition native_to_string (k : string) : string :=
  if String.eqb k "__proto__" then "[object Object]"
  else "function " +:+ (if String.eqb k "constructor" then "Object" else k)
       +:+ "() { [native code] }".

(** Property keys: [obj[v]] converts [v] to a string first. *)
Definition to_key (v : value) : string :=
  match v with
  | VUndefined => "undefined"
  | VNull => "null"
  | VBool true => "true"
  | VBool false => "false"
  | VNum n => number_to_string n
  | VStr s => s
  | VObj _ => "[object Object]"
  | VNative k => native_to_string k
  end.

(** The property names a plain object ([{}]) inherits from
    [Object.prototype]. *)
Definition Object_prototype : list string :=
  ["constructor"; "__defineGetter__"; "__defineSetter__"; "hasOwnProperty";
   "__lookupGetter__"; "__lookupSetter__"; "isPrototypeOf";
   "propertyIsEnumerable"; "toString"; "valueOf"; "__proto__";
   "toLocaleString"].

Definition inherited (k : string) : bool :=
  existsb (String.eqb k) Object_prototype.

(** ** Options bags *)

Record options := MkOptions {
  at_ : option Z;            (* options.at *)
  silent : bool;             (* options.silent *)
  wait : bool;               (* options.wait *)
  index : option Z;          (* options.index, written before a trigger *)
  opt_collection : option cref; (* options.collection, written by _prepareModel *)
  success : bool             (* whether the caller supplied options.success *)
}.

(** [{}] *)
Definition no_options : options := MkOptions None false false None None false.
(** [{silent: true}] *)
Definition silent_options : options := MkOptions None true false None None false.

Definition set_index (i : Z) (o : options) : options :=
  MkOptions (at_ o) (silent o) (wait o) (Some i) (opt_collection o) (success o).
Definition set_opt_collection (c : cref) (o : options) : options :=
  MkOptions (at_ o) (silent o) (wait o) (index o) (Some c) (success o).

(** ** Parse.Object, as far as the collection touches it *)

(** Modelled from the spec: [Parse.Object] is not part of src/.  An object
    has a client id that is always present, a server id that is absent
    until the object is saved, attributes with their previous values, a
    back reference to a collection, and the handlers registered on it. *)
Record Object := MkObject {
  cid : string;
  id : value;
  attributes : gmap string value;
  _previousAttributes : gmap string value;
  collection : option cref;
  _callbacks : list (string * cref)
}.

Definition blank_object : Object := MkObject "" VUndefined ∅ ∅ None [].

#[global] Instance Object_inhabited : Inhabited Object := populate blank_object.

Definition set_collection (c : option cref) (o : Object) : Object :=
  MkObject (cid o) (id o) (attributes o) (_previousAttributes o) c (_callbacks o).
Definition set_callbacks (cb : list (string * cref)) (o : Object) : Object :=
  MkObject (cid o) (id o) (attributes o) (_previousAttributes o) (collection o) cb.

Definition previous (a : string) (o : Object) : value :=
  default VUndefined (_previousAttributes o !! a).

(** Modelled from the spec: the event mixin [Parse.Events] (on/off/trigger)
    is not part of src/.  [on] registers a handler for an event name with
    a context; [off] drops the registrations of that handler for that name
    and context.  The only handler the collection ever registers is its
    own [_onModelEvent], so a registration is the pair of the event name
    and the subscribing collection. *)
Definition on (ev : string) (ctx : cref) (o : Object) : Object :=
  set_callbacks (_callbacks o ++ [(ev, ctx)]) o.
Definition off (ev : string) (ctx : cref) (o : Object) : Object :=
  set_callbacks (filter (λ cb, cb ≠ (ev, ctx)) (_callbacks o)) o.

(** ** Events as seen by listeners *)

Inductive target :=
  | OnModel (r : ref)
  | OnCollection (c : cref).

Inductive jsarg :=
  | ArgV (v : value)
  | ArgC (c : cref)
  | ArgO (o : options)
  | ArgResp.

Record emitted := Emitted {
  ev_target : target;
  ev_name : string;
  ev_args : list jsarg
}.

(** ** The collection *)

Inductive comparator_fn :=
  | Cmp1 (key : Object → Z)            (* comparator.length === 1 *)
  | Cmp2 (cmp : Object → Object → Z).  (* two-argument comparison *)

Record Collection := MkCollection {
  length : Z;
  models : list ref;
  _byId : gmap string ref;
  _byCid : gmap string ref;
  comparator : option comparator_fn
}.

Record save_request := SaveRequest {
  sr_model : ref;
  sr_options : options
}.

Record world := World {
  objs : gmap ref Object;          (* the heap of Parse.Objects *)
  coll : Collection;               (* the fields of [this] *)
  log : list emitted;              (* every trigger, oldest first *)
  saves : list save_request        (* model.save calls issued by create *)
}.

Definition with_objs (h : gmap ref Object) (w : world) : world :=
  World h (coll w) (log w) (saves w).
Definition with_coll (c : Collection) (w : world) : world :=
  World (objs w) c (log w) (saves w).
Definition with_log (l : list emitted) (w : world) : world :=
  World (objs w) (coll w) l (saves w).
Definition with_saves (s : list save_request) (w : world) : world :=
  World (objs w) (coll w) (log w) s.

Definition deref (w : world) (r : ref) : Object := objs w !!! r.
Definition update_object (r : ref) (f : Object → Object) (w : world) : world :=
  with_objs (<[r := f (deref w r)]> (objs w)) w.

Inductive error :=
  | InvalidModel     (* "Can't add an invalid model to a collection" *)
  | DuplicateCid     (* "Duplicate cid: can't add the same model ..." *)
  | DuplicateId      (* "Duplicate id: can't add the same model ..." *)
  | NoComparator     (* "Cannot sort a set without a comparator" *)
  | TypeError.       (* a method called on something that has none *)

Inductive outcome (A : Type) :=
  | Return (a : A)
  | Throw (e : error).
Arguments Return {A} a.
Arguments Throw {A} e.

(** An argument that is either an array or a single element:
    [_.isArray(models) ? models.slice() : [models]]. *)
Inductive js_array (A : Type) :=
  | Many (l : list A)
  | One (a : A).
Arguments Many {A} l.
Arguments One {A} a.

Definition to_array {A} (x : js_array A) : list A :=
  match x with
  | Many l => l
  | One a => [a]
  end.

(** What [add] accepts: a bare attribute hash or a Parse.Object. *)
Inductive item :=
  | Attrs (a : gmap string value)
  | Instance (r : ref).

(** ** Array primitives *)

(** [Array.prototype.indexOf] on references. *)
Definition indexOf (r : ref) (l : list ref) : Z :=
  match list_find (λ x, x = r) l with
  | Some (i, _) => Z.of_nat i
  | None => -1
  end.

(** The start position [Array.prototype.splice] derives from its first
    argument: negative values count from the end, everything is clamped. *)
Definition splice_start (len : nat) (start : Z) : nat :=
  if start <? 0 then Z.to_nat (Z.max (Z.of_nat len + start) 0)
  else Z.to_nat (Z.min start (Z.of_nat len)).

(** [l.splice(start, deleteCount, ...items)], the array afterwards. *)
Definition splice (l : list ref) (start : Z) (deleteCount : nat)
    (items : list ref) : list ref :=
  let s := splice_start (List.length l) start in
  take s l ++ items ++ drop (s + deleteCount) l.

(** Modelled from the spec: [_.sortBy] (Underscore) and
    [Array.prototype.sort] are not part of src/; both are taken to be the
    stable sort in which [x] goes in front of the first element it does
    not exceed, the order being read off the derived key or the
    comparison function. *)
Fixpoint insert_sorted {A} (le : A → A → bool) (x : A) (l : list A) : list A :=
  match l with
  | [] => [x]
  | y :: l' => if le x y then x :: y :: l' else y :: insert_sorted le x l'
  end.

Definition stable_sort {A} (le : A → A → bool) (l : list A) : list A :=
  foldr (insert_sorted le) [] l.

(** [_.sortBy(list, key)] *)
Definition sortBy {A} (key : A → Z) (l : list A) : list A :=
  stable_sort (λ a b, key a <=? key b) l.

(** [list.sort(cmp)] *)
Definition array_sort {A} (cmp : A → A → Z) (l : list A) : list A :=
  stable_sort (λ a b, cmp a b <=? 0) l.

(** ** The methods of [Parse.Collection.prototype] *)

Section Collection.

(** The identity of the collection the methods run on. *)
Variable this : cref.
(** [this.model], the constructor applied to bare attribute hashes
    (it may consult the heap, e.g. to pick an unused client id), and
    the validation step of the object layer. *)
Variable ModelConstructor : gmap string value → options → gmap ref Object → Object.
Variable _validate : Object → options → bool.

(** [m[k]] as a value: the own entry, or else what [Object.prototype]
    has under that name. *)
Definition lookup_model (m : gmap string ref) (k : string) : value :=
  match m !! k with
  | Some r => VObj r
  | None => if inherited k then VNative k else VUndefined
  end.

(** [m[k]] as a condition *)
Definition defined (m : gmap string ref) (k : string) : bool :=
  truthy (lookup_model m k).

(** [v.id] and [v.cid]; primitives have neither property. *)
Definition prop_id (w : world) (v : value) : value :=
  match v with
  | VObj r => id (deref w r)
  | _ => VUndefined
  end.
Definition prop_cid (w : world) (v : value) : value :=
  match v with
  | VObj r => VStr (cid (deref w r))
  | _ => VUndefined
  end.

(** [get: function (id) { return id && this._byId[id.id || id] }] *)
Definition get (x : value) (w : world) : value :=
  if truthy x
  then lookup_model (_byId (coll w)) (to_key (js_or (prop_id w x) x))
  else x.

(** [getByCid: function (cid) { return cid && this._byCid[cid.cid || cid] }] *)
Definition getByCid (x : value) (w : world) : value :=
  if truthy x
  then lookup_model (_byCid (coll w)) (to_key (js_or (prop_cid w x) x))
  else x.

(** [at: function (index) { return this.models[index] }] *)
Definition at_index (i : Z) (w : world) : value :=
  if i <? 0 then VUndefined
  else match models (coll w) !! Z.to_nat i with
       | Some r => VObj r
       | None => VUndefined
       end.


(** Modelled from the spec: [this.trigger(ev, ...args)] of the event
    mixin.  The listeners of the collection are outside the file; what
    they are told is recorded. *)
Definition trigger (ev : string) (args : list jsarg) (w : world) : world :=
  with_log (log w ++ [Emitted (OnCollection this) ev args]) w.

(** [_reset] *)
Definition _reset (w : world) : world :=
  with_coll (MkCollection 0 [] ∅ ∅ (comparator (coll w))) w.

(** [_removeReference] *)
Definition _removeReference (r : ref) (w : world) : world :=
  update_object r
    (λ o, off "all" this
            (if decide (collection o = Some this) then set_collection None o else o))
    w.

(** [_prepareModel]; [None] stands for the result [false]. *)
Definition _prepareModel (it : item) (o : options) (w : world)
    : option ref * options * world :=
  match it with
  | Attrs attrs =>
      let o := set_opt_collection this o in
      let m := ModelConstructor attrs o (objs w) in
      let r := fresh (dom (objs w)) in
      let w := with_objs (<[r := m]> (objs w)) w in
      if _validate m o then (Some r, o, w) else (None, o, w)
  | Instance r =>
      match collection (deref w r) with
      | None => (Some r, o, update_object r (set_collection (Some this)) w)
      | Some _ => (Some r, o, w)
      end
  end.

(** *** Event dispatch *)

Section Dispatch.

(** [this.remove(model, options)], reached on a [destroy] event. *)
Variable remove_ : value → options → world → outcome unit * options * world.

Definition arg_value (a : option jsarg) : value :=
  match a with
  | Some (ArgV v) => v
  | _ => VUndefined
  end.

Definition is_this (a : option jsarg) : bool :=
  match a with
  | Some (ArgC c) => Pos.eqb c this
  | _ => false
  end.

(** [_onModelEvent (ev, model, collection, options)].  On
    ['change:objectId'] a truthy [model] that is no object has no method
    [previous], and the call throws. *)
Definition _onModelEvent_with (ev : string) (args : list jsarg) (w : world)
    : outcome unit * world :=
  let model := arg_value (args !! 0%nat) in
  if (String.eqb ev "add" || String.eqb ev "remove") && negb (is_this (args !! 1%nat))
  then (Return (), w)
  else
    let '(res, args, w) :=
      if String.eqb ev "destroy" then
        match args !! 2%nat with
        | Some (ArgO o) =>
            let '(res, o', w') := remove_ model o w in
            (res, <[2%nat := ArgO o']> args, w')
        | _ => let '(res, _, w') := remove_ model no_options w in (res, args, w')
        end
      else (Return (), args, w) in
    match res with
    | Throw e => (Throw e, w)
    | Return _ =>
        if truthy model && String.eqb ev "change:objectId" then
          match model with
          | VObj r =>
              let m := deref w r in
              let c := coll w in
              let w := with_coll
                         (MkCollection (length c) (models c)
                            (<[to_key (id m) := r]>
                               (delete (to_key (previous "objectId" m)) (_byId c)))
                            (_byCid c) (comparator c)) w in
              (Return (), trigger ev args w)
          | _ => (Throw TypeError, w)
          end
        else (Return (), trigger ev args w)
    end.

(** Modelled from the spec: [model.trigger(ev, ...args)] of the event
    mixin, which is not part of src/.  It tells the listeners of the
    model (recorded in the log) and runs every handler registered for
    ['all'], one after the other until one throws; the registrations of
    this collection run [_onModelEvent], those of other contexts are
    outside the file. *)
Definition trigger_model_with (r : ref) (ev : string) (args : list jsarg)
    (w : world) : outcome unit * world :=
  let w := with_log (log w ++ [Emitted (OnModel r) ev args]) w in
  foldl (λ (rw : outcome unit * world) cb,
           match rw.1 with
           | Throw _ => rw
           | Return _ =>
               if String.eqb cb.1 "all" && Pos.eqb cb.2 this
               then _onModelEvent_with ev args rw.2 else rw
           end)
        (Return (), w) (_callbacks (deref w r)).

(** One round of the loop of [remove].  What the two lookups find is a
    member, or nothing, or a built-in that the tables inherit: a built-in
    is taken for a model, and the round throws where it first calls one
    of its methods ([trigger], or [off] when silent). *)
Definition remove_step (o : options) (w : world) (x : value)
    : outcome unit * options * world :=
  match js_or (getByCid x w) (get x w) with
  | VObj r =>
      let m := deref w r in
      let c := coll w in
      let byId := delete (to_key (id m)) (_byId c) in
      let byCid := delete (cid m) (_byCid c) in
      let i := indexOf r (models c) in
      let w := with_coll
                 (MkCollection (length c - 1) (splice (models c) i 1 [])
                    byId byCid (comparator c)) w in
      let '(res, o, w) :=
        if silent o then (Return (), o, w)
        else let o := set_index i o in
             let '(res, w) :=
               trigger_model_with r "remove" [ArgV (VObj r); ArgC this; ArgO o] w in
             (res, o, w) in
      match res with
      | Throw e => (Throw e, o, w)
      | Return _ => (Return (), o, _removeReference r w)
      end
  | model =>
      if truthy model then
        let c := coll w in
        let byId := delete (to_key (prop_id w model)) (_byId c) in
        let byCid := delete (to_key (prop_cid w model)) (_byCid c) in
        let w := with_coll
                   (MkCollection (length c - 1) (splice (models c) (-1) 1 [])
                      byId byCid (comparator c)) w in
        (Throw TypeError, if silent o then o else set_index (-1) o, w)
      else (Return (), o, w)
  end.

(** The loop of [remove]: it stops at the first round that throws. *)
Fixpoint remove_loop (xs : list value) (o : options) (w : world)
    : outcome unit * options * world :=
  match xs with
  | [] => (Return (), o, w)
  | x :: xs' =>
      match remove_step o w x with
      | (Return _, o', w') => remove_loop xs' o' w'
      | (Throw e, o', w') => (Throw e, o', w')
      end
  end.

Definition remove_with (xs : js_array value) (o : options) (w : world)
    : outcome unit * options * world :=
  remove_loop (to_array xs) o w.

End Dispatch.

(** The [remove] a [destroy] handler runs.  The only event it triggers is
    ['remove'], on which [_onModelEvent] never calls [remove] again. *)
Definition remove_nested (x : value) (o : options) (w : world)
    : outcome unit * options * world :=
  remove_with (λ _ o w, (Return (), o, w)) (One x) o w.

Definition _onModelEvent : string → list jsarg → world → outcome unit * world :=
  _onModelEvent_with remove_nested.

Definition trigger_model : ref → string → list jsarg → world → outcome unit * world :=
  trigger_model_with remove_nested.

(** [remove]: it returns [this], or throws with the collection as the
    failing round has left it. *)
Definition remove (xs : js_array value) (o : options) (w : world)
    : outcome unit * world :=
  let '(res, _, w) := remove_with remove_nested xs o w in (res, w).

(** *** sort *)

(** The array [sort] leaves in [this.models]: [this.sortBy(comparator)]
    for a one-argument comparator, [this.models.sort(comparator)]
    otherwise.  The comparator reads the models off the heap. *)
Definition sort_models (f : comparator_fn) (w : world) : list ref :=
  match f with
  | Cmp1 key => sortBy (λ r, key (deref w r)) (models (coll w))
  | Cmp2 cmp => array_sort (λ a b, cmp (deref w a) (deref w b)) (models (coll w))
  end.

Definition sort (o : options) (w : world) : outcome unit * world :=
  match comparator (coll w) with
  | None => (Throw NoComparator, w)
  | Some f =>
      let c := coll w in
      let w := with_coll
                 (MkCollection (length c) (sort_models f w) (_byId c) (_byCid c)
                    (comparator c)) w in
      if silent o then (Return (), w)
      else (Return (), trigger "reset" [ArgC this; ArgO o] w)
  end.

(** *** add *)

(** The first loop: prepare each input and refuse invalid and duplicate
    models.  [cids] and [ids] are the two local tables. *)
Fixpoint add_prepare (items : list item) (o : options)
    (cids ids : gmap string ref) (w : world)
    : outcome (list ref * gmap string ref) * options * world :=
  match items with
  | [] => (Return ([], cids), o, w)
  | it :: rest =>
      let '(m, o, w) := _prepareModel it o w in
      match m with
      | None => (Throw InvalidModel, o, w)
      | Some r =>
          let c := cid (deref w r) in
          if defined cids c || defined (_byCid (coll w)) c
          then (Throw DuplicateCid, o, w)
          else
            let i := id (deref w r) in
            if negb (_isNullOrUndefined i)
               && (defined ids (to_key i) || defined (_byId (coll w)) (to_key i))
            then (Throw DuplicateId, o, w)
            else
              match add_prepare rest o (<[c := r]> cids) (<[to_key i := r]> ids) w with
              | (Return (rs, cids'), o', w') => (Return (r :: rs, cids'), o', w')
              | (Throw e, o', w') => (Throw e, o', w')
              end
      end
  end.

(** The inputs of [add] as [_prepareModel] turns them into models, one
    after the other, with no check in between. *)
Fixpoint prepare_all (items : list item) (o : options) (w : world)
    : list (option ref) * options * world :=
  match items with
  | [] => ([], o, w)
  | it :: rest =>
      let '(m, o, w) := _prepareModel it o w in
      let '(ms, o, w) := prepare_all rest o w in
      (m :: ms, o, w)
  end.

(** The second loop: subscribe and index. *)
Definition add_index (w : world) (r : ref) : world :=
  let w := update_object r (on "all" this) w in
  let m := deref w r in
  let c := coll w in
  with_coll
    (MkCollection (length c) (models c)
       (if truthy (id m) then <[to_key (id m) := r]> (_byId c) else _byId c)
       (<[cid m := r]> (_byCid c))
       (comparator c)) w.

(** One round of the last loop: an ['add'] event for a member whose
    client id is in the table of the batch, carrying its position. *)
Definition add_announce (cids : gmap string ref) (o : options) (w : world) (i : nat)
    : outcome unit * options * world :=
  match models (coll w) !! i with
  | Some r =>
      if defined cids (cid (deref w r)) then
        let o := set_index (Z.of_nat i) o in
        let '(res, w) := trigger_model r "add" [ArgV (VObj r); ArgC this; ArgO o] w in
        (res, o, w)
      else (Return (), o, w)
  | None => (Return (), o, w)
  end.

(** The last loop, over the positions [ps]. *)
Fixpoint add_announce_loop (cids : gmap string ref) (ps : list nat)
    (o : options) (w : world) : outcome unit * options * world :=
  match ps with
  | [] => (Return (), o, w)
  | i :: ps' =>
      match add_announce cids o w i with
      | (Return _, o', w') => add_announce_loop cids ps' o' w'
      | (Throw e, o', w') => (Throw e, o', w')
      end
  end.

(** [add], with the options object as the call leaves it: the caller
    keeps that object, and [_prepareModel] and the last loop write to it. *)
Definition add_run (ms : js_array item) (o : options) (w : world)
    : outcome unit * options * world :=
  match add_prepare (to_array ms) o ∅ ∅ w with
  | (Throw e, o, w) => (Throw e, o, w)
  | (Return (rs, cids), o, w) =>
      let w := foldl add_index w rs in
      let c := coll w in
      let i := match at_ o with
               | None => Z.of_nat (List.length (models c))
               | Some a => a
               end in
      let w := with_coll
                 (MkCollection (length c + Z.of_nat (List.length rs))
                    (splice (models c) i 0 rs) (_byId c) (_byCid c) (comparator c)) w in
      let '(res, w) :=
        match comparator (coll w) with
        | Some _ => sort silent_options w
        | None => (Return (), w)
        end in
      match res with
      | Throw e => (Throw e, o, w)
      | Return _ =>
          if silent o then (Return (), o, w)
          else add_announce_loop cids (seq 0 (List.length (models (coll w)))) o w
      end
  end.

(** [add], as the collection and the heap see it. *)
Definition add (ms : js_array item) (o : options) (w : world) : outcome unit * world :=
  let '(res, _, w) := add_run ms o w in (res, w).

(** *** reset *)

(** [Parse._arrayEach(this.models, function (model) {
      self._removeReference(model) })] *)
Definition detach_all (w : world) : world :=
  foldl (λ w r, _removeReference r w) w (models (coll w)).

Definition reset (ms : option (js_array item)) (o : options) (w : world)
    : outcome unit * world :=
  let items := default (Many []) ms in
  let w := detach_all w in
  let w := _reset w in
  match add items silent_options w with
  | (Throw e, w) => (Throw e, w)
  | (Return _, w) =>
      if silent o then (Return (), w)
      else (Return (), trigger "reset" [ArgC this; ArgO o] w)
  end.

(** *** create *)

(** The function [create] installs as [options.success]: it runs when
    the save of [model] has succeeded with [nextModel].  [o] is the
    options object of [create] as it is by then. *)
Definition create_success (o : options) (model nextModel : ref) (w : world)
    : outcome unit * world :=
  let '(res, o, w) :=
    if wait o then add_run (One (Instance nextModel)) o w else (Return (), o, w) in
  match res with
  | Throw e => (Throw e, w)
  | Return _ =>
      if success o then (Return (), w)
      else trigger_model nextModel "sync" [ArgV (VObj model); ArgResp; ArgO o] w
  end.

(** [create]; the result is the model or [false].  The save is handed
    the options object itself, with what [add] has written to it. *)
Definition create (it : item) (o : options) (w : world) : outcome value * world :=
  let '(m, o, w) := _prepareModel it o w in
  match m with
  | None => (Return (VBool false), w)
  | Some r =>
      let '(res, o, w) :=
        if wait o then (Return (), o, w) else add_run (One (Instance r)) o w in
      match res with
      | Throw e => (Throw e, w)
      | Return _ => (Return (VObj r), with_saves (saves w ++ [SaveRequest r o]) w)
      end
  end.

(** *** fetch *)

(** The function [fetch] hands to [then]: it runs when [query.find] has
    resolved with [results], a list of Parse.Objects.  [adding] is
    [options.add]; the collection itself is what the promise resolves to. *)
Definition fetch_then (adding : bool) (results : list ref) (o : options) (w : world)
    : outcome unit * world :=
  if adding then add (Many (Instance <$> results)) o w
  else reset (Some (Many (Instance <$> results))) o w.

(** *** The constructor *)

Definition Parse_Collection (ms : option (js_array item))
    (cmp : option comparator_fn) (heap : gmap ref Object) (lg : list emitted)
    : outcome unit * world :=
  let w := _reset (World heap (MkCollection 0 [] ∅ ∅ cmp) lg []) in
  match ms with
  | Some ms => reset (Some ms) silent_options w
  | None => (Return (), w)
  end.

End Collection.

(** ** A concrete object layer, for the examples *)

Module Demo.

Definition me : cref := 1%positive.

(** A constructor in the manner of [Parse.Object]: a client id that is
    not in use, the server id taken from the [objectId] attribute. *)
Definition construct (attrs : gmap string value) (o : options)
    (heap : gmap ref Object) : Object :=
  MkObject ("c" +:+ pretty (fresh (dom heap)))
    (default VUndefined (attrs !! "objectId")) attrs ∅ (opt_collection o) [].

(** Validation refuses an [ACL] attribute that is not an object. *)
Definition validate (m : Object) (o : options) : bool :=
  match attributes m !! "ACL" with
  | None | Some (VObj _) => true
  | Some _ => false
  end.



(** Two saved models and an unsaved one. *)
Definition heap0 : gmap ref Object :=
  {[ 1%positive := MkObject "A" (VStr "x1") ∅ ∅ None [];
     2%positive := MkObject "B" (VStr "x2") ∅ ∅ None [];
     3%positive := MkObject "C" VUndefined ∅ ∅ None [] ]}.

Definition new_collection (cmp : option comparator_fn) (heap : gmap ref Object)
    : world :=
  (Parse_Collection me construct validate None cmp heap []).2.


(** [new Parse.Collection()], then [add([m1, m2, m3])] *)
Definition abc_collection : world :=
  (add me construct validate
     (Many [Instance 1%positive; Instance 2%positive; Instance 3%positive])
     no_options (new_collection None heap0)).2.

End Demo.

(** ** Predicates used in the statements *)

(** Every object keeps its client id, server id and attributes. *)
Definition same_identity (w w' : world) : Prop :=
  ∀ r, cid (deref w' r) = cid (deref w r)
       ∧ id (deref w' r) = id (deref w r)
       ∧ attributes (deref w' r) = attributes (deref w r).

(** The same for the allocated objects only; the heap may have grown. *)
Definition stable (w w' : world) : Prop :=
  dom (objs w) ⊆ dom (objs w')
  ∧ ∀ r, r ∈ dom (objs w) →
         cid (deref w' r) = cid (deref w r)
         ∧ id (deref w' r) = id (deref w r)
         ∧ attributes (deref w' r) = attributes (deref w r).

(** The tables the second loop of [add] builds from a batch. *)
Definition index_cids (w : world) (rs : list ref) (m : gmap string ref)
    : gmap string ref :=
  foldl (λ m r, <[cid (deref w r) := r]> m) m rs.

Definition index_ids (w : world) (rs : list ref) (m : gmap string ref)
    : gmap string ref :=
  foldl (λ m r, if truthy (id (deref w r))
                then <[to_key (id (deref w r)) := r]> m else m) m rs.

(** An input of [add] that has no server id, before or after it has been
    turned into a model. *)
Definition lacks_id
    (ModelConstructor : gmap string value → options → gmap ref Object → Object)
    (w : world) (it : item) : Prop :=
  match it with
  | Instance r => _isNullOrUndefined (id (deref w r)) = true
  | Attrs a => ∀ o h, _isNullOrUndefined (id (ModelConstructor a o h)) = true
  end.

(** What the first loop of [add] has checked once it lets a batch pass. *)
Fixpoint accepted (c : Collection) (w : world) (cids ids : gmap string ref)
    (rs : list ref) : Prop :=
  match rs with
  | [] => True
  | r :: rs' =>
      let k := cid (deref w r) in
      let i := id (deref w r) in
      cids !! k = None ∧ _byCid c !! k = None
      ∧ (_isNullOrUndefined i = false →
         ids !! to_key i = None ∧ _byId c !! to_key i = None)
      ∧ accepted c w (<[k := r]> cids) (<[to_key i := r]> ids) rs'
  end.

(** A batch collides when two of its models share a client id, or share a
    server id that is neither null nor undefined, or when one of them
    meets an entry of the tables of the collection. *)
Definition collides (c : Collection) (w : world) (rs : list ref) : Prop :=
  (∃ (i j : nat) r r', (i < j)%nat ∧ rs !! i = Some r ∧ rs !! j = Some r'
     ∧ cid (deref w r) = cid (deref w r'))
  ∨ (∃ (i j : nat) r r', (i < j)%nat ∧ rs !! i = Some r ∧ rs !! j = Some r'
       ∧ _isNullOrUndefined (id (deref w r)) = false
       ∧ id (deref w r) = id (deref w r'))
  ∨ (∃ r, r ∈ rs
       ∧ (is_Some (_byCid c !! cid (deref w r))
          ∨ (_isNullOrUndefined (id (deref w r)) = false
             ∧ is_Some (_byId c !! to_key (id (deref w r)))))).

(** The invariant of the collection: the cached length is right, no
    member occurs twice, every member is found under its client id, and
    the two tables hold members only, each under its own key. *)
Definition inv (w : world) : Prop :=
  length (coll w) = Z.of_nat (List.length (models (coll w)))
  ∧ NoDup (models (coll w))
  ∧ (∀ r, r ∈ models (coll w) →
          r ∈ dom (objs w) ∧ _byCid (coll w) !! cid (deref w r) = Some r)
  ∧ (∀ k r, _byCid (coll w) !! k = Some r →
            r ∈ models (coll w) ∧ cid (deref w r) = k)
  ∧ (∀ k r, _byId (coll w) !! k = Some r →
            r ∈ models (coll w) ∧ to_key (id (deref w r)) = k).

(** The states a collection goes through: built by the constructor, then
    changed by [add], [reset] and [sort], whatever they answer, and by
    the calls of [remove] that return.  (A [remove] that throws has taken
    a built-in for a model and leaves the fields out of step.) *)
Inductive reachable (this : cref)
    (ModelConstructor : gmap string value → options → gmap ref Object → Object)
    (_validate : Object → options → bool) : world → Prop :=
  | reach_new ms cmp heap lg :
      reachable this ModelConstructor _validate
        (Parse_Collection this ModelConstructor _validate ms cmp heap lg).2
  | reach_add ms o w :
      reachable this ModelConstructor _validate w →
      reachable this ModelConstructor _validate
        (add this ModelConstructor _validate ms o w).2
  | reach_remove xs o w :
      reachable this ModelConstructor _validate w →
      (remove this xs o w).1 = Return () →
      reachable this ModelConstructor _validate (remove this xs o w).2
  | reach_reset ms o w :
      reachable this ModelConstructor _validate w →
      reachable this ModelConstructor _validate
        (reset this ModelConstructor _validate ms o w).2
  | reach_sort o w :
      reachable this ModelConstructor _validate w →
      reachable this ModelConstructor _validate (sort this o w).2.

(** A model the collection neither listens to nor owns. *)
Definition detached (this : cref) (w : world) (r : ref) : Prop :=
  collection (deref w r) ≠ Some this ∧ ("all", this) ∉ _callbacks (deref w r).

(** What [add] wants of a batch: client ids that differ from one another
    and that [_byCid] does not answer to, and, for each model whose
    server id is neither null nor undefined, an id whose key [_byId] does
    not answer to and that is not the key of the id of any model before
    it in the batch.  A table answers to the names of its own entries and
    to those it inherits. *)
Definition batch_ok (c : Collection) (w : world) (rs : list ref) : Prop :=
  (∀ (i j : nat) a b, (i < j)%nat → rs !! i = Some a → rs !! j = Some b →
     cid (deref w a) ≠ cid (deref w b)
     ∧ (_isNullOrUndefined (id (deref w b)) = false →
        to_key (id (deref w a)) ≠ to_key (id (deref w b))))
  ∧ (∀ r, r ∈ rs →
       lookup_model (_byCid c) (cid (deref w r)) = VUndefined
       ∧ (_isNullOrUndefined (id (deref w r)) = false →
          lookup_model (_byId c) (to_key (id (deref w r))) = VUndefined)).

(** No model of the batch goes by a name that the tables inherit: not
    by client id, nor by a server id that is neither null nor undefined. *)
Definition own_names (w : world) (rs : list ref) : Prop :=
  ∀ r, r ∈ rs →
    inherited (cid (deref w r)) = false
    ∧ (_isNullOrUndefined (id (deref w r)) = false →
       inherited (to_key (id (deref w r))) = false).

(** From [w] to [w'] no model that belongs to another collection has
    changed hands. *)
Definition keeps_owners (this : cref) (w w' : world) : Prop :=
  ∀ r c, c ≠ this → collection (deref w r) = Some c →
         collection (deref w' r) = Some c.

(** The event names [_onModelEvent] has no special case for. *)
Definition plain (ev : string) : Prop :=
  String.eqb ev "add" = false ∧ String.eqb ev "remove" = false
  ∧ String.eqb ev "destroy" = false ∧ String.eqb ev "change:objectId" = false.

(** The collection listens to each of its members. *)
Definition listening (this : cref) (w : world) : Prop :=
  ∀ r, r ∈ models (coll w) → ("all", this) ∈ _callbacks (deref w r).

(** How many times the collection has registered its handler on a model. *)
Definition subscriptions (this : cref) (o : Object) : nat :=
  List.length (filter (λ cb, cb = ("all", this)) (_callbacks o)).

(** What the last loop of [add] emits for a new member [r] at position
    [i]: the event on the model, then what the handler of the collection
    hands on, once per registration. *)
Definition add_events (this : cref) (o : options) (w : world) (i : nat) (r : ref)
    : list emitted :=
  let args := [ArgV (VObj r); ArgC this; ArgO (set_index (Z.of_nat i) o)] in
  Emitted (OnModel r) "add" args
  :: replicate (subscriptions this (deref w r)) (Emitted (OnCollection this) "add" args).

(** What one round of the last loop of [add] emits. *)
Definition announce_block (this : cref) (cids : gmap string ref) (o : options)
    (w : world) (i : nat) : list emitted :=
  match models (coll w) !! i with
  | Some r => if defined cids (cid (deref w r))
              then add_events this o w i r else []
  | None => []
  end.




(** ** Facts about the array primitives *)

Section Arrays.

Context {A : Type}.
Implicit Types (le : A → A → bool) (l : list A).

Lemma insert_sorted_perm le x l : insert_sorted le x l ≡ₚ x :: l.
Proof.
  induction l as [|y l IH]; simpl; [done|].
  destruct (le x y); [done|].
  rewrite IH. apply perm_swap.
Qed.

Lemma stable_sort_perm le l : stable_sort le l ≡ₚ l.
Proof.
  induction l as [|x l IH]; simpl; [done|].
  rewrite insert_sorted_perm. by f_equiv.
Qed.




End Arrays.

Lemma omap_id_Some {A} (l : list A) : omap (λ p, p) (Some <$> l) = l.
Proof. induction l as [|x l IH]; [done|]. cbn. by f_equal. Qed.


Lemma splice_delete_sublist l i : splice l i 1 [] `sublist_of` l.
Proof.
  unfold splice. simpl.
  set (s := splice_start (List.length l) i).
  rewrite <- (take_drop s l) at 3.
  apply sublist_app; [done|].
  rewrite <- (drop_drop l 1 s). apply sublist_drop.
Qed.

Lemma map_seq_lookup {A B} (g : nat → A → list B) (l : list A) :
  map (λ i, match l !! i with Some x => g i x | None => [] end) (seq 0 (List.length l))
  = imap g l.
Proof.
  apply list_eq. intros i.
  rewrite list_lookup_imap.
  change (map ?f ?k) with (f <$> k). rewrite list_lookup_fmap.
  destruct (l !! i) as [x|] eqn:E.
  - rewrite lookup_seq_lt by (by eapply lookup_lt_Some). simpl. by rewrite E.
  - rewrite lookup_seq_ge; [done|]. by apply lookup_ge_None.
Qed.

Lemma filter_all {A} (P : A → Prop) `{!∀ x, Decision (P x)} (l : list A) :
  (∀ x, x ∈ l → P x) → filter P l = l.
Proof.
  induction l as [|x l IH]; intros Hall; [done|].
  rewrite filter_cons_True by (apply Hall; by left).
  f_equal. apply IH. intros y Hy. apply Hall. by right.
Qed.

Lemma splice_start_le len i : (splice_start len i ≤ len)%nat.
Proof. unfold splice_start. destruct (i <? 0) eqn:E; lia. Qed.

Lemma splice_insert_perm l i rs : splice l i 0 rs ≡ₚ rs ++ l.
Proof.
  unfold splice. rewrite Nat.add_0_r.
  rewrite Permutation_app_swap_app. by rewrite take_drop.
Qed.

Lemma splice_insert_length l i rs :
  List.length (splice l i 0 rs) = (List.length l + List.length rs)%nat.
Proof.
  rewrite (Permutation_length (splice_insert_perm l i rs)), length_app. lia.
Qed.

Lemma splice_last l : splice l (-1) 1 [] = take (List.length l - 1) l.
Proof.
  unfold splice, splice_start. change (-1 <? 0) with true. cbv iota.
  replace (Z.to_nat (Z.max (Z.of_nat (List.length l) + -1) 0))
    with (List.length l - 1)%nat by lia.
  simpl. rewrite drop_ge by lia. apply app_nil_r.
Qed.

Lemma splice_delete l (n : nat) x :
  l !! n = Some x → splice l (Z.of_nat n) 1 [] = delete n l.
Proof.
  intros Hn. apply lookup_lt_Some in Hn.
  unfold splice, splice_start.
  destruct (Z.of_nat n <? 0) eqn:E; [lia|].
  replace (Z.to_nat (Z.min (Z.of_nat n) (Z.of_nat (List.length l)))) with n by lia.
  rewrite delete_take_drop. simpl. by rewrite Nat.add_1_r.
Qed.

Lemma elem_of_delete_NoDup {A} (l : list A) (n : nat) x y :
  NoDup l → l !! n = Some x → y ∈ delete n l ↔ y ∈ l ∧ y ≠ x.
Proof.
  intros Hnd Hn. rewrite delete_take_drop.
  pose proof (take_drop_middle l n x Hn) as E.
  assert (y ∈ l ↔ y ∈ take n l ∨ y = x ∨ y ∈ drop (S n) l) as ->.
  { rewrite <- E at 1. by rewrite elem_of_app, elem_of_cons. }
  rewrite <- E in Hnd.
  apply NoDup_app in Hnd as (_ & Hdisj & [Hx _]%NoDup_cons).
  rewrite elem_of_app. split.
  - intros [Hy|Hy].
    + split; [by left|]. intros ->. apply (Hdisj x Hy). by left.
    + split; [by right; right|]. by intros ->.
  - intros [[Hy|[->|Hy]] Hne]; [by left|done|by right].
Qed.

Lemma indexOf_elem r l :
  r ∈ l →
  ∃ n : nat, indexOf r l = Z.of_nat n ∧ l !! n = Some r
             ∧ ∀ j : nat, (j < n)%nat → l !! j ≠ Some r.
Proof.
  intros Hin. unfold indexOf.
  destruct (list_find (λ x, x = r) l) as [[n x]|] eqn:E.
  - apply list_find_Some in E as (Hn & -> & Hmin).
    exists n. split_and!; [done..|]. intros j Hj Hl. exact (Hmin j r Hl Hj eq_refl).
  - apply list_find_None in E. rewrite Forall_forall in E.
    exfalso. exact (E r Hin eq_refl).
Qed.

Lemma indexOf_not_elem r l : r ∉ l → indexOf r l = -1.
Proof.
  intros Hin. unfold indexOf.
  destruct (list_find (λ x, x = r) l) as [[n x]|] eqn:E; [|done].
  apply list_find_Some in E as (Hn & -> & _).
  exfalso. apply Hin. by eapply list_elem_of_lookup_2.
Qed.

(** ** Facts about the methods *)

Section Facts.

Variable this : cref.
Variable ModelConstructor : gmap string value → options → gmap ref Object → Object.
Variable _validate : Object → options → bool.

#[local] Abbreviation trigger := (trigger this).
#[local] Abbreviation _removeReference := (_removeReference this).
#[local] Abbreviation _prepareModel := (_prepareModel this ModelConstructor _validate).
#[local] Abbreviation _onModelEvent_with := (_onModelEvent_with this).
#[local] Abbreviation trigger_model_with := (trigger_model_with this).
#[local] Abbreviation trigger_model := (trigger_model this).
#[local] Abbreviation remove_step := (remove_step this).
#[local] Abbreviation remove_loop := (remove_loop this).
#[local] Abbreviation remove_with := (remove_with this).
#[local] Abbreviation remove_nested := (remove_nested this).
#[local] Abbreviation remove := (remove this).
#[local] Abbreviation sort := (sort this).
#[local] Abbreviation add_prepare := (add_prepare this ModelConstructor _validate).
#[local] Abbreviation add_index := (add_index this).
#[local] Abbreviation add_announce := (add_announce this).
#[local] Abbreviation add_announce_loop := (add_announce_loop this).
#[local] Abbreviation add_run := (add_run this ModelConstructor _validate).
#[local] Abbreviation add := (add this ModelConstructor _validate).
#[local] Abbreviation detach_all := (detach_all this).
#[local] Abbreviation reset := (reset this ModelConstructor _validate).
#[local] Abbreviation prepare_all := (prepare_all this ModelConstructor _validate).
#[local] Abbreviation reachable := (reachable this ModelConstructor _validate).
#[local] Abbreviation lacks_id := (lacks_id ModelConstructor).
#[local] Abbreviation detached := (detached this).
#[local] Abbreviation create := (create this ModelConstructor _validate).
#[local] Abbreviation create_success := (create_success this ModelConstructor _validate).
#[local] Abbreviation Parse_Collection := (Parse_Collection this ModelConstructor _validate).

(** *** The heap *)

Lemma deref_update_eq r f w : deref (update_object r f w) r = f (deref w r).
Proof. unfold deref, update_object. simpl. by rewrite lookup_total_insert_eq. Qed.

Lemma deref_update_ne r r' f w : r ≠ r' → deref (update_object r f w) r' = deref w r'.
Proof. intros. unfold deref, update_object. simpl. by rewrite lookup_total_insert_ne. Qed.

Lemma dom_update_object r f w : dom (objs (update_object r f w)) = {[r]} ∪ dom (objs w).
Proof. unfold update_object. simpl. apply dom_insert_L. Qed.

Lemma same_identity_refl w : same_identity w w.
Proof. done. Qed.

Lemma same_identity_trans w1 w2 w3 :
  same_identity w1 w2 → same_identity w2 w3 → same_identity w1 w3.
Proof.
  intros H12 H23 r.
  destruct (H12 r) as (? & ? & ?), (H23 r) as (? & ? & ?).
  split_and!; congruence.
Qed.

Lemma same_identity_update r f w :
  (∀ o, cid (f o) = cid o ∧ id (f o) = id o ∧ attributes (f o) = attributes o) →
  same_identity w (update_object r f w).
Proof.
  intros Hf r'. destruct (decide (r = r')) as [<-|Hne].
  - rewrite deref_update_eq. apply Hf.
  - by rewrite deref_update_ne.
Qed.

Lemma stable_refl w : stable w w.
Proof. done. Qed.

Lemma stable_trans w1 w2 w3 : stable w1 w2 → stable w2 w3 → stable w1 w3.
Proof.
  intros [Hd12 H12] [Hd23 H23]. split; [set_solver|].
  intros r Hr.
  destruct (H12 r Hr) as (? & ? & ?), (H23 r) as (? & ? & ?); [set_solver|].
  split_and!; congruence.
Qed.

Lemma same_identity_stable w w' :
  dom (objs w) ⊆ dom (objs w') → same_identity w w' → stable w w'.
Proof. intros Hd Hs. split; [done|]. intros r _. apply Hs. Qed.

Lemma stable_update r f w :
  (∀ o, cid (f o) = cid o ∧ id (f o) = id o ∧ attributes (f o) = attributes o) →
  stable w (update_object r f w).
Proof.
  intros Hf. apply same_identity_stable; [|by apply same_identity_update].
  rewrite dom_update_object. set_solver.
Qed.

(** *** Event dispatch *)

Lemma trigger_eq ev args w :
  trigger ev args w = with_log (log w ++ [Emitted (OnCollection this) ev args]) w.
Proof. done. Qed.

(** On an event other than ['destroy'] and ['change:objectId'] the
    handler either ignores the event or passes it on. *)
Lemma _onModelEvent_with_plain rm ev args w :
  String.eqb ev "destroy" = false →
  String.eqb ev "change:objectId" = false →
  _onModelEvent_with rm ev args w = (Return (), w)
  ∨ _onModelEvent_with rm ev args w = (Return (), trigger ev args w).
Proof.
  intros Hd Hc. unfold _onModelEvent_with.
  rewrite Hd, Hc, andb_false_r.
  destruct (_ && _); auto.
Qed.

Lemma dispatch_plain rm ev args cbs w :
  String.eqb ev "destroy" = false →
  String.eqb ev "change:objectId" = false →
  ∃ n : nat,
    foldl (λ (rw : outcome unit * world) (cb : string * cref),
             match rw.1 with
             | Throw _ => rw
             | Return _ =>
                 if String.eqb cb.1 "all" && Pos.eqb cb.2 this
                 then _onModelEvent_with rm ev args rw.2 else rw
             end) (Return (), w) cbs
    = (Return (),
       with_log (log w ++ replicate n (Emitted (OnCollection this) ev args)) w).
Proof.
  intros Hd Hc. revert w. induction cbs as [|cb cbs IH]; intros w; cbn [foldl fst snd].
  - exists 0%nat. simpl. rewrite app_nil_r. by destruct w.
  - destruct (_ && _).
    + destruct (_onModelEvent_with_plain rm ev args w Hd Hc) as [-> | ->]; [apply IH|].
      destruct (IH (trigger ev args w)) as [n ->].
      exists (S n). simpl. by rewrite <- app_assoc.
    + apply IH.
Qed.

Lemma trigger_model_with_plain rm r ev args w :
  String.eqb ev "destroy" = false →
  String.eqb ev "change:objectId" = false →
  ∃ n : nat,
    trigger_model_with rm r ev args w
    = (Return (),
       with_log (log w ++ Emitted (OnModel r) ev args
                   :: replicate n (Emitted (OnCollection this) ev args)) w).
Proof.
  intros Hd Hc. unfold trigger_model_with.
  edestruct dispatch_plain as [n ->]; [done..|].
  exists n. simpl. by rewrite <- app_assoc.
Qed.

Lemma trigger_model_plain r ev args w :
  String.eqb ev "destroy" = false →
  String.eqb ev "change:objectId" = false →
  ∃ n : nat,
    trigger_model r ev args w
    = (Return (),
       with_log (log w ++ Emitted (OnModel r) ev args
                   :: replicate n (Emitted (OnCollection this) ev args)) w).
Proof. apply trigger_model_with_plain. Qed.

(** *** _prepareModel and the first loop of add *)

Lemma defined_false m k : defined m k = false → m !! k = None.
Proof. unfold defined, lookup_model. by destruct (m !! k). Qed.

Lemma defined_false_own m k : defined m k = false → inherited k = false.
Proof.
  unfold defined, lookup_model. destruct (m !! k); [done|]. by destruct (inherited k).
Qed.

Lemma defined_false_iff m k :
  defined m k = false ↔ m !! k = None ∧ inherited k = false.
Proof.
  split.
  - intros H. split; [by eapply defined_false|by eapply defined_false_own].
  - intros [H1 H2]. unfold defined, lookup_model. by rewrite H1, H2.
Qed.

Lemma defined_Some m k r : m !! k = Some r → defined m k = true.
Proof. intros H. unfold defined, lookup_model. by rewrite H. Qed.

Lemma lookup_model_undefined m k :
  lookup_model m k = VUndefined ↔ m !! k = None ∧ inherited k = false.
Proof.
  unfold lookup_model. destruct (m !! k); [naive_solver|].
  destruct (inherited k); naive_solver.
Qed.

Lemma _prepareModel_spec it o w m o' w' :
  _prepareModel it o w = (m, o', w') →
  stable w w' ∧ coll w' = coll w ∧ log w' = log w ∧ saves w' = saves w
  ∧ silent o' = silent o ∧ at_ o' = at_ o ∧ wait o' = wait o
  ∧ success o' = success o
  ∧ (∀ r, m = Some r → r ∈ dom (objs w'))
  ∧ (∀ r, r ∈ dom (objs w) → m ≠ Some r → objs w' !! r = objs w !! r).
Proof.
  destruct it as [attrs|r]; simpl.
  - pose proof (is_fresh (dom (objs w))) as Hfresh. revert Hfresh.
    generalize (fresh (dom (objs w))) as r.
    generalize (ModelConstructor attrs (set_opt_collection this o) (objs w)) as obj.
    intros obj r Hfresh H.
    assert (w' = with_objs (<[r := obj]> (objs w)) w ∧ o' = set_opt_collection this o
            ∧ ∀ r', m = Some r' → r' = r) as (-> & -> & Hm).
    { destruct (_validate _ _); simplify_eq; split_and!; try done; congruence. }
    split_and!; try done.
    + split; simpl; [rewrite dom_insert_L; set_solver|].
      intros r' Hr'. unfold deref. simpl.
      rewrite lookup_total_insert_ne; [done|].
      by intros ->.
    + intros r' ->%Hm. simpl. rewrite dom_insert_L. set_solver.
    + intros r' Hr' _. simpl. apply lookup_insert_ne. by intros ->.
  - destruct (collection (deref w r)) eqn:Hc; intros H; simplify_eq.
    + split_and!; try done. intros r' [= <-].
      apply elem_of_dom. unfold deref in Hc. rewrite lookup_total_alt in Hc.
      destruct (objs w' !! r); [eauto|done].
    + split_and!; try done.
      * by apply stable_update.
      * intros r' [= <-]. rewrite dom_update_object. set_solver.
      * intros r' _ Hne. simpl. apply lookup_insert_ne. congruence.
Qed.

Lemma add_prepare_Return items o cids ids w rs cids' o' w' :
  add_prepare items o cids ids w = (Return (rs, cids'), o', w') →
  stable w w' ∧ coll w' = coll w ∧ log w' = log w ∧ saves w' = saves w
  ∧ silent o' = silent o ∧ at_ o' = at_ o
  ∧ Forall (λ r, r ∈ dom (objs w')) rs
  ∧ List.length rs = List.length items
  ∧ accepted (coll w) w' cids ids rs
  ∧ cids' = index_cids w' rs cids
  ∧ prepare_all items o w = (Some <$> rs, o', w')
  ∧ (∀ r, r ∈ dom (objs w) → r ∉ rs → objs w' !! r = objs w !! r).
Proof.
  revert o cids ids w rs cids' o' w'.
  induction items as [|it items IH]; intros o cids ids w rs cids' o' w'; simpl.
  - intros [= <- <- <- <-]. split_and!; done.
  - destruct (_prepareModel it o w) as [[m o1] w1] eqn:Hp.
    apply _prepareModel_spec in Hp as (Hst & Hc & Hl & Hs & Hsi & Hat & _ & _ & Hd & Hfr).
    destruct m as [r|]; [|done].
    specialize (Hd r eq_refl).
    destruct (defined cids _ || defined _ _) eqn:Hcid; [done|].
    destruct (negb _ && _) eqn:Hid; [done|].
    destruct (add_prepare items o1 _ _ w1) as [[[[rs0 c0]|e] o2] w2] eqn:Hrec; [|done].
    intros [= <- <- <- <-].
    apply IH in Hrec
      as (Hst' & Hc' & Hl' & Hs' & Hsi' & Hat' & Hdom & Hlen & Hacc & Hcids & Hpa & Hfr').
    destruct (proj2 Hst' r Hd) as (Ecid & Eid & _).
    apply orb_false_elim in Hcid as [Hcid1 Hcid2].
    split_and!; try congruence.
    + by eapply stable_trans.
    + constructor; [|done]. by apply (proj1 Hst').
    + simpl. by rewrite Hlen.
    + simpl. rewrite Ecid, Eid, <- Hc. split_and!.
      * by apply defined_false.
      * by apply defined_false.
      * intros Hnn. rewrite Hnn in Hid. simpl in Hid.
        apply orb_false_elim in Hid as [??]. split; by apply defined_false.
      * done.
    + simpl. by rewrite Ecid.
    + by rewrite Hpa.
    + intros r' Hr' Hnin. apply not_elem_of_cons in Hnin as [Hne Hnin].
      rewrite Hfr'; [|by apply (proj1 Hst)|done].
      apply Hfr; [done|congruence].
Qed.

Lemma add_prepare_own_names items o cids ids w rs cids' o' w' :
  add_prepare items o cids ids w = (Return (rs, cids'), o', w') → own_names w' rs.
Proof.
  revert o cids ids w rs cids' o' w'.
  induction items as [|it items IH]; intros o cids ids w rs cids' o' w'; simpl.
  - intros [= <- <- <- <-] r []%elem_of_nil.
  - destruct (_prepareModel it o w) as [[m o1] w1] eqn:Hp.
    apply _prepareModel_spec in Hp as (_ & _ & _ & _ & _ & _ & _ & _ & Hd & _).
    destruct m as [r|]; [|done].
    destruct (defined cids _ || defined _ _) eqn:Hcid; [done|].
    destruct (negb _ && _) eqn:Hid; [done|].
    destruct (add_prepare items o1 _ _ w1) as [[[[rs0 c0]|e] o2] w2] eqn:Hrec; [|done].
    intros [= <- <- <- <-].
    pose proof (add_prepare_Return _ _ _ _ _ _ _ _ _ Hrec) as (Hst' & _).
    destruct (proj2 Hst' r (Hd r eq_refl)) as (Ecid & Eid & _).
    apply orb_false_elim in Hcid as [Hcid1 _].
    intros r' [->|Hr']%elem_of_cons; [|by eapply IH].
    rewrite Ecid, Eid. split; [by eapply defined_false_own|].
    intros Hnn. rewrite Hnn in Hid. simpl in Hid.
    apply orb_false_elim in Hid as [H _]. by eapply defined_false_own.
Qed.

Lemma add_prepare_Throw items o cids ids w e o' w' :
  add_prepare items o cids ids w = (Throw e, o', w') →
  stable w w' ∧ coll w' = coll w ∧ log w' = log w ∧ saves w' = saves w
  ∧ (e ≠ NoComparator ∧ e ≠ TypeError)
  ∧ (e = InvalidModel →
     None ∈ (prepare_all items o w).1.1).
Proof.
  revert o cids ids w e o' w'.
  induction items as [|it items IH]; intros o cids ids w e o' w'; simpl; [done|].
  destruct (_prepareModel it o w) as [[m o1] w1] eqn:Hp.
  apply _prepareModel_spec in Hp as (Hst & Hc & Hl & Hs & _).
  destruct (prepare_all items o1 w1) as [[ms o3] w3] eqn:Hpa. simpl.
  destruct m as [r|].
  2:{ intros [= <- <- <-]. split_and!; try done. intros _. set_solver. }
  destruct (defined cids _ || defined _ _).
  { intros [= <- <- <-]. split_and!; done. }
  destruct (negb _ && _).
  { intros [= <- <- <-]. split_and!; done. }
  destruct (add_prepare items o1 _ _ w1) as [[[[rs0 c0]|e0] o2] w2] eqn:Hrec; [done|].
  intros [= <- <- <-].
  apply IH in Hrec as (Hst' & Hc' & Hl' & Hs' & [Hne Hne'] & Hin).
  rewrite Hpa in Hin. simpl in Hin.
  split_and!; try congruence.
  - by eapply stable_trans.
  - intros He. set_solver.
Qed.

(** A batch the first loop has let pass does not collide. *)
Lemma accepted_lookup c w cids ids rs :
  accepted c w cids ids rs →
  ∀ r, r ∈ rs →
    cids !! cid (deref w r) = None ∧ _byCid c !! cid (deref w r) = None
    ∧ (_isNullOrUndefined (id (deref w r)) = false →
       ids !! to_key (id (deref w r)) = None
       ∧ _byId c !! to_key (id (deref w r)) = None).
Proof.
  revert cids ids. induction rs as [|r0 rs IH]; intros cids ids; simpl.
  - intros _ r Hr. by apply elem_of_nil in Hr.
  - intros (H1 & H2 & H3 & Hacc) r [->|Hr]%elem_of_cons; [done|].
    destruct (IH _ _ Hacc r Hr) as (G1 & G2 & G3).
    split_and!; [| done |].
    + apply lookup_insert_None in G1. tauto.
    + intros Hnn. destruct (G3 Hnn) as [G4 G5].
      apply lookup_insert_None in G4. tauto.
Qed.

Lemma accepted_distinct c w cids ids rs :
  accepted c w cids ids rs →
  ∀ (i j : nat) r r', (i < j)%nat → rs !! i = Some r → rs !! j = Some r' →
    cid (deref w r) ≠ cid (deref w r')
    ∧ (_isNullOrUndefined (id (deref w r')) = false →
       to_key (id (deref w r)) ≠ to_key (id (deref w r'))).
Proof.
  revert cids ids. induction rs as [|r0 rs IH]; intros cids ids; simpl.
  - intros _ i j r r' _ Hi. by rewrite lookup_nil in Hi.
  - intros (H1 & H2 & H3 & Hacc) i j r r' Hij Hi Hj.
    destruct j as [|j]; [lia|]. simpl in Hj.
    destruct i as [|i]; simpl in Hi.
    + injection Hi as ->.
      apply list_elem_of_lookup_2 in Hj.
      destruct (accepted_lookup _ _ _ _ _ Hacc r' Hj) as (G1 & _ & G3).
      apply lookup_insert_None in G1 as [_ G1]. split; [done|].
      intros Hnn. destruct (G3 Hnn) as [G4 _].
      apply lookup_insert_None in G4. tauto.
    + eapply IH; [done| |done..]. lia.
Qed.

Lemma accepted_not_collides c w rs : accepted c w ∅ ∅ rs → ¬ collides c w rs.
Proof.
  intros Hacc [Hc|[Hc|Hc]].
  - destruct Hc as (i & j & r & r' & Hij & Hi & Hj & E).
    by destruct (accepted_distinct _ _ _ _ _ Hacc i j r r' Hij Hi Hj) as [? _].
  - destruct Hc as (i & j & r & r' & Hij & Hi & Hj & Hnn & E).
    destruct (accepted_distinct _ _ _ _ _ Hacc i j r r' Hij Hi Hj) as [_ G].
    rewrite E in G, Hnn. by apply G.
  - destruct Hc as (r & Hr & Hc).
    destruct (accepted_lookup _ _ _ _ _ Hacc r Hr) as (_ & G2 & G3).
    destruct Hc as [[x Hx]|[Hnn [x Hx]]]; [congruence|].
    destruct (G3 Hnn). congruence.
Qed.

(** *** The second loop of add *)

Lemma index_cids_ext w w' rs m :
  same_identity w w' → index_cids w' rs m = index_cids w rs m.
Proof.
  intros Hs. unfold index_cids. revert m.
  induction rs as [|r rs IH]; intros m; simpl; [done|].
  destruct (Hs r) as (-> & _). apply IH.
Qed.

Lemma index_ids_ext w w' rs m :
  same_identity w w' → index_ids w' rs m = index_ids w rs m.
Proof.
  intros Hs. unfold index_ids. revert m.
  induction rs as [|r rs IH]; intros m; simpl; [done|].
  destruct (Hs r) as (_ & -> & _). apply IH.
Qed.

Lemma add_index_same_identity w r : same_identity w (add_index w r).
Proof.
  unfold add_index. intros r'.
  destruct (same_identity_update r (on "all" this) w (λ _, ltac:(done)) r')
    as (? & ? & ?).
  done.
Qed.

Lemma add_index_fold rs w :
  let w2 := foldl add_index w rs in
  same_identity w w2
  ∧ dom (objs w2) = list_to_set rs ∪ dom (objs w)
  ∧ log w2 = log w ∧ saves w2 = saves w
  ∧ length (coll w2) = length (coll w)
  ∧ models (coll w2) = models (coll w)
  ∧ comparator (coll w2) = comparator (coll w)
  ∧ _byId (coll w2) = index_ids w rs (_byId (coll w))
  ∧ _byCid (coll w2) = index_cids w rs (_byCid (coll w))
  ∧ (∀ r, r ∉ rs → objs w2 !! r = objs w !! r).
Proof.
  revert w. induction rs as [|r rs IH]; intros w; simpl.
  - split_and!; try done. set_solver.
  - pose proof (add_index_same_identity w r) as Hs1.
    destruct (IH (add_index w r))
      as (Hs & Hd & Hl & Hsv & Hlen & Hms & Hcmp & Hid & Hcid & Hfr).
    split_and!.
    + by eapply same_identity_trans.
    + rewrite Hd. unfold add_index. simpl. rewrite dom_insert_L. set_solver.
    + by rewrite Hl.
    + by rewrite Hsv.
    + by rewrite Hlen.
    + by rewrite Hms.
    + by rewrite Hcmp.
    + rewrite Hid, (index_ids_ext w _ rs _ Hs1).
      unfold add_index. simpl. by rewrite deref_update_eq.
    + rewrite Hcid, (index_cids_ext w _ rs _ Hs1).
      unfold add_index. simpl. by rewrite deref_update_eq.
    + intros r' [Hne Hnin]%not_elem_of_cons. rewrite Hfr by done.
      unfold add_index. simpl. by apply lookup_insert_ne.
Qed.

(** *** sort *)

Lemma sort_models_perm f w : sort_models f w ≡ₚ models (coll w).
Proof. destruct f; apply stable_sort_perm. Qed.

Lemma sort_Some o w f :
  comparator (coll w) = Some f →
  ∃ lg,
    sort o w
    = (Return (),
       with_log (log w ++ lg)
         (with_coll (MkCollection (length (coll w)) (sort_models f w)
                       (_byId (coll w)) (_byCid (coll w)) (comparator (coll w))) w))
    ∧ lg = if silent o then [] else [Emitted (OnCollection this) "reset" [ArgC this; ArgO o]].
Proof.
  intros Hf. unfold sort. rewrite Hf.
  destruct (silent o); eexists; (split; [|done]); [|done].
  simpl. rewrite app_nil_r. by destruct w.
Qed.

(** *** The last loop of add *)

Lemma add_announce_fold cids l o w :
  ∃ o' lg,
    add_announce_loop cids l o w = (Return (), o', with_log (log w ++ lg) w)
    ∧ Forall (λ e, ev_name e = "add") lg.
Proof.
  revert o w. induction l as [|i l IH]; intros o w; cbn [add_announce_loop].
  - exists o, []. rewrite app_nil_r. by destruct w.
  - unfold add_announce.
    destruct (models (coll w) !! i) as [r|]; [|apply IH].
    destruct (defined cids _); [|apply IH].
    edestruct (trigger_model_plain r "add") as [n ->]; [done..|].
    edestruct IH as (o' & lg & -> & Hlg).
    eexists o', _. simpl. rewrite <- app_assoc. split; [done|].
    apply Forall_app. split; [|done].
    constructor; [done|]. by apply Forall_replicate.
Qed.

Lemma add_finish cids o w :
  ∃ lg,
    (if silent o then (Return (), w)
     else (Return (),
           (add_announce_loop cids (seq 0 (List.length (models (coll w)))) o w).2))
    = (Return (), with_log (log w ++ lg) w)
    ∧ Forall (λ e, ev_name e = "add") lg
    ∧ (silent o = true → lg = []).
Proof.
  destruct (silent o).
  - exists []. rewrite app_nil_r. split_and!; try done. by destruct w.
  - edestruct (add_announce_fold cids) as (o' & lg & -> & Hlg).
    exists lg. split_and!; done.
Qed.

(** *** add as a whole *)

(** [add] written out: the last loop never throws, so the options it
    leaves can be dropped there. *)
Lemma add_unfold ms o w :
  add ms o w
  = match add_prepare (to_array ms) o ∅ ∅ w with
    | (Throw e, _, w) => (Throw e, w)
    | (Return (rs, cids), o, w) =>
        let w := foldl add_index w rs in
        let c := coll w in
        let i := match at_ o with
                 | None => Z.of_nat (List.length (models c))
                 | Some a => a
                 end in
        let w := with_coll
                   (MkCollection (length c + Z.of_nat (List.length rs))
                      (splice (models c) i 0 rs) (_byId c) (_byCid c) (comparator c)) w in
        let '(res, w) :=
          match comparator (coll w) with
          | Some _ => sort silent_options w
          | None => (Return (), w)
          end in
        match res with
        | Throw e => (Throw e, w)
        | Return _ =>
            if silent o then (Return (), w)
            else
              (Return (),
               (add_announce_loop cids (seq 0 (List.length (models (coll w)))) o w).2)
        end
    end.
Proof.
  unfold add, add_run.
  destruct (add_prepare _ o ∅ ∅ w) as [[[[rs cids]|e0] o1] w1]; [|done].
  cbv zeta. set (w3 := with_coll _ _).
  destruct (comparator (coll w3)) as [f|] eqn:Hf.
  - destruct (sort_Some silent_options w3 f Hf) as (lg & -> & _).
    destruct (silent o1); [done|].
    by edestruct (add_announce_fold cids) as (o' & lg' & -> & _).
  - destruct (silent o1); [done|].
    by edestruct (add_announce_fold cids) as (o' & lg' & -> & _).
Qed.

Lemma add_Throw ms o w e w' :
  add ms o w = (Throw e, w') →
  stable w w' ∧ coll w' = coll w ∧ log w' = log w ∧ saves w' = saves w
  ∧ (e ≠ NoComparator ∧ e ≠ TypeError)
  ∧ (e = InvalidModel →
     None ∈ (prepare_all (to_array ms) o w).1.1).
Proof.
  rewrite add_unfold. cbv zeta.
  destruct (add_prepare _ o ∅ ∅ w) as [[[[rs cids]|e0] o1] w1] eqn:Hp.
  - set (w2 := with_coll _ _).
    destruct (comparator (coll w2)) as [f|] eqn:Hf.
    + destruct (sort_Some silent_options w2 f Hf) as (lg & -> & _).
      by destruct (silent o1).
    + by destruct (silent o1).
  - intros [= <- <-]. by eapply add_prepare_Throw.
Qed.

Lemma add_Return ms o w w' :
  add ms o w = (Return (), w') →
  ∃ rs cids o1 w1 lg,
    add_prepare (to_array ms) o ∅ ∅ w = (Return (rs, cids), o1, w1)
    ∧ objs w' = objs (foldl add_index w1 rs)
    ∧ saves w' = saves w
    ∧ log w' = log w ++ lg
    ∧ Forall (λ e, ev_name e = "add") lg
    ∧ (silent o = true → lg = [])
    ∧ length (coll w') = length (coll w) + Z.of_nat (List.length rs)
    ∧ comparator (coll w') = comparator (coll w)
    ∧ _byId (coll w') = index_ids w1 rs (_byId (coll w))
    ∧ _byCid (coll w') = index_cids w1 rs (_byCid (coll w))
    ∧ models (coll w') ≡ₚ rs ++ models (coll w)
    ∧ (∀ f, comparator (coll w) = Some f →
            ∃ l, l ≡ₚ rs ++ models (coll w)
                 ∧ models (coll w')
                   = sort_models f (with_coll (MkCollection 0 l ∅ ∅ None) w')).
Proof.
  rewrite add_unfold. cbv zeta.
  destruct (add_prepare _ o ∅ ∅ w) as [[[[rs cids]|e0] o1] w1] eqn:Hp; [|done].
  pose proof (add_prepare_Return _ _ _ _ _ _ _ _ _ Hp)
    as (Hst & Hc & Hl & Hs & Hsi & Hat & Hdom & Hlen & Hacc & Hcids & Hpa & Hfr).
  destruct (add_index_fold rs w1)
    as (Hs2 & Hd2 & Hl2 & Hsv2 & Hlen2 & Hms2 & Hcmp2 & Hid2 & Hcid2 & Hfr2).
  set (w2 := foldl add_index w1 rs) in *.
  set (i := match at_ o1 with Some a => a | None => _ end).
  set (w3 := with_coll _ w2).
  assert (models (coll w3) ≡ₚ rs ++ models (coll w)) as Hperm.
  { unfold w3. simpl. rewrite splice_insert_perm. by rewrite Hms2, Hc. }
  destruct (comparator (coll w3)) as [f|] eqn:Hf.
  - destruct (sort_Some silent_options w3 f Hf) as (lg0 & -> & ->).
    change (silent silent_options) with true. cbv iota. rewrite app_nil_r.
    set (w4 := with_log _ _).
    destruct (add_finish cids o1 w4) as (lg & -> & Hlg & Hsil).
    intros [= <-].
    exists rs, cids, o1, w1, lg. simpl.
    split_and!; try done; try congruence;
      try (intros ?; apply Hsil; congruence).
    + etrans; [apply sort_models_perm|exact Hperm].
    + intros f' Hf'. simpl in Hf. rewrite Hcmp2, Hc, Hf' in Hf.
      injection Hf as <-.
      exists (models (coll w3)). split; [exact Hperm|].
      by destruct f'.
  - destruct (add_finish cids o1 w3) as (lg & -> & Hlg & Hsil).
    intros [= <-].
    exists rs, cids, o1, w1, lg. simpl.
    split_and!; try done; try congruence;
      try (intros ?; apply Hsil; congruence).
    intros f' Hf'. simpl in Hf. rewrite Hcmp2, Hc, Hf' in Hf. done.
Qed.

(** *** The tables after the second loop *)

Lemma truthy_not_null v : truthy v = true → _isNullOrUndefined v = false.
Proof. by destruct v. Qed.

Lemma index_cids_lookup w rs m k r :
  (∀ (i j : nat) a b, (i < j)%nat → rs !! i = Some a → rs !! j = Some b →
                      cid (deref w a) ≠ cid (deref w b)) →
  index_cids w rs m !! k = Some r
  ↔ (r ∈ rs ∧ cid (deref w r) = k)
    ∨ (m !! k = Some r ∧ ∀ r', r' ∈ rs → cid (deref w r') ≠ k).
Proof.
  unfold index_cids. revert m.
  induction rs as [|r0 rs IH]; intros m Hd; simpl.
  - split; [intros; right; split; [done|]; intros ? []%elem_of_nil|].
    intros [[[]%elem_of_nil _]|[? _]]; done.
  - assert (∀ r', r' ∈ rs → cid (deref w r0) ≠ cid (deref w r')) as Hr0.
    { intros r' [j Hj]%list_elem_of_lookup_1.
      apply (Hd 0%nat (S j)); [lia|done..]. }
    rewrite IH; [|intros i j a b Hij Ha Hb; apply (Hd (S i) (S j)); [lia|done..]].
    rewrite lookup_insert_Some. split.
    + intros [[Hr E]|[[[E <-]|[Hne Hm]] Hall]].
      * left. split; [by right|done].
      * left. split; [by left|done].
      * right. split; [done|].
        intros r' [->|Hr']%elem_of_cons; [done|by apply Hall].
    + intros [[[->|Hr]%elem_of_cons E]|[Hm Hall]].
      * right. split; [by left|].
        intros r' Hr' E'. apply (Hr0 r' Hr'). congruence.
      * by left.
      * right. split; [|intros r' Hr'; apply Hall; by right].
        right. split; [|done]. apply Hall. by left.
Qed.

Lemma index_ids_lookup w rs m k r :
  (∀ (i j : nat) a b, (i < j)%nat → rs !! i = Some a → rs !! j = Some b →
                      truthy (id (deref w b)) = true →
                      to_key (id (deref w a)) ≠ to_key (id (deref w b))) →
  index_ids w rs m !! k = Some r
  ↔ (r ∈ rs ∧ truthy (id (deref w r)) = true ∧ to_key (id (deref w r)) = k)
    ∨ (m !! k = Some r
       ∧ ∀ r', r' ∈ rs → truthy (id (deref w r')) = true →
               to_key (id (deref w r')) ≠ k).
Proof.
  unfold index_ids. revert m.
  induction rs as [|r0 rs IH]; intros m Hd; simpl.
  - split; [intros; right; split; [done|]; intros ? []%elem_of_nil|].
    intros [[[]%elem_of_nil _]|[? _]]; done.
  - assert (∀ r', r' ∈ rs → truthy (id (deref w r')) = true →
                  to_key (id (deref w r0)) ≠ to_key (id (deref w r'))) as Hr0.
    { intros r' [j Hj]%list_elem_of_lookup_1 Ht.
      apply (Hd 0%nat (S j)); [lia|done..]. }
    rewrite IH;
      [|intros i j a b Hij Ha Hb; apply (Hd (S i) (S j)); [lia|done..]].
    destruct (truthy (id (deref w r0))) eqn:Ht0.
    + rewrite lookup_insert_Some. split.
      * intros [(Hr & Ht & E)|[[[E <-]|[Hne Hm]] Hall]].
        -- left. split_and!; [by right|done..].
        -- left. split_and!; [by left|done..].
        -- right. split; [done|].
           intros r' [->|Hr']%elem_of_cons; [done|by apply Hall].
      * intros [([->|Hr]%elem_of_cons & Ht & E)|[Hm Hall]].
        -- right. split; [by left|].
           intros r' Hr' Ht' E'. apply (Hr0 r' Hr' Ht'). congruence.
        -- by left.
        -- right. split; [|intros r' Hr'; apply Hall; by right].
           right. split; [|done]. apply Hall; [by left|done].
    + split.
      * intros [(Hr & Ht & E)|[Hm Hall]].
        -- left. split_and!; [by right|done..].
        -- right. split; [done|].
           intros r' [->|Hr']%elem_of_cons; [congruence|by apply Hall].
      * intros [([->|Hr]%elem_of_cons & Ht & E)|[Hm Hall]].
        -- congruence.
        -- by left.
        -- right. split; [done|]. intros r' Hr'. apply Hall. by right.
Qed.

(** *** The invariant *)

Lemma inv_stable w w' : stable w w' → coll w' = coll w → inv w → inv w'.
Proof.
  intros [Hd Hst] Hc (Hlen & Hnd & Hmem & Hcid & Hid).
  unfold inv. rewrite Hc. split_and!; try done.
  - intros r Hr. destruct (Hmem r Hr) as [Hdom Hl].
    destruct (Hst r Hdom) as (-> & _). split; [by apply Hd|done].
  - intros k r Hk. destruct (Hcid k r Hk) as [Hr E]. split; [done|].
    destruct (Hmem r Hr) as [Hdom _]. by destruct (Hst r Hdom) as (-> & _).
  - intros k r Hk. destruct (Hid k r Hk) as [Hr E]. split; [done|].
    destruct (Hmem r Hr) as [Hdom _]. by destruct (Hst r Hdom) as (_ & -> & _).
Qed.

Lemma inv_reset w : inv (_reset w).
Proof.
  unfold inv, _reset. simpl. split_and!; try done.
  - constructor.
  - intros r []%elem_of_nil.
Qed.

Lemma accepted_NoDup c w rs : accepted c w ∅ ∅ rs → NoDup rs.
Proof.
  intros Hacc. apply NoDup_alt. intros i j r Hi Hj.
  destruct (Nat.lt_trichotomy i j) as [Hlt|[->|Hlt]]; [|done|].
  - by destruct (accepted_distinct _ _ _ _ _ Hacc i j r r Hlt Hi Hj) as [? _].
  - by destruct (accepted_distinct _ _ _ _ _ Hacc j i r r Hlt Hj Hi) as [? _].
Qed.

Lemma inv_add ms o w : inv w → inv (add ms o w).2.
Proof.
  intros Hinv. destruct (add ms o w) as [[[]|e] w'] eqn:Hadd; simpl.
  2:{ apply add_Throw in Hadd as (Hst & Hc & _). by eapply inv_stable. }
  apply add_Return in Hadd
    as (rs & cids & o1 & w1 & lg & Hp & Hobjs & _ & _ & _ & _
        & Hlen & _ & Hid & Hcid & Hperm & _).
  apply add_prepare_Return in Hp
    as (Hst & Hc & _ & _ & _ & _ & Hdom & _ & Hacc & _ & _ & _).
  pose proof (inv_stable _ _ Hst Hc Hinv) as (Hlen1 & Hnd1 & Hmem1 & Hcid1 & Hid1).
  rewrite Hc in *.
  destruct (add_index_fold rs w1) as (Hs2 & Hd2 & _).
  assert (∀ r, deref w' r = deref (foldl add_index w1 rs) r) as Hderef.
  { intros r. unfold deref. by rewrite Hobjs. }
  assert (∀ r, cid (deref w' r) = cid (deref w1 r)) as Ecid.
  { intros r. rewrite Hderef. apply Hs2. }
  assert (∀ r, id (deref w' r) = id (deref w1 r)) as Eid.
  { intros r. rewrite Hderef. apply Hs2. }
  pose proof (accepted_distinct _ _ _ _ _ Hacc) as Hdist.
  pose proof (accepted_lookup _ _ _ _ _ Hacc) as Hlook.
  assert (∀ (i j : nat) a b, (i < j)%nat → rs !! i = Some a → rs !! j = Some b →
                             cid (deref w1 a) ≠ cid (deref w1 b)) as Hdc.
  { intros i j a b Hij Ha Hb. by destruct (Hdist i j a b Hij Ha Hb). }
  assert (∀ (i j : nat) a b, (i < j)%nat → rs !! i = Some a → rs !! j = Some b →
                             truthy (id (deref w1 b)) = true →
                             to_key (id (deref w1 a)) ≠ to_key (id (deref w1 b)))
    as Hdi.
  { intros i j a b Hij Ha Hb Ht. destruct (Hdist i j a b Hij Ha Hb) as [_ G].
    by apply G, truthy_not_null. }
  unfold inv. split_and!.
  - rewrite Hlen, Hlen1, (Permutation_length Hperm), length_app. lia.
  - rewrite Hperm. apply NoDup_app. split_and!; [by eapply accepted_NoDup| |done].
    intros r Hr Hr'. destruct (Hmem1 r Hr') as [_ G].
    destruct (Hlook r Hr) as (_ & G' & _). congruence.
  - intros r Hr. rewrite Hperm in Hr. rewrite Hobjs, Hd2, Hcid, Ecid.
    apply elem_of_app in Hr as [Hr|Hr].
    + split; [set_solver|]. apply index_cids_lookup; [done|]. by left.
    + destruct (Hmem1 r Hr) as [G1 G2]. split; [set_solver|].
      apply index_cids_lookup; [done|]. right. split; [done|].
      intros r' Hr' E. destruct (Hlook r' Hr') as (_ & G' & _). congruence.
  - intros k r Hk. rewrite Hcid in Hk. rewrite Hperm, Ecid.
    apply index_cids_lookup in Hk; [|done]. destruct Hk as [[Hr E]|[Hk _]].
    + split; [set_solver|done].
    + destruct (Hcid1 k r Hk). split; [set_solver|done].
  - intros k r Hk. rewrite Hid in Hk. rewrite Hperm, Eid.
    apply index_ids_lookup in Hk; [|done]. destruct Hk as [(Hr & _ & E)|[Hk _]].
    + split; [set_solver|done].
    + destruct (Hid1 k r Hk). split; [set_solver|done].
Qed.

(** *** remove *)

Lemma lookup_model_VObj m k r : lookup_model m k = VObj r → m !! k = Some r.
Proof.
  unfold lookup_model. destruct (m !! k); [congruence|]. by destruct (inherited k).
Qed.

Lemma lookup_model_falsy m k :
  truthy (lookup_model m k) = false → lookup_model m k = VUndefined.
Proof.
  unfold lookup_model. destruct (m !! k); [done|]. by destruct (inherited k).
Qed.

Lemma lookup_model_cases m k :
  (∃ r, m !! k = Some r ∧ lookup_model m k = VObj r)
  ∨ (m !! k = None ∧ inherited k = true ∧ lookup_model m k = VNative k)
  ∨ (m !! k = None ∧ inherited k = false ∧ lookup_model m k = VUndefined).
Proof.
  unfold lookup_model. destruct (m !! k) as [r|]; [eauto|].
  destruct (inherited k); eauto.
Qed.

(** What [remove] looks up is a member, a built-in that the tables
    inherit, or a falsy value. *)
Lemma found_or_falsy x w :
  (∃ r, js_or (getByCid x w) (get x w) = VObj r)
  ∨ (∃ k, js_or (getByCid x w) (get x w) = VNative k ∧ inherited k = true)
  ∨ truthy (js_or (getByCid x w) (get x w)) = false.
Proof.
  unfold js_or, getByCid, get.
  destruct (truthy x) eqn:Hx; [|rewrite Hx; by right; right].
  destruct (lookup_model_cases (_byCid (coll w)) (to_key (js_or (prop_cid w x) x)))
    as [(r & _ & ->)|[(_ & Hk & ->)|(_ & _ & ->)]]; simpl; [eauto..|].
  destruct (lookup_model_cases (_byId (coll w)) (to_key (js_or (prop_id w x) x)))
    as [(r & _ & ->)|[(_ & Hk & ->)|(_ & _ & ->)]]; simpl; eauto.
Qed.

Lemma found_indexed x w r :
  js_or (getByCid x w) (get x w) = VObj r →
  (∃ k, _byCid (coll w) !! k = Some r) ∨ (∃ k, _byId (coll w) !! k = Some r).
Proof.
  unfold js_or, getByCid, get.
  destruct (truthy x) eqn:Hx; [|rewrite Hx; intros ->; done].
  destruct (truthy (lookup_model (_byCid (coll w)) _)) eqn:Ht.
  - intros ?%lookup_model_VObj. eauto.
  - intros ?%lookup_model_VObj. eauto.
Qed.

Lemma remove_step_skip rm o w x :
  truthy (js_or (getByCid x w) (get x w)) = false →
  remove_step rm o w x = (Return (), o, w).
Proof.
  intros Hf. unfold remove_step.
  destruct (js_or (getByCid x w) (get x w)); try done; by rewrite Hf.
Qed.

Lemma remove_step_found rm o w x r :
  js_or (getByCid x w) (get x w) = VObj r →
  let c := coll w in
  let i := indexOf r (models c) in
  ∃ n : nat,
    remove_step rm o w x
    = (Return (),
       if silent o then o else set_index i o,
       _removeReference r
         (with_log
            (log w ++
             (if silent o then []
              else Emitted (OnModel r) "remove"
                     [ArgV (VObj r); ArgC this; ArgO (set_index i o)]
                   :: replicate n
                        (Emitted (OnCollection this) "remove"
                           [ArgV (VObj r); ArgC this; ArgO (set_index i o)])))
            (with_coll
               (MkCollection (length c - 1) (splice (models c) i 1 [])
                  (delete (to_key (id (deref w r))) (_byId c))
                  (delete (cid (deref w r)) (_byCid c)) (comparator c)) w))).
Proof.
  intros Hf c i. unfold remove_step. rewrite Hf. fold c. fold i.
  destruct (silent o).
  - exists 0%nat. by rewrite app_nil_r.
  - edestruct (trigger_model_with_plain rm r "remove") as [n ->]; [done..|].
    by exists n.
Qed.

(** A built-in in the place of a model: the round deletes what is under
    ["undefined"] in both tables, drops the last model and one from
    [length], and throws. *)
Lemma remove_step_native rm o w x k :
  js_or (getByCid x w) (get x w) = VNative k →
  let c := coll w in
  remove_step rm o w x
  = (Throw TypeError,
     if silent o then o else set_index (-1) o,
     with_coll
       (MkCollection (length c - 1) (splice (models c) (-1) 1 [])
          (delete "undefined" (_byId c)) (delete "undefined" (_byCid c))
          (comparator c)) w).
Proof. intros Hf c. unfold remove_step. by rewrite Hf. Qed.

Lemma remove_step_Return rm o w x :
  (remove_step rm o w x).1.1 = Return () →
  (∃ r, js_or (getByCid x w) (get x w) = VObj r)
  ∨ truthy (js_or (getByCid x w) (get x w)) = false.
Proof.
  destruct (found_or_falsy x w) as [Hf|[(k & Hf & _)|Hf]]; [by left| |by right].
  by rewrite (remove_step_native rm o w x k Hf).
Qed.

Lemma remove_eq xs o w :
  remove xs o w
  = ((remove_with remove_nested xs o w).1.1, (remove_with remove_nested xs o w).2).
Proof. unfold remove. by destruct (remove_with _ xs o w) as [[??]?]. Qed.

Lemma inv_ext w w' : objs w' = objs w → coll w' = coll w → inv w → inv w'.
Proof.
  intros Ho Hc. apply inv_stable; [|done].
  split; [by rewrite Ho|]. intros r _. unfold deref. by rewrite Ho.
Qed.

Lemma inv_removeReference r w : inv w → inv (_removeReference r w).
Proof.
  apply inv_stable; [|done]. apply stable_update.
  intros o. by destruct (decide _).
Qed.

(** Taking the found member out of the array and the tables. *)
Lemma inv_take_out w r :
  inv w → r ∈ models (coll w) →
  let c := coll w in
  inv (with_coll
         (MkCollection (length c - 1) (splice (models c) (indexOf r (models c)) 1 [])
            (delete (to_key (id (deref w r))) (_byId c))
            (delete (cid (deref w r)) (_byCid c)) (comparator c)) w).
Proof.
  intros (Hlen & Hnd & Hmem & Hcid & Hid) Hr c. subst c.
  destruct (indexOf_elem r _ Hr) as (n & -> & Hn & _).
  rewrite (splice_delete _ _ _ Hn).
  assert (∀ y, y ∈ delete n (models (coll w)) ↔ y ∈ models (coll w) ∧ y ≠ r)
    as Hdel.
  { intros y. by apply elem_of_delete_NoDup. }
  unfold inv. simpl. change (deref (with_coll _ w)) with (deref w).
  split_and!.
  - rewrite length_delete by eauto. apply lookup_lt_Some in Hn. lia.
  - eapply sublist_NoDup; [exact Hnd|apply sublist_delete].
  - intros y [Hy Hne]%Hdel. destruct (Hmem y Hy) as [G1 G2]. split; [done|].
    rewrite lookup_delete_ne; [done|].
    intros E. destruct (Hmem r Hr) as [_ G3]. rewrite E in G3. congruence.
  - intros k y [Hk Hy]%lookup_delete_Some. destruct (Hcid k y Hy) as [G1 G2].
    split; [|done]. apply Hdel. split; [done|]. intros ->. congruence.
  - intros k y [Hk Hy]%lookup_delete_Some. destruct (Hid k y Hy) as [G1 G2].
    split; [|done]. apply Hdel. split; [done|]. intros ->. congruence.
Qed.

Lemma inv_found x w r :
  inv w → js_or (getByCid x w) (get x w) = VObj r → r ∈ models (coll w).
Proof.
  intros (_ & _ & _ & Hcid & Hid) [[k Hk]|[k Hk]]%found_indexed.
  - by destruct (Hcid k r Hk).
  - by destruct (Hid k r Hk).
Qed.

Lemma inv_remove_step rm o w x :
  inv w → (remove_step rm o w x).1.1 = Return () → inv (remove_step rm o w x).2.
Proof.
  intros Hinv [[r Hf]|Hf]%remove_step_Return.
  - destruct (remove_step_found rm o w x r Hf) as [n ->]. simpl.
    apply inv_removeReference.
    eapply inv_ext; [| |by apply (inv_take_out w r), (inv_found x)]; done.
  - by rewrite remove_step_skip.
Qed.

Lemma inv_remove_with rm xs o w :
  inv w → (remove_with rm xs o w).1.1 = Return () → inv (remove_with rm xs o w).2.
Proof.
  unfold remove_with. generalize (to_array xs) as l. intros l. revert o w.
  induction l as [|x l IH]; intros o w Hinv; cbn [remove_loop]; [done|].
  pose proof (inv_remove_step rm o w x Hinv) as Hinv'.
  destruct (remove_step rm o w x) as [[[[]|e] o'] w']; [|done].
  intros Hret. apply IH; [by apply Hinv'|done].
Qed.

Lemma inv_remove xs o w :
  inv w → (remove xs o w).1 = Return () → inv (remove xs o w).2.
Proof. rewrite remove_eq. apply inv_remove_with. Qed.

(** *** sort and reset *)

Lemma inv_sort o w : inv w → inv (sort o w).2.
Proof.
  intros Hinv. destruct (comparator (coll w)) as [f|] eqn:Hf.
  2:{ unfold sort. by rewrite Hf. }
  destruct (sort_Some o w f Hf) as (lg & -> & _). simpl.
  destruct Hinv as (Hlen & Hnd & Hmem & Hcid & Hid).
  pose proof (sort_models_perm f w) as Hperm.
  unfold inv. simpl. change (deref (with_log _ _)) with (deref w).
  split_and!.
  - by rewrite (Permutation_length Hperm).
  - by rewrite Hperm.
  - intros r Hr. rewrite Hperm in Hr. by apply Hmem.
  - intros k r Hk. rewrite Hperm. by apply Hcid.
  - intros k r Hk. rewrite Hperm. by apply Hid.
Qed.

Lemma inv_reset_call ms o w : inv (reset ms o w).2.
Proof.
  unfold reset.
  set (w1 := _reset _).
  pose proof (inv_add (default (Many []) ms) silent_options w1 (inv_reset _)) as Hinv.
  destruct (add _ silent_options w1) as [[[]|e] w2]; [|done].
  simpl in Hinv. destruct (silent o); [done|].
  by eapply inv_ext.
Qed.

Lemma inv_Parse_Collection ms cmp h lg : inv (Parse_Collection ms cmp h lg).2.
Proof.
  unfold Parse_Collection. destruct ms; [apply inv_reset_call|apply inv_reset].
Qed.

Lemma reachable_inv w : reachable w → inv w.
Proof.
  induction 1.
  - apply inv_Parse_Collection.
  - by apply inv_add.
  - by apply inv_remove.
  - apply inv_reset_call.
  - by apply inv_sort.
Qed.

(** The answer of [add] is that of its first loop. *)
Lemma add_outcome ms o w :
  (add ms o w).1
  = match (add_prepare (to_array ms) o ∅ ∅ w).1.1 with
    | Return _ => Return ()
    | Throw e => Throw e
    end.
Proof.
  rewrite add_unfold. cbv zeta.
  destruct (add_prepare _ o ∅ ∅ w) as [[[[rs cids]|e0] o1] w1] eqn:Hp; [|done].
  set (w2 := with_coll _ _).
  destruct (comparator (coll w2)) as [f|] eqn:Hf.
  - destruct (sort_Some silent_options w2 f Hf) as (lg & -> & _).
    destruct (silent o1); reflexivity.
  - destruct (silent o1); reflexivity.
Qed.

(** *** Models without a server id *)

Lemma _prepareModel_lacks_id it0 o w m o1 w1 :
  lacks_id w it0 →
  _prepareModel it0 o w = (m, o1, w1) →
  (∀ it, lacks_id w it → lacks_id w1 it)
  ∧ (∀ r, m = Some r → _isNullOrUndefined (id (deref w1 r)) = true).
Proof.
  destruct it0 as [attrs|r0]; simpl; intros Hl.
  - intros H.
    assert (w1 = with_objs (<[fresh (dom (objs w)) :=
                               ModelConstructor attrs (set_opt_collection this o) (objs w)]>
                              (objs w)) w
            ∧ ∀ r, m = Some r → r = fresh (dom (objs w))) as [-> Hm].
    { destruct (_validate _ _); simplify_eq; split; try done; congruence. }
    split.
    + intros [a|r]; simpl; [done|]. unfold deref. simpl.
      destruct (decide (fresh (dom (objs w)) = r)) as [<-|Hne].
      * intros _. rewrite lookup_total_insert_eq. apply Hl.
      * by rewrite lookup_total_insert_ne.
    + intros r ->%Hm. unfold deref. simpl. rewrite lookup_total_insert_eq. apply Hl.
  - destruct (collection (deref w r0)) eqn:Hc; intros H; simplify_eq.
    + split; [done|]. by intros r [= <-].
    + split.
      * intros [a|r]; simpl; [done|].
        destruct (decide (r0 = r)) as [<-|Hne].
        -- by rewrite deref_update_eq.
        -- by rewrite deref_update_ne.
      * intros r [= <-]. by rewrite deref_update_eq.
Qed.

Lemma add_prepare_lacks_id items o cids ids w :
  Forall (lacks_id w) items →
  (add_prepare items o cids ids w).1.1 ≠ Throw DuplicateId.
Proof.
  revert o cids ids w.
  induction items as [|it items IH]; intros o cids ids w Hall; simpl; [done|].
  apply Forall_cons in Hall as [Hit Hall].
  destruct (_prepareModel it o w) as [[m o1] w1] eqn:Hp.
  destruct (_prepareModel_lacks_id _ _ _ _ _ _ Hit Hp) as [Hrest Hm].
  destruct m as [r|]; [|done].
  destruct (defined cids _ || defined _ _); [done|].
  rewrite (Hm r eq_refl). simpl.
  assert (Forall (lacks_id w1) items) as Hall1.
  { eapply Forall_impl; [exact Hall|]. exact Hrest. }
  specialize (IH o1 (<[cid (deref w1 r) := r]> cids)
                (<[to_key (id (deref w1 r)) := r]> ids) w1 Hall1).
  by destruct (add_prepare items o1 _ _ w1) as [[[[rs0 c0]|e] o2] w2].
Qed.

(** *** What a successful add leaves in the tables *)

Lemma add_Return_indexed ms o w w' :
  add ms o w = (Return (), w') →
  ∃ rs,
    List.length rs = List.length (to_array ms)
    ∧ models (coll w') ≡ₚ rs ++ models (coll w)
    ∧ (prepare_all (to_array ms) o w).1.1 = Some <$> rs
    ∧ (∀ r, r ∈ dom (objs w) → r ∉ rs → objs w' !! r = objs w !! r)
    ∧ ∀ r, r ∈ rs →
        _byCid (coll w') !! cid (deref w' r) = Some r
        ∧ (truthy (id (deref w' r)) = true →
           _byId (coll w') !! to_key (id (deref w' r)) = Some r).
Proof.
  intros Hadd.
  apply add_Return in Hadd
    as (rs & cids & o1 & w1 & lg & Hp & Hobjs & _ & _ & _ & _
        & _ & _ & Hid & Hcid & Hperm & _).
  apply add_prepare_Return in Hp
    as (Hst & Hc & _ & _ & _ & _ & Hdom & Hlen & Hacc & _ & Hpa & Hfr).
  destruct (add_index_fold rs w1) as (Hs2 & _ & _ & _ & _ & _ & _ & _ & _ & Hfr2).
  assert (∀ r, deref w' r = deref (foldl add_index w1 rs) r) as Hderef.
  { intros r. unfold deref. by rewrite Hobjs. }
  pose proof (accepted_distinct _ _ _ _ _ Hacc) as Hdist.
  exists rs. split_and!; [done..| | |].
  - by rewrite Hpa.
  - intros r Hr Hnin. rewrite Hobjs, Hfr2 by done. by apply Hfr.
  - intros r Hr. rewrite Hderef.
    destruct (Hs2 r) as (-> & -> & _). rewrite Hcid, Hid. split.
    + apply index_cids_lookup; [|by left].
      intros i j a b Hij Ha Hb. by destruct (Hdist i j a b Hij Ha Hb).
    + intros Ht. apply index_ids_lookup; [|by left].
      intros i j a b Hij Ha Hb Htb. destruct (Hdist i j a b Hij Ha Hb) as [_ G].
      by apply G, truthy_not_null.
Qed.

Lemma add_silent_log ms o w : silent o = true → log (add ms o w).2 = log w.
Proof.
  intros Hs. destruct (add ms o w) as [[[]|e] w'] eqn:Hadd; simpl.
  - apply add_Return in Hadd as (rs & cids & o1 & w1 & lg & _ & _ & _ & -> & _ & Hl & _).
    rewrite (Hl Hs). apply app_nil_r.
  - by apply add_Throw in Hadd as (_ & _ & -> & _).
Qed.

(** *** reset *)

Lemma detached_removeReference r w : detached (_removeReference r w) r.
Proof.
  unfold detached, _removeReference. rewrite deref_update_eq. split.
  - simpl. by destruct (decide _).
  - simpl. intros [Hne _]%list_elem_of_filter. by apply Hne.
Qed.

Lemma detached_removeReference_other r r' w :
  detached w r → detached (_removeReference r' w) r.
Proof.
  intros [Hc Hcb]. destruct (decide (r' = r)) as [->|Hne].
  - apply detached_removeReference.
  - unfold detached, _removeReference. by rewrite deref_update_ne.
Qed.

Lemma detach_fold l w :
  let w0 := foldl (λ w r, _removeReference r w) w l in
  coll w0 = coll w ∧ log w0 = log w ∧ saves w0 = saves w
  ∧ list_to_set l ∪ dom (objs w) = dom (objs w0)
  ∧ (∀ r, detached w r → detached w0 r)
  ∧ (∀ r, r ∈ l → detached w0 r).
Proof.
  revert w. induction l as [|r0 l IH]; intros w; simpl.
  - split_and!; try done; [set_solver|]. intros r []%elem_of_nil.
  - destruct (IH (_removeReference r0 w)) as (Hc & Hl & Hs & Hd & Hpres & Hall).
    split_and!; try done.
    + rewrite <- Hd. unfold _removeReference. rewrite dom_update_object. set_solver.
    + intros r Hr. by apply Hpres, detached_removeReference_other.
    + intros r [->|Hr]%elem_of_cons; [|by apply Hall].
      apply Hpres, detached_removeReference.
Qed.

Lemma reset_Return ms o w w' :
  reset ms o w = (Return (), w') →
  ∃ w'',
    add (default (Many []) ms) silent_options (_reset (detach_all w)) = (Return (), w'')
    ∧ w' = if silent o then w'' else trigger "reset" [ArgC this; ArgO o] w''.
Proof.
  unfold reset.
  destruct (add _ silent_options _) as [[[]|e] w''] eqn:Hadd; [|done].
  destruct (silent o); intros [= <-]; eauto.
Qed.

Lemma reset_log ms o w :
  log (reset ms o w).2
  = log w ++ match (reset ms o w).1 with
             | Return _ =>
                 if silent o then []
                 else [Emitted (OnCollection this) "reset" [ArgC this; ArgO o]]
             | Throw _ => []
             end.
Proof.
  unfold reset.
  pose proof (add_silent_log (default (Many []) ms) silent_options
                (_reset (detach_all w)) eq_refl) as Hl.
  destruct (add _ silent_options _) as [[[]|e] w''] eqn:Hadd; simpl in *.
  - destruct (detach_fold (models (coll w)) w) as (_ & Hl0 & _).
    destruct (silent o); simpl; rewrite Hl; unfold detach_all; rewrite Hl0;
      [by rewrite app_nil_r|done].
  - destruct (detach_fold (models (coll w)) w) as (_ & Hl0 & _).
    rewrite Hl. unfold detach_all. simpl. rewrite Hl0. by rewrite app_nil_r.
Qed.

(** *** Sorting *)




(** *** Batches the first loop lets pass *)

Lemma prepare_all_spec items o w ps o1 w1 :
  prepare_all items o w = (ps, o1, w1) →
  stable w w1 ∧ coll w1 = coll w
  ∧ (∀ it, Forall (lacks_id w) items → lacks_id w it → lacks_id w1 it)
  ∧ (Forall (lacks_id w) items →
     ∀ r, Some r ∈ ps → _isNullOrUndefined (id (deref w1 r)) = true).
Proof.
  revert o w ps o1 w1.
  induction items as [|it0 items IH]; intros o w ps o1 w1; simpl.
  - intros [= <- <- <-]. split_and!; try done. intros _ r []%elem_of_nil.
  - destruct (_prepareModel it0 o w) as [[m o'] w'] eqn:Hp.
    destruct (prepare_all items o' w') as [[ms o''] w''] eqn:Hpa.
    intros [= <- <- <-].
    pose proof (_prepareModel_spec _ _ _ _ _ _ Hp)
      as (Hst & Hc & _ & _ & _ & _ & _ & _ & Hd & _).
    destruct (IH _ _ _ _ _ Hpa) as (Hst' & Hc' & Hl' & Hn').
    split_and!.
    + by eapply stable_trans.
    + congruence.
    + intros it [Hit0 Hall]%Forall_cons Hit.
      destruct (_prepareModel_lacks_id _ _ _ _ _ _ Hit0 Hp) as [Hrest _].
      apply Hl'; [|by apply Hrest].
      eapply Forall_impl; [exact Hall|exact Hrest].
    + intros [Hit0 Hall]%Forall_cons r [E|Hr]%elem_of_cons.
      * destruct (_prepareModel_lacks_id _ _ _ _ _ _ Hit0 Hp) as [_ Hm].
        destruct (proj2 Hst' r (Hd r (eq_sym E))) as (_ & -> & _).
        by apply Hm.
      * destruct (_prepareModel_lacks_id _ _ _ _ _ _ Hit0 Hp) as [Hrest _].
        apply Hn'; [|done]. eapply Forall_impl; [exact Hall|exact Hrest].
Qed.

Lemma add_prepare_accepts items o cids ids w rs o1 w1 :
  prepare_all items o w = (Some <$> rs, o1, w1) →
  accepted (coll w) w1 cids ids rs →
  own_names w1 rs →
  ∃ cids', add_prepare items o cids ids w = (Return (rs, cids'), o1, w1).
Proof.
  revert o cids ids w rs o1 w1.
  induction items as [|it0 items IH]; intros o cids ids w rs o1 w1; simpl.
  - destruct rs; [|done]. intros [= <- <-] _ _. eauto.
  - destruct (_prepareModel it0 o w) as [[m o'] w'] eqn:Hp.
    destruct (prepare_all items o' w') as [[ms o''] w''] eqn:Hpa.
    destruct rs as [|r rs]; [done|].
    intros [= -> -> -> ->]. simpl. intros (H1 & H2 & H3 & Hacc) Hown.
    apply _prepareModel_spec in Hp as (_ & Hc & _ & _ & _ & _ & _ & _ & Hd & _).
    destruct (prepare_all_spec _ _ _ _ _ _ Hpa) as (Hst' & _).
    destruct (proj2 Hst' r (Hd r eq_refl)) as (Ecid & Eid & _).
    destruct (Hown r) as [I1 I2]; [by left|].
    assert (own_names w1 rs) as Hown' by (intros r' Hr'; apply Hown; by right).
    rewrite Ecid in H1, H2, Hacc, I1. rewrite Eid in H3, Hacc, I2. rewrite Hc.
    rewrite (proj2 (defined_false_iff cids _) (conj H1 I1)).
    rewrite (proj2 (defined_false_iff (_byCid (coll w)) _) (conj H2 I1)). simpl.
    destruct (_isNullOrUndefined (id (deref w' r))) eqn:Hnn; simpl.
    + rewrite <- Hc in Hacc.
      destruct (IH _ _ _ _ _ _ _ Hpa Hacc Hown') as [cids' ->]. eauto.
    + destruct (H3 eq_refl) as [H4 H5].
      rewrite (proj2 (defined_false_iff ids _) (conj H4 (I2 eq_refl))).
      rewrite (proj2 (defined_false_iff (_byId (coll w)) _) (conj H5 (I2 eq_refl))).
      simpl. rewrite <- Hc in Hacc.
      destruct (IH _ _ _ _ _ _ _ Hpa Hacc Hown') as [cids' ->]. eauto.
Qed.

Lemma accepted_without_ids c w cids ids rs :
  (∀ r, r ∈ rs → _isNullOrUndefined (id (deref w r)) = true) →
  NoDup ((λ r, cid (deref w r)) <$> rs) →
  (∀ r, r ∈ rs → cids !! cid (deref w r) = None ∧ _byCid c !! cid (deref w r) = None) →
  accepted c w cids ids rs.
Proof.
  revert cids ids. induction rs as [|r rs IH]; intros cids ids Hnull Hnd Hfree; simpl.
  - done.
  - rewrite fmap_cons in Hnd. apply NoDup_cons in Hnd as [Hnin Hnd].
    destruct (Hfree r) as [G1 G2]; [by left|].
    split_and!; [done..| |].
    + intros Hnn. rewrite Hnull in Hnn; [done|by left].
    + apply IH; [intros r' Hr'; apply Hnull; by right|done|].
      intros r' Hr'. destruct (Hfree r') as [G3 G4]; [by right|].
      split; [|done]. rewrite lookup_insert_ne; [done|].
      intros E. apply Hnin. rewrite E.
      by apply (list_elem_of_fmap_2 (λ r, cid (deref w r))).
Qed.

(** ** The claims *)

(** X22.  As long as no [remove] has thrown, the cached [length] is the
    number of elements of [models]: after the constructor and after
    every [add], [reset] and [sort], whether it returned or threw, and
    after every [remove] that returned. *)
Theorem length_matches_models w :
  reachable w → length (coll w) = Z.of_nat (List.length (models (coll w))).
Proof. intros Hr. by destruct (reachable_inv w Hr) as (? & _). Qed.

(** C9.  On a collection with no comparator [sort] throws ("Cannot sort a
    set without a comparator") and the collection, like everything else,
    is left as it was. *)
Theorem sort_without_comparator o w :
  comparator (coll w) = None → sort o w = (Throw NoComparator, w).
Proof. intros Hc. unfold sort. by rewrite Hc. Qed.

(** C5.  A batch whose models all lack a server id (the id is null or
    undefined) never makes [add] throw the duplicate-id error, whatever
    the collection already holds: the check is guarded by
    [!Parse._isNullOrUndefined(id)].  When moreover the inputs are valid
    and their client ids are pairwise distinct and [_byCid] answers to
    none of them ([this._byCid[cid]] is undefined), [add] returns:
    several unsaved models go in together. *)
Theorem add_without_ids_no_duplicate_id ms o w :
  Forall (lacks_id w) (to_array ms) →
  (add ms o w).1 ≠ Throw DuplicateId
  ∧ ∀ rs o1 w1,
      prepare_all (to_array ms) o w = (Some <$> rs, o1, w1) →
      NoDup ((λ r, cid (deref w1 r)) <$> rs) →
      (∀ r, r ∈ rs →
         lookup_model (_byCid (coll w)) (cid (deref w1 r)) = VUndefined) →
      (add ms o w).1 = Return ().
Proof.
  intros Hall. rewrite add_outcome. split.
  - pose proof (add_prepare_lacks_id (to_array ms) o ∅ ∅ w Hall) as Hne.
    destruct ((add_prepare (to_array ms) o ∅ ∅ w).1.1); [done|congruence].
  - intros rs o1 w1 Hpa Hnd Hfree.
    destruct (prepare_all_spec _ _ _ _ _ _ Hpa) as (_ & _ & _ & Hnull).
    assert (∀ r, r ∈ rs → _isNullOrUndefined (id (deref w1 r)) = true) as Hnull'.
    { intros r Hr. apply (Hnull Hall). by apply list_elem_of_fmap_2. }
    destruct (add_prepare_accepts (to_array ms) o ∅ ∅ w rs o1 w1 Hpa) as [cids' ->];
      [| |done].
    + apply accepted_without_ids; [done..|].
      intros r Hr. split; [apply lookup_empty|].
      by apply (lookup_model_undefined (_byCid (coll w))), Hfree.
    + intros r Hr. split.
      * by apply (lookup_model_undefined (_byCid (coll w))), Hfree.
      * intros Hnn. by rewrite (Hnull' r Hr) in Hnn.
Qed.

(** C1, amended.  When the models of a batch collide (two of them share
    a client id, or share a server id that is not null or undefined, or
    one of them meets an entry of [_byCid] or [_byId]), [add] throws and
    the fields of the collection ([models], [length], [_byId], [_byCid])
    are what they were: nothing is inserted.  The error is one of the two
    duplicate errors provided every input is, or becomes, a valid
    model. *)
Theorem add_rejects_collisions ms o w ps o1 w1 :
  prepare_all (to_array ms) o w = (ps, o1, w1) →
  collides (coll w) w1 (omap (λ p, p) ps) →
  ∃ e w', add ms o w = (Throw e, w')
          ∧ coll w' = coll w
          ∧ (Forall is_Some ps → e = DuplicateCid ∨ e = DuplicateId).
Proof.
  intros Hpa Hcol.
  destruct (add ms o w) as [[[]|e] w'] eqn:Hadd.
  - exfalso.
    apply add_Return in Hadd as (rs & cids & o2 & w2 & lg & Hp & _).
    apply add_prepare_Return in Hp
      as (_ & _ & _ & _ & _ & _ & _ & _ & Hacc & _ & Hpa' & _).
    rewrite Hpa in Hpa'. injection Hpa' as -> -> ->.
    rewrite omap_id_Some in Hcol.
    by eapply accepted_not_collides.
  - apply add_Throw in Hadd as (_ & Hc & _ & _ & [Hne Hne'] & Hinv).
    exists e, w'. split_and!; [done..|].
    intros Hsome. destruct e; try done; auto.
    specialize (Hinv eq_refl). rewrite Hpa in Hinv. simpl in Hinv.
    rewrite Forall_forall in Hsome. by destruct (Hsome None Hinv).
Qed.


Lemma deref_eq w w' r : objs w' !! r = objs w !! r → deref w' r = deref w r.
Proof. intros H. unfold deref. by rewrite !lookup_total_alt, H. Qed.

Lemma get_member w r :
  truthy (id (deref w r)) = true →
  _byId (coll w) !! to_key (id (deref w r)) = Some r →
  get (VObj r) w = VObj r
  ∧ ((∀ q, id (deref w r) ≠ VObj q) → get (id (deref w r)) w = VObj r).
Proof.
  intros Ht Hk. split.
  - unfold get, js_or, lookup_model. simpl. by rewrite Ht, Hk.
  - intros Hno. unfold get, js_or, lookup_model. rewrite Ht.
    assert (prop_id w (id (deref w r)) = VUndefined) as ->.
    { destruct (id (deref w r)) eqn:E; try done. by destruct (Hno r0). }
    simpl. by rewrite Hk.
Qed.

(** C4.  A [reset] that returns has detached every member it found
    (no back reference to the collection, no subscription left), and a
    former member that is not among the new ones stays detached; the
    fields are rebuilt from the new items alone; what listeners are told
    is one ['reset'] event on the collection, or nothing when silenced,
    and no ['add'] event; and [get] finds a new member by its server
    id, given as the model or as the id itself. *)
Theorem reset_replaces_members ms o w w' :
  reset ms o w = (Return (), w') →
  let items := to_array (default (Many []) ms) in
  (∀ r, r ∈ models (coll w) → detached (detach_all w) r)
  ∧ (∀ r, r ∈ models (coll w) → r ∉ models (coll w') → detached w' r)
  ∧ inv w'
  ∧ length (coll w') = Z.of_nat (List.length items)
  ∧ (∃ rs, (prepare_all items silent_options (_reset (detach_all w))).1.1
           = Some <$> rs
           ∧ models (coll w') ≡ₚ rs)
  ∧ log w' = log w ++ (if silent o then []
                       else [Emitted (OnCollection this) "reset" [ArgC this; ArgO o]])
  ∧ (∀ r, r ∈ models (coll w') →
       _byCid (coll w') !! cid (deref w' r) = Some r
       ∧ (truthy (id (deref w' r)) = true →
          get (VObj r) w' = VObj r
          ∧ ((∀ q, id (deref w' r) ≠ VObj q) →
             get (id (deref w' r)) w' = VObj r))).
Proof.
  intros Hreset items.
  pose proof (inv_reset_call ms o w) as Hinv.
  pose proof (reset_log ms o w) as Hlog.
  rewrite Hreset in Hinv, Hlog. simpl in Hinv, Hlog.
  apply reset_Return in Hreset as (w'' & Hadd & Hw').
  assert (objs w' = objs w'' ∧ coll w' = coll w'') as [Ho Hc].
  { rewrite Hw'. by destruct (silent o). }
  destruct (detach_fold (models (coll w)) w) as (_ & _ & _ & Hdom & _ & Hdet).
  apply add_Return_indexed in Hadd as (rs & Hlen & Hperm & Hpa & Hfr & Hidx).
  simpl in Hperm. rewrite app_nil_r in Hperm.
  split_and!; try done.
  - intros r Hr Hnin. rewrite Hc, Hperm in Hnin.
    assert (deref w' r = deref (detach_all w) r) as E.
    { apply deref_eq. rewrite Ho. apply Hfr; [|done].
      simpl. unfold detach_all. rewrite <- Hdom. set_solver. }
    unfold detached. rewrite E. by apply Hdet.
  - destruct Hinv as (-> & _). rewrite Hc, Hperm. unfold items. by rewrite Hlen.
  - exists rs. by rewrite Hc.
  - intros r Hr. rewrite Hc, Hperm in Hr. destruct (Hidx r Hr) as [G1 G2].
    assert (deref w' r = deref w'' r) as E by (by apply deref_eq; rewrite Ho).
    rewrite Hc, E. split; [done|]. intros Ht.
    pose proof (get_member w'' r Ht (G2 Ht)) as [G3 G4].
    assert (∀ x, get x w' = get x w'') as Hget.
    { intros x. unfold get, prop_id, deref. rewrite Hc.
      destruct x; try done. by rewrite Ho. }
    rewrite !Hget. done.
Qed.

(** C10.  Constructing a collection with an initial list of models is a
    silent [reset] on the empty collection: whatever the list, and
    whether the construction returns or throws, no event at all is
    emitted; when it returns, [length], [models], [_byCid] and [_byId]
    hold exactly the new models. *)
Theorem constructor_resets_silently ms cmp heap lg :
  let w0 := World heap (MkCollection 0 [] ∅ ∅ cmp) lg [] in
  Parse_Collection ms cmp heap lg
  = match ms with
    | Some items => reset (Some items) silent_options w0
    | None => (Return (), w0)
    end
  ∧ log (Parse_Collection ms cmp heap lg).2 = lg
  ∧ ∀ items w',
      ms = Some items →
      Parse_Collection ms cmp heap lg = (Return (), w') →
      length (coll w') = Z.of_nat (List.length (to_array items))
      ∧ List.length (models (coll w')) = List.length (to_array items)
      ∧ (∃ rs, (prepare_all (to_array items) silent_options w0).1.1 = Some <$> rs
               ∧ models (coll w') ≡ₚ rs)
      ∧ (∀ k r, _byCid (coll w') !! k = Some r ∨ _byId (coll w') !! k = Some r →
                r ∈ models (coll w'))
      ∧ ∀ r, r ∈ models (coll w') →
          _byCid (coll w') !! cid (deref w' r) = Some r
          ∧ (truthy (id (deref w' r)) = true →
             _byId (coll w') !! to_key (id (deref w' r)) = Some r).
Proof.
  intros w0. split_and!.
  - by destruct ms.
  - destruct ms as [items|]; [|done]. unfold Parse_Collection.
    rewrite reset_log. simpl.
    destruct (reset _ _ _).1; apply app_nil_r.
  - intros items w' -> Hnew. unfold Parse_Collection in Hnew.
    change (_reset _) with w0 in Hnew.
    pose proof (inv_reset_call (Some items) silent_options w0) as Hinv.
    rewrite Hnew in Hinv. simpl in Hinv.
    apply reset_Return in Hnew as (w'' & Hadd & Hw').
    change (silent silent_options) with true in Hw'. cbv iota in Hw'. subst w'.
    apply add_Return_indexed in Hadd as (rs & Hlen & Hperm & Hpa & Hfr & Hidx).
    simpl in Hperm. rewrite app_nil_r in Hperm.
    destruct Hinv as (Hl & _ & _ & Hcid & Hid).
    split_and!.
    + by rewrite Hl, Hperm, Hlen.
    + by rewrite Hperm, Hlen.
    + exists rs. split; [exact Hpa|done].
    + intros k r [Hk|Hk]; [by destruct (Hcid k r Hk)|by destruct (Hid k r Hk)].
    + intros r Hr. rewrite Hperm in Hr. by apply Hidx.
Qed.

Lemma remove_with_One rm x o w : remove_with rm (One x) o w = remove_step rm o w x.
Proof.
  unfold remove_with. cbn [to_array remove_loop].
  by destruct (remove_step rm o w x) as [[[[]|e] o'] w'].
Qed.

Lemma remove_One x o w :
  remove (One x) o w
  = ((remove_step remove_nested o w x).1.1, (remove_step remove_nested o w x).2).
Proof. by rewrite remove_eq, remove_with_One. Qed.

(** X21.  One round of [remove], by what the two lookups find.  Nothing
    (a falsy value): the argument is skipped, nothing changes and
    [remove] goes on.  A member, in a collection that satisfies its
    invariant: it leaves [models] at the position it had, leaves both
    tables, [length] drops by one, the collection stops listening to it,
    and unless silenced the model fires one ['remove'] event whose
    [index] is that position (handed on to the listeners of the
    collection).  A built-in that the tables inherit from
    [Object.prototype]: it is taken for a model, so the entries under
    ["undefined"] are deleted, the last model is dropped, [length] is
    decremented, and [remove] throws a TypeError, with no event and no
    change to any model.  A list of arguments is worked through from
    left to right, up to the first round that throws. *)
Theorem remove_skips_or_takes_out x o w :
  (truthy (js_or (getByCid x w) (get x w)) = false →
   remove (One x) o w = (Return (), w))
  ∧ (∀ xs, remove (Many (x :: xs)) o w
           = match remove_with remove_nested (One x) o w with
             | (Return _, o', w') => remove (Many xs) o' w'
             | (Throw e, _, w') => (Throw e, w')
             end)
  ∧ (∀ r, inv w → js_or (getByCid x w) (get x w) = VObj r →
       let w' := (remove (One x) o w).2 in
       (remove (One x) o w).1 = Return ()
       ∧ ∃ n : nat,
           let args := [ArgV (VObj r); ArgC this; ArgO (set_index (Z.of_nat n) o)] in
           models (coll w) !! n = Some r
           ∧ (∀ j : nat, (j < n)%nat → models (coll w) !! j ≠ Some r)
           ∧ models (coll w') = delete n (models (coll w))
           ∧ (r ∉ models (coll w'))
           ∧ length (coll w') = length (coll w) - 1
           ∧ _byCid (coll w') = delete (cid (deref w r)) (_byCid (coll w))
           ∧ _byId (coll w') = delete (to_key (id (deref w r))) (_byId (coll w))
           ∧ (∀ k, _byCid (coll w') !! k ≠ Some r ∧ _byId (coll w') !! k ≠ Some r)
           ∧ detached w' r
           ∧ ∃ m : nat,
               log w' = log w ++
                        (if silent o then []
                         else Emitted (OnModel r) "remove" args
                              :: replicate m
                                   (Emitted (OnCollection this) "remove" args)))
  ∧ (∀ k, js_or (getByCid x w) (get x w) = VNative k →
       let w' := (remove (One x) o w).2 in
       (remove (One x) o w).1 = Throw TypeError
       ∧ models (coll w')
         = take (List.length (models (coll w)) - 1) (models (coll w))
       ∧ length (coll w') = length (coll w) - 1
       ∧ _byCid (coll w') = delete "undefined" (_byCid (coll w))
       ∧ _byId (coll w') = delete "undefined" (_byId (coll w))
       ∧ comparator (coll w') = comparator (coll w)
       ∧ objs w' = objs w ∧ log w' = log w ∧ saves w' = saves w).
Proof.
  split_and!.
  - intros Hf. by rewrite remove_One, remove_step_skip.
  - intros xs. rewrite remove_with_One, (remove_eq (Many _)). unfold remove_with.
    cbn [to_array remove_loop].
    destruct (remove_step remove_nested o w x) as [[[[]|e] o'] w']; [|done].
    by rewrite remove_eq.
  - intros r Hinv Hf w'.
    pose proof (inv_found x w r Hinv Hf) as Hr.
    destruct (indexOf_elem r _ Hr) as (n & Hi & Hn & Hmin).
    destruct (remove_step_found remove_nested o w x r Hf) as [m Hstep].
    rewrite Hi, (splice_delete _ _ _ Hn) in Hstep.
    pose proof (inv_remove (One x) o w Hinv) as Hinv'. fold w' in Hinv'.
    assert ((remove (One x) o w).1 = Return ()) as Hret.
    { by rewrite remove_One, Hstep. }
    specialize (Hinv' Hret).
    assert (w' = (remove_step remove_nested o w x).2) as Hw'.
    { unfold w'. by rewrite remove_One. }
    rewrite Hstep in Hw'. simpl in Hw'.
    assert (r ∉ models (coll w')) as Hnin.
    { rewrite Hw'. simpl. destruct Hinv as (_ & Hnd & _).
      rewrite (elem_of_delete_NoDup _ _ _ _ Hnd Hn). by intros [_ ?]. }
    split; [done|].
    exists n. split_and!; try done; try (by rewrite Hw').
    + intros k. destruct Hinv' as (_ & _ & _ & Hcid & Hid). split.
      * intros Hk. by destruct (Hcid k r Hk).
      * intros Hk. by destruct (Hid k r Hk).
    + rewrite Hw'. apply detached_removeReference.
    + exists m. by rewrite Hw'.
  - intros k Hf w'. unfold w'.
    rewrite remove_One, (remove_step_native remove_nested o w x k Hf). simpl.
    split_and!; try done. apply splice_last.
Qed.

Lemma add_One_Instance r o w w' :
  add (One (Instance r)) o w = (Return (), w') → r ∈ models (coll w').
Proof.
  intros (rs & _ & Hperm & Hpa & _)%add_Return_indexed.
  assert (rs = [r]) as ->.
  { simpl in Hpa. destruct (collection (deref w r)); simpl in Hpa.
    - destruct rs as [|? [|??]]; simplify_eq/=. done.
    - destruct rs as [|? [|??]]; simplify_eq/=. done. }
  rewrite Hperm. by left.
Qed.

(** *** The options object after add *)

Lemma set_index_set_index i j o : set_index i (set_index j o) = set_index i o.
Proof. done. Qed.

Lemma add_run_add ms o w : add ms o w = ((add_run ms o w).1.1, (add_run ms o w).2).
Proof. unfold add. by destruct (add_run ms o w) as [[??]?]. Qed.

(** The last loop leaves the options with the position of the last model
    it has announced, if any. *)
Lemma add_announce_loop_options cids l o w :
  ∃ o' lg,
    add_announce_loop cids l o w = (Return (), o', with_log (log w ++ lg) w)
    ∧ (o' = o ∨ ∃ n : nat, n ∈ l ∧ o' = set_index (Z.of_nat n) o)
    ∧ (∀ (i : nat) r, i ∈ l → models (coll w) !! i = Some r →
         defined cids (cid (deref w r)) = true →
         ∃ n : nat, n ∈ l ∧ o' = set_index (Z.of_nat n) o).
Proof.
  revert o w. induction l as [|i l IH]; intros o w; cbn [add_announce_loop].
  - exists o, []. rewrite app_nil_r. split_and!; [by destruct w|by left|].
    intros i r []%elem_of_nil.
  - unfold add_announce.
    destruct (models (coll w) !! i) as [r|] eqn:Hi.
    2:{ destruct (IH o w) as (o' & lg & -> & Ho & Hsome).
        exists o', lg. split_and!; [done| |].
        - destruct Ho as [->|(n & Hn & ->)]; [by left|right].
          exists n. split; [by right|done].
        - intros i0 r0 [->|Hi0]%elem_of_cons E Hd; [congruence|].
          destruct (Hsome i0 r0 Hi0 E Hd) as (n & Hn & ->).
          exists n. split; [by right|done]. }
    destruct (defined cids (cid (deref w r))) eqn:Hdef.
    2:{ destruct (IH o w) as (o' & lg & -> & Ho & Hsome).
        exists o', lg. split_and!; [done| |].
        - destruct Ho as [->|(n & Hn & ->)]; [by left|right].
          exists n. split; [by right|done].
        - intros i0 r0 [->|Hi0]%elem_of_cons E Hd; [congruence|].
          destruct (Hsome i0 r0 Hi0 E Hd) as (n & Hn & ->).
          exists n. split; [by right|done]. }
    edestruct (trigger_model_plain r "add") as [n ->]; [done..|].
    edestruct IH as (o' & lg & -> & Ho & _).
    assert (∃ m : nat, m ∈ i :: l ∧ o' = set_index (Z.of_nat m) o) as Hex.
    { destruct Ho as [->|(m & Hm & ->)].
      - exists i. split; [by left|done].
      - exists m. split; [by right|done]. }
    eexists o', _. simpl. rewrite <- app_assoc. split_and!; [done|by right|done].
Qed.

Lemma index_cids_is_Some w rs m r :
  r ∈ rs → is_Some (index_cids w rs m !! cid (deref w r)).
Proof.
  unfold index_cids. revert m. induction rs as [|r0 rs IH]; intros m; simpl.
  - intros []%elem_of_nil.
  - intros [->|Hr]%elem_of_cons; [|by apply IH].
    assert (∀ l (m' : gmap string ref), is_Some (m' !! cid (deref w r0)) →
              is_Some (foldl (λ (m : gmap string ref) r, <[cid (deref w r) := r]> m)
                         m' l !! cid (deref w r0))) as Hkeep.
    { induction l as [|r1 l IHl]; intros m' Hm'; simpl; [done|].
      apply IHl.
      destruct (decide (cid (deref w r1) = cid (deref w r0))) as [->|Hne].
      - rewrite lookup_insert_eq. eauto.
      - by rewrite lookup_insert_ne. }
    apply Hkeep. rewrite lookup_insert_eq. eauto.
Qed.

(** [add] with the options it leaves: those of the first loop when it
    throws or is silent, and otherwise those with the position of the
    last model announced. *)
Lemma add_run_spec ms o w :
  match add_prepare (to_array ms) o ∅ ∅ w with
  | (Throw e, o1, w1) => add_run ms o w = (Throw e, o1, w1)
  | (Return (rs, cids), o1, w1) =>
      ∃ o' w',
        add_run ms o w = (Return (), o', w')
        ∧ (∀ z, set_index z o' = set_index z o1)
        ∧ (silent o = true → o' = o1)
        ∧ (silent o = false → rs ≠ [] →
           ∃ n : nat, (n < List.length (models (coll w')))%nat
                      ∧ o' = set_index (Z.of_nat n) o1)
  end.
Proof.
  unfold add_run.
  destruct (add_prepare _ o ∅ ∅ w) as [[[[rs cids]|e0] o1] w1] eqn:Hp; [|done].
  pose proof (add_prepare_Return _ _ _ _ _ _ _ _ _ Hp)
    as (_ & Hc & _ & _ & Hsi & _ & _ & _ & _ & -> & _).
  destruct (add_index_fold rs w1) as (Hs2 & _ & _ & _ & _ & Hms2 & _).
  cbv zeta. set (w2 := foldl add_index w1 rs) in *.
  set (w3 := with_coll _ w2).
  assert (∃ W, (match comparator (coll w3) with
                | Some _ => sort silent_options w3
                | None => (Return (), w3)
                end) = (Return (), W)
               ∧ objs W = objs w2 ∧ models (coll W) ≡ₚ rs ++ models (coll w))
    as (W & -> & Hobjs & Hperm).
  { assert (models (coll w3) ≡ₚ rs ++ models (coll w)) as Hperm.
    { unfold w3. simpl. rewrite splice_insert_perm. by rewrite Hms2, Hc. }
    destruct (comparator (coll w3)) as [f|] eqn:Hf.
    - destruct (sort_Some silent_options w3 f Hf) as (lg0 & -> & _).
      eexists. split; [done|]. simpl. split; [done|].
      etrans; [apply sort_models_perm|exact Hperm].
    - by exists w3. }
  rewrite Hsi. destruct (silent o).
  { exists o1, W. split_and!; done. }
  destruct (add_announce_loop_options (index_cids w1 rs ∅)
              (seq 0 (List.length (models (coll W)))) o1 W)
    as (o' & lg & -> & Ho & Hsome).
  eexists o', _. split_and!; [done| |done|].
  - intros z. by destruct Ho as [->|(n & _ & ->)].
  - intros _ Hne. destruct rs as [|r rs']; [done|].
    assert (r ∈ models (coll W)) as Hr by (rewrite Hperm; by left).
    apply list_elem_of_lookup_1 in Hr as [i Hi].
    destruct (Hsome i r) as (n & Hn & ->).
    + apply elem_of_seq. apply lookup_lt_Some in Hi. lia.
    + done.
    + assert (cid (deref W r) = cid (deref w1 r)) as ->.
      { unfold deref at 1. rewrite Hobjs. apply Hs2. }
      destruct (index_cids_is_Some w1 (r :: rs') ∅ r) as [x Hx]; [by left|].
      by eapply defined_Some.
    + exists n. split; [|done]. apply elem_of_seq in Hn. simpl. lia.
Qed.

Lemma create_success_spec o r next w :
  if wait o
  then (create_success o r next w).1 = (add (One (Instance next)) o w).1
       ∧ coll (create_success o r next w).2 = coll (add (One (Instance next)) o w).2
  else (create_success o r next w).1 = Return ()
       ∧ coll (create_success o r next w).2 = coll w.
Proof.
  unfold create_success. destruct (wait o).
  - rewrite add_run_add.
    destruct (add_run _ o w) as [[[[]|e] o2] w1]; [|done].
    destruct (success o2); [done|]. simpl.
    edestruct (trigger_model_plain next "sync") as [n ->]; done.
  - destruct (success o); [done|]. simpl.
    edestruct (trigger_model_plain next "sync") as [n ->]; done.
Qed.

(** C8.  With [wait] set, [create] returns the model without touching
    the collection: the model is handed to [save], and it is the
    success continuation of that save which runs [add].  With [wait]
    unset the model is added at once, before [save] is even called,
    and the continuation adds nothing; the save is handed the options
    object as [add] has left it, which unless silenced carries the
    position of the model as [index].  Attributes that fail validation
    make [create] return [false]: no field changes, no event, no
    save. *)
Theorem create_waits_or_adds it o w :
  (∀ o1 w1, _prepareModel it o w = (None, o1, w1) →
     ∃ w', create it o w = (Return (VBool false), w')
           ∧ coll w' = coll w ∧ log w' = log w ∧ saves w' = saves w)
  ∧ (∀ r o1 w1, _prepareModel it o w = (Some r, o1, w1) → wait o = true →
       ∃ w', create it o w = (Return (VObj r), w')
             ∧ coll w' = coll w ∧ log w' = log w
             ∧ saves w' = saves w ++ [SaveRequest r o1]
             ∧ ∀ next w2,
                 (create_success o1 r next w2).1
                 = (add (One (Instance next)) o1 w2).1
                 ∧ coll (create_success o1 r next w2).2
                   = coll (add (One (Instance next)) o1 w2).2
                 ∧ ((create_success o1 r next w2).1 = Return () →
                    next ∈ models (coll (create_success o1 r next w2).2)))
  ∧ (∀ r o1 w1, _prepareModel it o w = (Some r, o1, w1) → wait o = false →
       ∀ v w', create it o w = (Return v, w') →
         v = VObj r
         ∧ r ∈ models (coll w')
         ∧ coll w' = coll (add (One (Instance r)) o1 w1).2
         ∧ (∃ o2, saves w' = saves w ++ [SaveRequest r o2]
                  ∧ o2 = (add_run (One (Instance r)) o1 w1).1.2
                  ∧ wait o2 = false
                  ∧ (silent o = true → o2 = o1)
                  ∧ (silent o = false →
                     ∃ n : nat, (n < List.length (models (coll w')))%nat
                                ∧ o2 = set_index (Z.of_nat n) o1)
                  ∧ ∀ next w2,
                      (create_success o2 r next w2).1 = Return ()
                      ∧ coll (create_success o2 r next w2).2 = coll w2)).
Proof.
  split_and!.
  - intros o1 w1 Hp. unfold create. rewrite Hp.
    apply _prepareModel_spec in Hp as (_ & Hc & Hl & Hs & _). eauto.
  - intros r o1 w1 Hp Hw. unfold create. rewrite Hp.
    apply _prepareModel_spec in Hp as (_ & Hc & Hl & Hs & _ & _ & Hw1 & _).
    rewrite Hw1, Hw. eexists. split; [done|]. simpl.
    split_and!; try done; [by rewrite Hs|].
    intros next w2. pose proof (create_success_spec o1 r next w2) as Hcs.
    rewrite Hw1, Hw in Hcs. destruct Hcs as [E1 E2].
    split_and!; [done..|].
    intros Hret. rewrite E2. rewrite E1 in Hret.
    destruct (add _ o1 w2) as [[[]|e] w3] eqn:Hadd; [|done].
    by eapply add_One_Instance.
  - intros r o1 w1 Hp Hw v w'. unfold create. rewrite Hp.
    apply _prepareModel_spec in Hp as (_ & Hc & Hl & Hs & Hsi & _ & Hw1 & _).
    rewrite Hw1, Hw.
    pose proof (add_run_add (One (Instance r)) o1 w1) as Hadd.
    pose proof (add_run_spec (One (Instance r)) o1 w1) as Hspec.
    destruct (add_prepare _ o1 ∅ ∅ w1) as [[[[rs cids]|e0] o1'] w1'] eqn:Hprep.
    2:{ rewrite Hspec. done. }
    destruct Hspec as (o2 & w2 & Hrun & Hidx & Hsil & Hnsil).
    rewrite Hrun in Hadd |- *. simpl in Hadd.
    intros [= <- <-]. simpl.
    pose proof (add_Return _ _ _ _ Hadd)
      as (rs' & cids' & o3 & w3 & lg & _ & _ & Hs2 & _).
    assert (o1' = o1 ∧ rs ≠ []) as [-> Hne].
    { cbn [to_array add_prepare _prepareModel] in Hprep.
      destruct (collection (deref w1 r));
        destruct (defined _ _ || defined _ _); try done;
        destruct (negb _ && _); try done; by simplify_eq. }
    split_and!; try done.
    + by eapply add_One_Instance.
    + by rewrite Hadd.
    + exists o2. split_and!.
      * by rewrite Hs2, Hs.
      * done.
      * specialize (Hidx 0). apply (f_equal wait) in Hidx. simpl in Hidx. congruence.
      * rewrite <- Hsi. exact Hsil.
      * rewrite <- Hsi. intros Hf. by apply Hnsil.
      * intros next w4. pose proof (create_success_spec o2 r next w4) as Hcs.
        assert (wait o2 = false) as Hw2.
        { specialize (Hidx 0). apply (f_equal wait) in Hidx. simpl in Hidx.
          congruence. }
        by rewrite Hw2 in Hcs.
Qed.

End Facts.

(** ** The model on small inputs *)

(** [add([m1, m1])] on an empty collection throws, [length] stays 0. *)
Example add_same_model_twice :
  let res := add Demo.me Demo.construct Demo.validate
               (Many [Instance 1%positive; Instance 1%positive]) no_options
               (Demo.new_collection None Demo.heap0) in
  res.1 = Throw DuplicateCid ∧ length (coll res.2) = 0 ∧ models (coll res.2) = [].
Proof. by vm_compute. Qed.

(** Two models with the same server id are refused as well. *)
Example add_same_id_twice :
  (add Demo.me Demo.construct Demo.validate
     (Many [Attrs {[ "objectId" := VStr "x9" ]}; Attrs {[ "objectId" := VStr "x9" ]}])
     no_options (Demo.new_collection None ∅)).1
  = Throw DuplicateId.
Proof. by vm_compute. Qed.

(** [add([m1, m2, m3])]: the array, the cached length, and one ['add'] event
    per model on the model and, handed on, on the collection. *)
Example add_three_models :
  models (coll Demo.abc_collection) = [1%positive; 2%positive; 3%positive]
  ∧ length (coll Demo.abc_collection) = 3
  ∧ ev_name <$> log Demo.abc_collection = ["add"; "add"; "add"; "add"; "add"; "add"]
  ∧ ev_target <$> log Demo.abc_collection
    = [OnModel 1; OnCollection Demo.me; OnModel 2; OnCollection Demo.me;
       OnModel 3; OnCollection Demo.me].
Proof. by vm_compute. Qed.

(** [get(m1.id)] finds [m1]; after [remove(m1)] it is undefined. *)
Example get_then_remove :
  get (VStr "x1") Demo.abc_collection = VObj 1%positive
  ∧ get (VStr "x1")
      (remove Demo.me (One (VObj 1%positive)) no_options Demo.abc_collection).2
    = VUndefined
  ∧ models (coll (remove Demo.me (One (VObj 1%positive)) no_options
                    Demo.abc_collection).2)
    = [2%positive; 3%positive].
Proof. by vm_compute. Qed.

(** [remove] of the member at position 1 reports [index] 1. *)
Example remove_reports_position :
  drop 6 (log (remove Demo.me (One (VStr "B")) no_options Demo.abc_collection).2)
  = [Emitted (OnModel 2) "remove"
       [ArgV (VObj 2%positive); ArgC Demo.me; ArgO (set_index 1 no_options)];
     Emitted (OnCollection Demo.me) "remove"
       [ArgV (VObj 2%positive); ArgC Demo.me; ArgO (set_index 1 no_options)]].
Proof. by vm_compute. Qed.

(** [at] inside and outside the array. *)
Example at_positions :
  at_index 0 Demo.abc_collection = VObj 1%positive
  ∧ at_index 3 Demo.abc_collection = VUndefined
  ∧ at_index (-1) Demo.abc_collection = VUndefined.
Proof. by vm_compute. Qed.

(** A ['destroy'] event of a member takes it out of the collection. *)
Example destroy_removes :
  models (coll (trigger_model Demo.me 2%positive "destroy"
                  [ArgV (VObj 2%positive); ArgC Demo.me; ArgO no_options]
                  Demo.abc_collection).2)
  = [1%positive; 3%positive].
Proof. by vm_compute. Qed.

(** The tables are plain objects: a name they inherit is found, as a
    built-in and not as a member, and [add] takes it for a duplicate. *)
Example get_of_inherited_name :
  get (VStr "constructor") Demo.abc_collection = VNative "constructor"
  ∧ getByCid (VStr "toString") (Demo.new_collection None ∅) = VNative "toString"
  ∧ (add Demo.me Demo.construct Demo.validate
       (One (Attrs {[ "objectId" := VStr "constructor" ]})) no_options
       (Demo.new_collection None ∅)).1
    = Throw DuplicateId.
Proof. by vm_compute. Qed.

(** Numbers as keys: decimal digits up to [10^21], exponent form from
    there on, and always the shortest digits that denote the double. *)
Example number_keys :
  to_key (VNum 42) = "42"
  ∧ to_key (VNum (-7)) = "-7"
  ∧ to_key (VNum 9007199254740993) = "9007199254740992"
  ∧ to_key (VNum 1152921504606846976) = "1152921504606847000"
  ∧ to_key (VNum 1000000000000000000000) = "1e+21"
  ∧ to_key (VNum 1180591620717411303424) = "1.1805916207174113e+21".
Proof. by vm_compute. Qed.

(** C7.  [remove] does not skip every argument that identifies no
    member.  [remove('constructor')] on the collection of [m1, m2, m3]
    identifies none, yet the lookup in [_byCid] answers the built-in
    [Object]: the round takes it for a model, drops the last model [m3]
    from [models] and one from [length], leaves [m3] in the tables, and
    throws a TypeError where it calls [trigger] on the built-in.  An
    argument that names nothing at all is skipped. *)
Theorem remove_of_inherited_name :
  let w := Demo.abc_collection in
  let res := remove Demo.me (One (VStr "constructor")) no_options w in
  (∀ r, r ∈ models (coll w) →
        cid (deref w r) ≠ "constructor" ∧ id (deref w r) ≠ VStr "constructor")
  ∧ res.1 = Throw TypeError
  ∧ models (coll res.2) = [1%positive; 2%positive]
  ∧ length (coll res.2) = 2
  ∧ _byCid (coll res.2) !! "C" = Some 3%positive
  ∧ log res.2 = log w
  ∧ remove Demo.me (One (VStr "zz")) no_options w = (Return (), w).
Proof.
  intros w res. split_and!; try by vm_compute.
  intros r Hr%list_elem_of_In. vm_compute in Hr.
  destruct Hr as [<-|[<-|[<-|[]]]]; by vm_compute.
Qed.

(** C2.  The cached [length] can part from the number of models.  On a
    new collection [remove('constructor')] takes the built-in [Object]
    for a model: it decrements [length] to -1 with nothing in [models],
    and throws.  The [add] of one model that follows returns, and leaves
    [length] 0 with one model in the array. *)
Theorem length_after_remove_of_inherited_name :
  let w0 := Demo.new_collection None Demo.heap0 in
  let r1 := remove Demo.me (One (VStr "constructor")) no_options w0 in
  let r2 := add Demo.me Demo.construct Demo.validate (One (Instance 1%positive))
              no_options r1.2 in
  length (coll w0) = 0 ∧ models (coll w0) = []
  ∧ r1.1 = Throw TypeError
  ∧ length (coll r1.2) = -1 ∧ models (coll r1.2) = []
  ∧ r2.1 = Return ()
  ∧ length (coll r2.2) = 0 ∧ models (coll r2.2) = [1%positive]
  ∧ length (coll r2.2) ≠ Z.of_nat (List.length (models (coll r2.2))).
Proof. intros w0 r1 r2. split_and!; by vm_compute. Qed.


(** ** The claims at work on concrete collections *)

Lemma add_rejects_collisions_witness :
  ∃ e w',
    add Demo.me Demo.construct Demo.validate
      (Many [Instance 1%positive; Instance 2%positive; Instance 1%positive])
      no_options (Demo.new_collection None Demo.heap0) = (Throw e, w')
    ∧ coll w' = coll (Demo.new_collection None Demo.heap0)
    ∧ (Forall is_Some [Some 1%positive; Some 2%positive; Some 1%positive] →
       e = DuplicateCid ∨ e = DuplicateId).
Proof.
  eapply (add_rejects_collisions Demo.me Demo.construct Demo.validate
            (Many [Instance 1%positive; Instance 2%positive; Instance 1%positive])
            no_options (Demo.new_collection None Demo.heap0)).
  - vm_compute. reflexivity.
  - left. exists 0%nat, 2%nat, 1%positive, 1%positive.
    split_and!; [lia|reflexivity..].
Defined.

(** C1 as stated fails: an invalid input in front of two models that
    share a client id makes [add] throw the invalid-model error, not a
    duplicate error. *)
Lemma add_invalid_before_duplicates :
  let w := Demo.new_collection None Demo.heap0 in
  let items := [Attrs {[ "ACL" := VNum 1 ]}; Instance 1%positive; Instance 1%positive] in
  (∃ ps o1 w1,
     prepare_all Demo.me Demo.construct Demo.validate items no_options w = (ps, o1, w1)
     ∧ collides (coll w) w1 (omap (λ p, p) ps))
  ∧ (add Demo.me Demo.construct Demo.validate (Many items) no_options w).1
    = Throw InvalidModel
  ∧ ¬ ∃ e, (e = DuplicateCid ∨ e = DuplicateId)
           ∧ (add Demo.me Demo.construct Demo.validate (Many items) no_options w).1
             = Throw e.
Proof.
  intros w items. split_and!.
  - do 3 eexists. split; [vm_compute; reflexivity|].
    left. exists 0%nat, 1%nat, 1%positive, 1%positive.
    split_and!; [lia|reflexivity..].
  - by vm_compute.
  - intros (e & [-> | ->] & He); vm_compute in He; discriminate.
Qed.

Lemma length_matches_models_witness :
  reachable Demo.me Demo.construct Demo.validate Demo.abc_collection
  ∧ length (coll Demo.abc_collection)
    = Z.of_nat (List.length (models (coll Demo.abc_collection))).
Proof.
  assert (reachable Demo.me Demo.construct Demo.validate Demo.abc_collection) as H.
  { apply reach_add, reach_new. }
  split; [exact H|].
  exact (length_matches_models Demo.me Demo.construct Demo.validate _ H).
Defined.


Lemma reset_replaces_members_witness :
  let w := Demo.abc_collection in
  let w' := (reset Demo.me Demo.construct Demo.validate
               (Some (Many [Instance 2%positive; Instance 1%positive]))
               no_options w).2 in
  reset Demo.me Demo.construct Demo.validate
    (Some (Many [Instance 2%positive; Instance 1%positive])) no_options w
  = (Return (), w')
  ∧ detached Demo.me w' 3%positive
  ∧ get (VObj 1%positive) w' = VObj 1%positive
  ∧ log w' = log w ++ [Emitted (OnCollection Demo.me) "reset"
                         [ArgC Demo.me; ArgO no_options]].
Proof.
  intros w w'.
  assert (reset Demo.me Demo.construct Demo.validate
            (Some (Many [Instance 2%positive; Instance 1%positive])) no_options w
          = (Return (), w')) as H.
  { vm_compute. reflexivity. }
  destruct (reset_replaces_members Demo.me Demo.construct Demo.validate _ _ _ _ H)
    as (_ & Hdet & _ & _ & _ & Hlog & Hget).
  split_and!; [exact H| | |exact Hlog].
  - apply Hdet.
    + apply list_elem_of_In. vm_compute. tauto.
    + intros Hin%list_elem_of_In. vm_compute in Hin. intuition discriminate.
  - assert (1%positive ∈ models (coll w')) as Hin.
    { apply list_elem_of_In. vm_compute. tauto. }
    assert (truthy (id (deref w' 1%positive)) = true) as Ht.
    { vm_compute. reflexivity. }
    exact (proj1 (proj2 (Hget 1%positive Hin) Ht)).
Defined.

Lemma add_without_ids_no_duplicate_id_witness :
  let w := Demo.new_collection None Demo.heap0 in
  let items := [Instance 3%positive; Attrs {[ "rank" := VNum 1 ]}; Attrs ∅] in
  Forall (lacks_id Demo.construct w) items
  ∧ (add Demo.me Demo.construct Demo.validate (Many items) no_options w).1
    ≠ Throw DuplicateId
  ∧ (add Demo.me Demo.construct Demo.validate (Many items) no_options w).1
    = Return ().
Proof.
  intros w items.
  assert (Forall (lacks_id Demo.construct w) items) as H.
  { apply Forall_cons. split; [vm_compute; reflexivity|].
    apply Forall_cons. split; [intros o h; vm_compute; reflexivity|].
    apply Forall_cons. split; [intros o h; vm_compute; reflexivity|].
    constructor. }
  destruct (add_without_ids_no_duplicate_id Demo.me Demo.construct Demo.validate
              (Many items) no_options w H) as [Hne Hret].
  split_and!; [exact H|exact Hne|].
  eapply (Hret [3%positive; 4%positive; 5%positive]).
  - vm_compute. reflexivity.
  - vm_compute. apply (bool_decide_unpack _). vm_compute. exact I.
  - intros r Hr%list_elem_of_In. vm_compute in Hr.
    destruct Hr as [<-|[<-|[<-|[]]]]; vm_compute; reflexivity.
Defined.

Lemma inv_abc_collection : inv Demo.abc_collection.
Proof. apply inv_add, inv_Parse_Collection. Defined.



Lemma remove_skips_or_takes_out_witness :
  let w := Demo.abc_collection in
  inv w
  ∧ remove Demo.me (One (VStr "zz")) no_options w = (Return (), w)
  ∧ (remove Demo.me (One (VStr "B")) no_options w).1 = Return ()
  ∧ (2%positive ∉ models (coll (remove Demo.me (One (VStr "B")) no_options w).2))
  ∧ length (coll (remove Demo.me (One (VStr "B")) no_options w).2)
    = length (coll w) - 1
  ∧ (remove Demo.me (One (VStr "valueOf")) no_options w).1 = Throw TypeError.
Proof.
  intros w. pose proof inv_abc_collection as H.
  destruct (remove_skips_or_takes_out Demo.me (VStr "zz") no_options w)
    as (Hskip & _ & _).
  destruct (remove_skips_or_takes_out Demo.me (VStr "B") no_options w)
    as (_ & _ & Hfound & _).
  destruct (remove_skips_or_takes_out Demo.me (VStr "valueOf") no_options w)
    as (_ & _ & _ & Hnative).
  assert (js_or (getByCid (VStr "B") w) (get (VStr "B") w) = VObj 2%positive) as HB.
  { vm_compute. reflexivity. }
  assert (js_or (getByCid (VStr "valueOf") w) (get (VStr "valueOf") w)
          = VNative "valueOf") as HN.
  { vm_compute. reflexivity. }
  pose proof (Hfound 2%positive H HB) as Hf. cbv zeta in Hf.
  destruct Hf as (Hret & n & _ & _ & _ & Hnin & Hlen & _).
  pose proof (Hnative "valueOf" HN) as Hn. cbv zeta in Hn.
  split_and!; [exact H| |exact Hret|exact Hnin|exact Hlen|exact (proj1 Hn)].
  apply Hskip. vm_compute. reflexivity.
Defined.

Lemma create_waits_or_adds_witness :
  let w := Demo.abc_collection in
  (∃ w', create Demo.me Demo.construct Demo.validate
           (Attrs {[ "ACL" := VNum 1 ]}) no_options w = (Return (VBool false), w')
         ∧ coll w' = coll w ∧ log w' = log w ∧ saves w' = saves w)
  ∧ (∃ r w', create Demo.me Demo.construct Demo.validate (Attrs ∅)
               (MkOptions None false true None None false) w = (Return (VObj r), w')
             ∧ coll w' = coll w)
  ∧ (∃ r w', create Demo.me Demo.construct Demo.validate (Attrs ∅) no_options w
             = (Return (VObj r), w')
             ∧ r ∈ models (coll w')
             ∧ ∃ o2 (n : nat),
                 saves w' = saves w ++ [SaveRequest r o2]
                 ∧ index o2 = Some (Z.of_nat n)).
Proof.
  intros w. split_and!.
  - eapply (proj1 (create_waits_or_adds Demo.me Demo.construct Demo.validate
                     (Attrs {[ "ACL" := VNum 1 ]}) no_options w)).
    vm_compute. reflexivity.
  - edestruct (proj1 (proj2 (create_waits_or_adds Demo.me Demo.construct Demo.validate
                               (Attrs ∅) (MkOptions None false true None None false) w)))
      as (w' & Hc & Hcoll & _).
    + vm_compute. reflexivity.
    + reflexivity.
    + eexists _, w'. split; [exact Hc|exact Hcoll].
  - edestruct (proj2 (proj2 (create_waits_or_adds Demo.me Demo.construct Demo.validate
                               (Attrs ∅) no_options w)))
      as (Hv & Hin & _ & o2 & Hsaves & _ & _ & _ & Hidx & _).
    + vm_compute. reflexivity.
    + reflexivity.
    + vm_compute. reflexivity.
    + destruct (Hidx eq_refl) as (n & _ & Hn).
      eexists _, _. split; [vm_compute; reflexivity|].
      split; [exact Hin|].
      exists o2, n. split; [exact Hsaves|]. by rewrite Hn.
Defined.

(** [create({})] on the collection of [m1, m2, m3]: the new model goes to
    position 3, and [save] is handed the options with that [index]. *)
Example create_saves_with_index :
  saves (create Demo.me Demo.construct Demo.validate (Attrs ∅) no_options
           Demo.abc_collection).2
  = [SaveRequest 4%positive
       (set_index 3 (set_opt_collection Demo.me no_options))].
Proof. by vm_compute. Qed.

Lemma sort_without_comparator_witness :
  comparator (coll Demo.abc_collection) = None
  ∧ sort Demo.me no_options Demo.abc_collection
    = (Throw NoComparator, Demo.abc_collection).
Proof.
  assert (comparator (coll Demo.abc_collection) = None) as H by reflexivity.
  split; [exact H|].
  exact (sort_without_comparator Demo.me no_options Demo.abc_collection H).
Defined.

Lemma constructor_resets_silently_witness :
  let w' := (Parse_Collection Demo.me Demo.construct Demo.validate
               (Some (Many [Instance 1%positive; Instance 2%positive]))
               None Demo.heap0 []).2 in
  Parse_Collection Demo.me Demo.construct Demo.validate
    (Some (Many [Instance 1%positive; Instance 2%positive])) None Demo.heap0 []
  = (Return (), w')
  ∧ length (coll w') = 2
  ∧ log w' = [].
Proof.
  intros w'.
  assert (Parse_Collection Demo.me Demo.construct Demo.validate
            (Some (Many [Instance 1%positive; Instance 2%positive])) None Demo.heap0 []
          = (Return (), w')) as H.
  { vm_compute. reflexivity. }
  destruct (constructor_resets_silently Demo.me Demo.construct Demo.validate
              (Some (Many [Instance 1%positive; Instance 2%positive]))
              None Demo.heap0 []) as (_ & Hlog & Hpop).
  destruct (Hpop _ w' eq_refl H) as (Hlen & _).
  split_and!; [exact H|exact Hlen|exact Hlog].
Defined.


(** ** Further properties of the methods *)

Section Further.

Variable this : cref.
Variable ModelConstructor : gmap string value → options → gmap ref Object → Object.
Variable _validate : Object → options → bool.

#[local] Abbreviation trigger := (trigger this).
#[local] Abbreviation _removeReference := (_removeReference this).
#[local] Abbreviation _prepareModel := (_prepareModel this ModelConstructor _validate).
#[local] Abbreviation _onModelEvent_with := (_onModelEvent_with this).
#[local] Abbreviation _onModelEvent := (_onModelEvent this).
#[local] Abbreviation trigger_model_with := (trigger_model_with this).
#[local] Abbreviation trigger_model := (trigger_model this).
#[local] Abbreviation remove_step := (remove_step this).
#[local] Abbreviation remove_loop := (remove_loop this).
#[local] Abbreviation remove_with := (remove_with this).
#[local] Abbreviation remove_nested := (remove_nested this).
#[local] Abbreviation remove := (remove this).
#[local] Abbreviation sort := (sort this).
#[local] Abbreviation add_prepare := (add_prepare this ModelConstructor _validate).
#[local] Abbreviation add_index := (add_index this).
#[local] Abbreviation add_announce := (add_announce this).
#[local] Abbreviation add_announce_loop := (add_announce_loop this).
#[local] Abbreviation add_run := (add_run this ModelConstructor _validate).
#[local] Abbreviation add := (add this ModelConstructor _validate).
#[local] Abbreviation detach_all := (detach_all this).
#[local] Abbreviation reset := (reset this ModelConstructor _validate).
#[local] Abbreviation prepare_all := (prepare_all this ModelConstructor _validate).
#[local] Abbreviation reachable := (reachable this ModelConstructor _validate).
#[local] Abbreviation detached := (detached this).
#[local] Abbreviation create := (create this ModelConstructor _validate).
#[local] Abbreviation create_success := (create_success this ModelConstructor _validate).
#[local] Abbreviation fetch_then := (fetch_then this ModelConstructor _validate).
#[local] Abbreviation Parse_Collection := (Parse_Collection this ModelConstructor _validate).
#[local] Abbreviation subscriptions := (subscriptions this).
#[local] Abbreviation add_events := (add_events this).

(** *** Event dispatch, exactly *)

Lemma _onModelEvent_with_pass rm ev args w :
  String.eqb ev "destroy" = false →
  String.eqb ev "change:objectId" = false →
  (String.eqb ev "add" || String.eqb ev "remove") && negb (is_this this (args !! 1%nat))
  = false →
  _onModelEvent_with rm ev args w = (Return (), trigger ev args w).
Proof.
  intros Hd Hc Hp. unfold _onModelEvent_with. by rewrite Hp, Hd, Hc, andb_false_r.
Qed.

Lemma _onModelEvent_with_ignore rm ev args w :
  (String.eqb ev "add" || String.eqb ev "remove") && negb (is_this this (args !! 1%nat))
  = true →
  _onModelEvent_with rm ev args w = (Return (), w).
Proof. intros Hp. unfold _onModelEvent_with. by rewrite Hp. Qed.

Lemma is_registration (cb : string * cref) :
  String.eqb cb.1 "all" && Pos.eqb cb.2 this = true ↔ cb = ("all", this).
Proof.
  destruct cb as [e c]. simpl. rewrite andb_true_iff, String.eqb_eq, Pos.eqb_eq.
  split; [by intros [-> ->]|by intros [= -> ->]].
Qed.

Lemma dispatch_pass (f : world → outcome unit * world) e cbs w :
  (∀ w, f w = (Return (), with_log (log w ++ [e]) w)) →
  foldl (λ (rw : outcome unit * world) (cb : string * cref),
           match rw.1 with
           | Throw _ => rw
           | Return _ =>
               if String.eqb cb.1 "all" && Pos.eqb cb.2 this then f rw.2 else rw
           end) (Return (), w) cbs
  = (Return (),
     with_log
       (log w ++ replicate (List.length (filter (λ cb, cb = ("all", this)) cbs)) e) w).
Proof.
  intros Hf. revert w. induction cbs as [|cb cbs IH]; intros w.
  - simpl. rewrite app_nil_r. by destruct w.
  - cbn [foldl fst snd]. rewrite filter_cons.
    destruct (String.eqb cb.1 "all" && Pos.eqb cb.2 this) eqn:E.
    + apply is_registration in E. rewrite decide_True by done.
      rewrite Hf, IH. simpl. by rewrite <- app_assoc.
    + rewrite decide_False; [apply IH|].
      intros H%is_registration. congruence.
Qed.

Lemma dispatch_ignore (f : world → outcome unit * world) cbs w :
  (∀ w, f w = (Return (), w)) →
  foldl (λ (rw : outcome unit * world) (cb : string * cref),
           match rw.1 with
           | Throw _ => rw
           | Return _ =>
               if String.eqb cb.1 "all" && Pos.eqb cb.2 this then f rw.2 else rw
           end) (Return (), w) cbs
  = (Return (), w).
Proof.
  intros Hf. revert w. induction cbs as [|cb cbs IH]; intros w; [done|].
  cbn [foldl fst snd]. destruct (_ && _); [rewrite Hf|]; apply IH.
Qed.

Lemma trigger_model_exact r ev args w :
  String.eqb ev "destroy" = false →
  String.eqb ev "change:objectId" = false →
  (String.eqb ev "add" || String.eqb ev "remove") && negb (is_this this (args !! 1%nat))
  = false →
  trigger_model r ev args w
  = (Return (),
     with_log (log w ++ Emitted (OnModel r) ev args
                 :: replicate (subscriptions (deref w r))
                      (Emitted (OnCollection this) ev args)) w).
Proof.
  intros Hd Hc Hp. unfold trigger_model, trigger_model_with.
  rewrite (dispatch_pass _ (Emitted (OnCollection this) ev args)).
  - simpl. by rewrite <- app_assoc.
  - intros w0. by apply _onModelEvent_with_pass.
Qed.

(** X1.  An ['add'] or ['remove'] event that another collection fires on
    a model is none of this collection's business: however often the
    collection listens to the model, nothing changes and its own
    listeners are told nothing; the only trace is the event on the model
    itself. *)
Theorem foreign_add_remove_ignored r ev (other : cref) v o w :
  ev = "add" ∨ ev = "remove" →
  other ≠ this →
  _onModelEvent ev [ArgV v; ArgC other; ArgO o] w = (Return (), w)
  ∧ trigger_model r ev [ArgV v; ArgC other; ArgO o] w
    = (Return (),
       with_log (log w ++ [Emitted (OnModel r) ev [ArgV v; ArgC other; ArgO o]]) w).
Proof.
  intros Hev Hne.
  assert ((String.eqb ev "add" || String.eqb ev "remove")
          && negb (is_this this ([ArgV v; ArgC other; ArgO o] !! 1%nat)) = true) as Hp.
  { simpl. apply Pos.eqb_neq in Hne. rewrite Hne. by destruct Hev as [-> | ->]. }
  split.
  - by apply _onModelEvent_with_ignore.
  - unfold trigger_model, trigger_model_with.
    rewrite dispatch_ignore; [done|].
    intros w0. by apply _onModelEvent_with_ignore.
Qed.

(** X2.  Every other event of a model (anything but ['add'], ['remove'],
    ['destroy'] and ['change:objectId']) is passed on: the listeners of
    the collection get the same event with the same arguments, once per
    registration of the collection on the model, and neither the
    collection nor the heap changes. *)
Theorem other_events_proxied r ev args w :
  plain ev →
  _onModelEvent ev args w
  = (Return (), with_log (log w ++ [Emitted (OnCollection this) ev args]) w)
  ∧ trigger_model r ev args w
    = (Return (),
       with_log (log w ++ Emitted (OnModel r) ev args
                   :: replicate (subscriptions (deref w r))
                        (Emitted (OnCollection this) ev args)) w).
Proof.
  intros (Ha & Hr & Hd & Hc). split.
  - unfold _onModelEvent. rewrite _onModelEvent_with_pass; [done..|].
    by rewrite Ha, Hr.
  - apply trigger_model_exact; [done..|]. by rewrite Ha, Hr.
Qed.

(** *** A member is found by the model itself *)

Lemma member_found w r :
  inv w → r ∈ models (coll w) → cid (deref w r) ≠ "" →
  getByCid (VObj r) w = VObj r ∧ js_or (getByCid (VObj r) w) (get (VObj r) w) = VObj r.
Proof.
  intros (_ & _ & Hmem & _) Hr Hcid.
  destruct (Hmem r Hr) as [_ Hk].
  assert (getByCid (VObj r) w = VObj r) as E.
  { unfold getByCid, js_or, lookup_model, prop_cid. simpl.
    destruct (String.eqb (cid (deref w r)) "") eqn:Hs.
    - by apply String.eqb_eq in Hs.
    - simpl. by rewrite Hk. }
  split; [done|]. unfold js_or. by rewrite E.
Qed.

Lemma get_of_model w r :
  truthy (id (deref w r)) = true →
  get (VObj r) w = lookup_model (_byId (coll w)) (to_key (id (deref w r))).
Proof. intros Ht. unfold get, js_or, prop_id. simpl. by rewrite Ht. Qed.

(** X3.  A ['destroy'] event of a member (one with a non-empty client id)
    makes the collection remove it: the handler returns, the member has
    left [models] and both tables, [length] has dropped by one, the
    collection has stopped listening to it, and the invariant still
    holds.  The listeners of the collection are then told of the
    ['destroy'], after the ['remove'] events, if any. *)
Theorem destroy_removes_member r (c : cref) o w :
  inv w → r ∈ models (coll w) → cid (deref w r) ≠ "" →
  let w' := (_onModelEvent "destroy" [ArgV (VObj r); ArgC c; ArgO o] w).2 in
  (_onModelEvent "destroy" [ArgV (VObj r); ArgC c; ArgO o] w).1 = Return ()
  ∧ inv w'
  ∧ (r ∉ models (coll w'))
  ∧ models (coll w') ≡ₚ filter (λ x, x ≠ r) (models (coll w))
  ∧ length (coll w') = length (coll w) - 1
  ∧ (∀ k, _byCid (coll w') !! k ≠ Some r ∧ _byId (coll w') !! k ≠ Some r)
  ∧ detached w' r
  ∧ ∃ lg o',
      log w' = log w ++ lg
                 ++ [Emitted (OnCollection this) "destroy"
                       [ArgV (VObj r); ArgC c; ArgO o']]
      ∧ Forall (λ e, ev_name e = "remove") lg
      ∧ (silent o = true → lg = [] ∧ o' = o).
Proof.
  intros Hinv Hr Hcid w'.
  destruct (member_found w r Hinv Hr Hcid) as [_ Hf].
  pose proof (inv_remove_step this (λ _ o w, (Return (), o, w)) o w (VObj r) Hinv)
    as Hinv1.
  destruct (indexOf_elem r _ Hr) as (n & Hi & Hn & _).
  destruct (remove_step_found this (λ _ o w, (Return (), o, w)) o w (VObj r) r Hf)
    as [m Hstep].
  rewrite Hi, (splice_delete _ _ _ Hn) in Hstep.
  assert (_onModelEvent "destroy" [ArgV (VObj r); ArgC c; ArgO o] w
          = (Return (),
             trigger "destroy"
               [ArgV (VObj r); ArgC c;
                ArgO (remove_step (λ _ o w, (Return (), o, w)) o w (VObj r)).1.2]
               (remove_step (λ _ o w, (Return (), o, w)) o w (VObj r)).2)) as E.
  { unfold _onModelEvent, _onModelEvent_with, remove_nested.
    cbn [lookup list_lookup arg_value is_this negb andb orb
         String.eqb Ascii.eqb Bool.eqb].
    rewrite remove_with_One. by rewrite Hstep. }
  assert (w' = trigger "destroy"
                 [ArgV (VObj r); ArgC c;
                  ArgO (remove_step (λ _ o w, (Return (), o, w)) o w (VObj r)).1.2]
                 (remove_step (λ _ o w, (Return (), o, w)) o w (VObj r)).2) as Hw'.
  { unfold w'. by rewrite E. }
  rewrite E. clear E.
  rewrite Hstep in Hw', Hinv1. simpl in Hw', Hinv1. specialize (Hinv1 eq_refl).
  set (w1 := _removeReference r _) in *.
  assert (inv w') as Hinv'.
  { rewrite Hw'. by eapply inv_ext. }
  assert (models (coll w') = delete n (models (coll w))) as Hms by (by rewrite Hw').
  destruct Hinv as (_ & Hnd & _).
  assert (∀ y, y ∈ models (coll w') ↔ y ∈ models (coll w) ∧ y ≠ r) as Hin.
  { intros y. rewrite Hms. by apply elem_of_delete_NoDup. }
  split_and!; try done.
  - rewrite Hin. by intros [_ ?].
  - apply NoDup_Permutation.
    + by destruct Hinv' as (_ & ? & _).
    + by apply NoDup_filter.
    + intros y. rewrite Hin, list_elem_of_filter. tauto.
  - by rewrite Hw'.
  - intros k. destruct Hinv' as (_ & _ & _ & Hc' & Hi').
    split; intros Hk.
    + destruct (Hc' k r Hk) as [G _]. apply Hin in G. by destruct G.
    + destruct (Hi' k r Hk) as [G _]. apply Hin in G. by destruct G.
  - rewrite Hw'. apply detached_removeReference.
  - eexists _, _. rewrite Hw'. simpl. rewrite <- app_assoc. split; [done|].
    destruct (silent o); simpl.
    + split; [constructor|done].
    + split; [|done]. constructor; [done|]. by apply Forall_replicate.
Qed.


(** *** Subscriptions through add *)

Lemma _prepareModel_callbacks it o w m o' w' :
  _prepareModel it o w = (m, o', w') →
  ∀ r, r ∈ dom (objs w) → _callbacks (deref w' r) = _callbacks (deref w r).
Proof.
  destruct it as [attrs|r0]; simpl.
  - pose proof (is_fresh (dom (objs w))) as Hfresh. intros H r Hr.
    assert (w' = with_objs (<[fresh (dom (objs w)) :=
                               ModelConstructor attrs (set_opt_collection this o)
                                 (objs w)]> (objs w)) w) as ->.
    { destruct (_validate _ _); by simplify_eq. }
    unfold deref. simpl. rewrite lookup_total_insert_ne; [done|].
    intros E. by rewrite E in Hfresh.
  - destruct (collection (deref w r0)); intros H r _; simplify_eq; [done|].
    destruct (decide (r0 = r)) as [<-|Hne].
    + by rewrite deref_update_eq.
    + by rewrite deref_update_ne.
Qed.

Lemma add_prepare_callbacks items o cids ids w res o' w' :
  add_prepare items o cids ids w = (res, o', w') →
  ∀ r, r ∈ dom (objs w) → _callbacks (deref w' r) = _callbacks (deref w r).
Proof.
  revert o cids ids w res o' w'.
  induction items as [|it items IH]; intros o cids ids w res o' w'; simpl.
  - by intros [= <- <- <-].
  - destruct (_prepareModel it o w) as [[m o1] w1] eqn:Hp.
    pose proof (_prepareModel_callbacks _ _ _ _ _ _ Hp) as Hcb.
    apply _prepareModel_spec in Hp as ([Hd _] & _).
    destruct m as [r0|]; [|by intros [= <- <- <-]].
    destruct (defined cids _ || defined _ _); [by intros [= <- <- <-]|].
    destruct (negb _ && _); [by intros [= <- <- <-]|].
    destruct (add_prepare items o1 _ _ w1) as [[[[rs0 c0]|e] o2] w2] eqn:Hrec;
      intros [= <- <- <-]; intros r Hr;
      rewrite (IH _ _ _ _ _ _ _ Hrec r) by (by apply Hd); by apply Hcb.
Qed.

Lemma deref_add_index w r0 r :
  deref (add_index w r0) r
  = if decide (r0 = r) then on "all" this (deref w r0) else deref w r.
Proof.
  unfold add_index. change (deref (with_coll _ ?W) r) with (deref W r).
  destruct (decide (r0 = r)) as [<-|Hne].
  - by rewrite deref_update_eq.
  - by rewrite deref_update_ne.
Qed.

Lemma add_index_fold_callbacks rs w :
  (∀ r cb, cb ∈ _callbacks (deref w r) →
           cb ∈ _callbacks (deref (foldl add_index w rs) r))
  ∧ (∀ r, r ∈ rs → ("all", this) ∈ _callbacks (deref (foldl add_index w rs) r)).
Proof.
  revert w. induction rs as [|r0 rs IH]; intros w; simpl.
  - split; [done|]. intros r []%elem_of_nil.
  - destruct (IH (add_index w r0)) as [Hmono Hnew].
    assert (∀ r cb, cb ∈ _callbacks (deref w r) →
                    cb ∈ _callbacks (deref (add_index w r0) r)) as Hstep.
    { intros r cb Hcb. rewrite deref_add_index.
      destruct (decide (r0 = r)) as [<-|]; [|done].
      simpl. apply elem_of_app. by left. }
    split.
    + intros r cb Hcb. by apply Hmono, Hstep.
    + intros r [->|Hr]%elem_of_cons; [|by apply Hnew].
      apply Hmono. rewrite deref_add_index, decide_True by done.
      simpl. apply elem_of_app. right. by left.
Qed.

Lemma add_Throw_callbacks ms o w e w' :
  add ms o w = (Throw e, w') →
  ∀ r, r ∈ dom (objs w) → _callbacks (deref w' r) = _callbacks (deref w r).
Proof.
  rewrite add_unfold. cbv zeta.
  destruct (add_prepare _ o ∅ ∅ w) as [[[[rs cids]|e0] o1] w1] eqn:Hp.
  - set (w2 := with_coll _ _).
    destruct (comparator (coll w2)) as [f|] eqn:Hf.
    + destruct (sort_Some this silent_options w2 f Hf) as (lg & -> & _).
      by destruct (silent o1).
    + by destruct (silent o1).
  - intros [= <- <-]. by eapply add_prepare_callbacks.
Qed.

(** *** The collection listens to its members *)

Lemma listening_add ms o w : inv w → listening this w → listening this (add ms o w).2.
Proof.
  intros Hinv Hlis. destruct (add ms o w) as [[[]|e] w'] eqn:Hadd; simpl.
  - apply add_Return in Hadd
      as (rs & cids & o1 & w1 & lg & Hp & Hobjs & _ & _ & _ & _
          & _ & _ & _ & _ & Hperm & _).
    pose proof (add_prepare_callbacks _ _ _ _ _ _ _ _ Hp) as Hcb.
    destruct (add_index_fold_callbacks rs w1) as [Hmono Hnew].
    intros r Hr. rewrite Hperm in Hr.
    assert (deref w' r = deref (foldl add_index w1 rs) r) as ->.
    { unfold deref. by rewrite Hobjs. }
    apply elem_of_app in Hr as [Hr|Hr]; [by apply Hnew|].
    apply Hmono. destruct Hinv as (_ & _ & Hmem & _).
    rewrite Hcb; [by apply Hlis|]. by destruct (Hmem r Hr).
  - pose proof (add_Throw_callbacks _ _ _ _ _ Hadd) as Hcb.
    apply add_Throw in Hadd as (_ & Hc & _).
    intros r Hr. rewrite Hc in Hr. destruct Hinv as (_ & _ & Hmem & _).
    rewrite Hcb; [by apply Hlis|]. by destruct (Hmem r Hr).
Qed.

Lemma listening_remove_step rm o w x :
  inv w → listening this w → (remove_step rm o w x).1.1 = Return () →
  listening this (remove_step rm o w x).2.
Proof.
  intros Hinv Hlis [[r0 Hf]|Hf]%remove_step_Return.
  - pose proof (inv_found x w r0 Hinv Hf) as Hr0.
    destruct (indexOf_elem r0 _ Hr0) as (n & Hi & Hn & _).
    destruct (remove_step_found this rm o w x r0 Hf) as [m ->].
    rewrite Hi, (splice_delete _ _ _ Hn). simpl.
    intros r Hr. simpl in Hr. destruct Hinv as (_ & Hnd & _).
    apply (elem_of_delete_NoDup _ _ _ _ Hnd Hn) in Hr as [Hr Hne].
    unfold _removeReference. rewrite deref_update_ne by done. by apply Hlis.
  - by rewrite remove_step_skip.
Qed.

Lemma listening_remove xs o w :
  inv w → listening this w → (remove xs o w).1 = Return () →
  listening this (remove xs o w).2.
Proof.
  rewrite remove_eq. unfold remove_with.
  generalize (to_array xs) as l. intros l. revert o w.
  induction l as [|x l IH]; intros o w Hinv Hlis; cbn [remove_loop]; [done|].
  pose proof (inv_remove_step this remove_nested o w x Hinv) as Hinv'.
  pose proof (listening_remove_step remove_nested o w x Hinv Hlis) as Hlis'.
  destruct (remove_step remove_nested o w x) as [[[[]|e] o'] w']; [|done].
  intros Hret. apply IH; [by apply Hinv'|by apply Hlis'|done].
Qed.

Lemma listening_sort o w : listening this w → listening this (sort o w).2.
Proof.
  intros Hlis. destruct (comparator (coll w)) as [f|] eqn:Hf.
  2:{ unfold sort. by rewrite Hf. }
  destruct (sort_Some this o w f Hf) as (lg & -> & _). simpl.
  intros r Hr. simpl in Hr. apply Hlis. by rewrite <- (sort_models_perm f w).
Qed.

Lemma listening_reset ms o w : listening this (reset ms o w).2.
Proof.
  unfold reset. set (w1 := _reset _).
  assert (listening this w1) as Hlis by (intros r []%elem_of_nil).
  pose proof (listening_add (default (Many []) ms) silent_options w1
                (inv_reset _) Hlis) as H.
  destruct (add _ silent_options w1) as [[[]|e] w2]; [|done].
  simpl in H. by destruct (silent o).
Qed.

Lemma reachable_listening w : reachable w → listening this w.
Proof.
  induction 1 as [ms cmp heap lg|ms o w Hr IH|xs o w Hr IH Hret|ms o w Hr IH|o w Hr IH].
  - unfold Parse_Collection. destruct ms; [apply listening_reset|].
    intros r []%elem_of_nil.
  - apply listening_add; [by eapply reachable_inv|done].
  - apply listening_remove; [by eapply reachable_inv|done..].
  - apply listening_reset.
  - by apply listening_sort.
Qed.

(** X5.  Whatever has been done to a collection through its constructor,
    [add], [reset], [sort] and the calls of [remove] that returned, it
    listens to every one of its members: an event of a member that has no
    special case reaches the listeners of the collection at least once. *)
Theorem member_events_reach_collection w r ev args :
  reachable w → r ∈ models (coll w) → plain ev →
  ("all", this) ∈ _callbacks (deref w r)
  ∧ ∃ n : nat,
      trigger_model r ev args w
      = (Return (),
         with_log (log w ++ Emitted (OnModel r) ev args
                     :: Emitted (OnCollection this) ev args
                     :: replicate n (Emitted (OnCollection this) ev args)) w).
Proof.
  intros Hreach Hr (Ha & Hrm & Hd & Hc).
  pose proof (reachable_listening w Hreach r Hr) as Hin.
  split; [done|].
  rewrite trigger_model_exact; [|done..|by rewrite Ha, Hrm].
  unfold subscriptions.
  destruct (filter _ (_callbacks (deref w r))) as [|cb l] eqn:E.
  - exfalso. assert (("all", this) ∈ filter (λ cb, cb = ("all", this))
                                        (_callbacks (deref w r))) as H.
    { by apply list_elem_of_filter. }
    rewrite E in H. by apply elem_of_nil in H.
  - exists (List.length l). done.
Qed.

(** *** Silence *)

Lemma remove_silent_log rm xs o w :
  silent o = true → log (remove_with rm xs o w).2 = log w.
Proof.
  unfold remove_with. generalize (to_array xs) as l. intros l. revert o w.
  induction l as [|x l IH]; intros o w Hs; cbn [remove_loop]; [done|].
  destruct (found_or_falsy x w) as [[r Hf]|[(k & Hf & _)|Hf]].
  - destruct (remove_step_found this rm o w x r Hf) as [m ->].
    rewrite Hs. rewrite IH by done. simpl. apply app_nil_r.
  - by rewrite (remove_step_native this rm o w x k Hf).
  - rewrite remove_step_skip by done. by apply IH.
Qed.

(** X6.  With [silent] set, [add], [remove], [sort], [reset] and the
    continuation of [fetch] tell nobody anything, whether they return or
    throw: no event on a model, none on the collection. *)
Theorem silent_operations_emit_nothing o w :
  silent o = true →
  (∀ ms, log (add ms o w).2 = log w)
  ∧ (∀ xs, log (remove xs o w).2 = log w)
  ∧ log (sort o w).2 = log w
  ∧ (∀ ms, log (reset ms o w).2 = log w)
  ∧ (∀ adding results, log (fetch_then adding results o w).2 = log w).
Proof.
  intros Hs.
  assert (∀ ms, log (reset ms o w).2 = log w) as Hreset.
  { intros ms. rewrite reset_log, Hs. destruct (reset ms o w).1; apply app_nil_r. }
  split_and!.
  - intros ms. by apply add_silent_log.
  - intros xs. rewrite remove_eq. by apply remove_silent_log.
  - unfold sort. destruct (comparator (coll w)); [|done]. by rewrite Hs.
  - done.
  - intros [] results; unfold fetch_then; [by apply add_silent_log|apply Hreset].
Qed.

(** *** reset at its edges *)

(** X7.  [reset()] and [reset([])] empty the collection and return: no
    member, length 0, both tables empty, the comparator kept, every
    former member detached, and one ['reset'] event unless silenced. *)
Theorem reset_with_nothing_empties ms o w :
  to_array (default (Many []) ms) = [] →
  ∃ w', reset ms o w = (Return (), w')
        ∧ coll w' = MkCollection 0 [] ∅ ∅ (comparator (coll w))
        ∧ (∀ r, r ∈ models (coll w) → detached w' r)
        ∧ saves w' = saves w
        ∧ log w' = log w ++ (if silent o then []
                             else [Emitted (OnCollection this) "reset"
                                     [ArgC this; ArgO o]]).
Proof.
  intros Hnil.
  destruct (detach_fold this (models (coll w)) w) as (Hc & Hl & Hs & _ & _ & Hdet).
  fold (detach_all w) in Hc, Hl, Hs, Hdet.
  assert (∃ w'', add (default (Many []) ms) silent_options (_reset (detach_all w))
                 = (Return (), w'')
                 ∧ coll w'' = MkCollection 0 [] ∅ ∅ (comparator (coll w))
                 ∧ objs w'' = objs (detach_all w)
                 ∧ saves w'' = saves w ∧ log w'' = log w) as (w'' & Hadd & Hc' & Ho' & Hs' & Hl').
  { rewrite add_unfold, Hnil. simpl. rewrite Hc.
    destruct (comparator (coll w)) as [[key|cmp]|]; simpl; eexists;
      (split; [reflexivity|]); simpl; by rewrite ?app_nil_r, ?Hc. }
  unfold reset. rewrite Hadd.
  assert (∀ r, r ∈ models (coll w) → detached w'' r) as Hdet'.
  { intros r Hr. unfold detached, deref. rewrite Ho'. by apply Hdet. }
  destruct (silent o); eexists; (split; [reflexivity|]); simpl;
    split_and!; try done; by rewrite ?app_nil_r, ?Hl'.
Qed.

(** X8.  [reset] is not atomic.  When the new items are refused (one is
    invalid, or two of them collide) [reset] throws after it has let go
    of the old content: the collection is left empty, no former member is
    listened to any more, and no ['reset'] event, nor any other, has been
    emitted. *)
Theorem reset_that_throws_leaves_empty ms o w e w' :
  reset ms o w = (Throw e, w') →
  coll w' = MkCollection 0 [] ∅ ∅ (comparator (coll w))
  ∧ (∀ r, r ∈ models (coll w) → ("all", this) ∉ _callbacks (deref w' r))
  ∧ log w' = log w ∧ saves w' = saves w
  ∧ (e = InvalidModel ∨ e = DuplicateCid ∨ e = DuplicateId).
Proof.
  unfold reset.
  destruct (add _ silent_options _) as [[[]|e0] w''] eqn:Hadd.
  { by destruct (silent o). }
  intros [= <- <-].
  destruct (detach_fold this (models (coll w)) w) as (Hc & Hl & Hs & Hdom & _ & Hdet).
  fold (detach_all w) in Hc, Hl, Hs, Hdom, Hdet.
  pose proof (add_Throw_callbacks _ _ _ _ _ Hadd) as Hcb.
  apply add_Throw in Hadd as (_ & Hc' & Hl' & Hs' & [Hne Hne'] & _).
  split_and!.
  - rewrite Hc'. simpl. by rewrite Hc.
  - intros r Hr. rewrite Hcb; [by apply Hdet|].
    simpl. rewrite <- Hdom. set_solver.
  - rewrite Hl'. simpl. done.
  - rewrite Hs'. simpl. done.
  - destruct e0; auto; done.
Qed.

(** *** sort *)


(** *** remove only takes away *)

Lemma remove_step_shrinks rm o w x :
  let w' := (remove_step rm o w x).2 in
  models (coll w') `sublist_of` models (coll w)
  ∧ _byCid (coll w') ⊆ _byCid (coll w)
  ∧ _byId (coll w') ⊆ _byId (coll w)
  ∧ length (coll w') ≤ length (coll w)
  ∧ comparator (coll w') = comparator (coll w)
  ∧ saves w' = saves w.
Proof.
  destruct (found_or_falsy x w) as [[r Hf]|[(k & Hf & _)|Hf]].
  - destruct (remove_step_found this rm o w x r Hf) as [m ->]. simpl.
    split_and!; try done.
    + apply splice_delete_sublist.
    + apply delete_subseteq.
    + apply delete_subseteq.
    + lia.
  - rewrite (remove_step_native this rm o w x k Hf). simpl.
    split_and!; try done.
    + apply splice_delete_sublist.
    + apply delete_subseteq.
    + apply delete_subseteq.
    + lia.
  - rewrite remove_step_skip by done. simpl. split_and!; try done; lia.
Qed.

(** X10.  [remove] only takes away, whatever it is given, whatever state
    the collection is in, and whether it returns or throws: [models]
    afterwards is a subsequence of [models] before (the order of the
    remaining members is kept), both tables have lost entries at most,
    [length] has not grown, and the comparator is the same. *)
Theorem remove_only_takes_away xs o w :
  let w' := (remove xs o w).2 in
  models (coll w') `sublist_of` models (coll w)
  ∧ _byCid (coll w') ⊆ _byCid (coll w)
  ∧ _byId (coll w') ⊆ _byId (coll w)
  ∧ length (coll w') ≤ length (coll w)
  ∧ comparator (coll w') = comparator (coll w)
  ∧ saves w' = saves w.
Proof.
  rewrite remove_eq. unfold remove_with. cbn [snd].
  generalize (to_array xs) as l. intros l. revert o w.
  induction l as [|x l IH]; intros o w; cbn [remove_loop].
  - simpl. split_and!; try done; lia.
  - pose proof (remove_step_shrinks remove_nested o w x) as Hstep.
    destruct (remove_step remove_nested o w x) as [[[[]|e] o1] w1];
      simpl in Hstep; [|done].
    destruct Hstep as (H1 & H2 & H3 & H4 & H5 & H6).
    destruct (IH o1 w1) as (G1 & G2 & G3 & G4 & G5 & G6).
    split_and!.
    + by etrans.
    + by etrans.
    + by etrans.
    + lia.
    + congruence.
    + congruence.
Qed.

(** *** When add returns *)

Lemma accepted_of_batch_ok c w cids ids rs :
  batch_ok c w rs →
  (∀ r, r ∈ rs →
     cids !! cid (deref w r) = None
     ∧ (_isNullOrUndefined (id (deref w r)) = false →
        ids !! to_key (id (deref w r)) = None)) →
  accepted c w cids ids rs.
Proof.
  revert cids ids. induction rs as [|r rs IH]; intros cids ids [Hpair Hfree] Hacc; simpl.
  - done.
  - destruct (Hfree r) as [F1 F2]; [by left|].
    destruct (Hacc r) as [A1 A2]; [by left|].
    apply lookup_model_undefined in F1 as [F1 _].
    split_and!; [done..| |].
    { intros Hnn. split; [by apply A2|].
      by apply (lookup_model_undefined (_byId c)), F2. }
    apply IH.
    + split.
      * intros i j a b Hij Ha Hb. apply (Hpair (S i) (S j)); [lia|done..].
      * intros r' Hr'. apply Hfree. by right.
    + intros r' Hr'. destruct (Hacc r') as [A3 A4]; [by right|].
      apply list_elem_of_lookup_1 in Hr' as [j Hj].
      destruct (Hpair 0%nat (S j) r r') as [P1 P2]; [lia|done..|].
      split.
      * by rewrite lookup_insert_ne.
      * intros Hnn. rewrite lookup_insert_ne; auto.
Qed.

Lemma own_names_of_batch_ok c w rs : batch_ok c w rs → own_names w rs.
Proof.
  intros [_ Hfree] r Hr. destruct (Hfree r Hr) as [F1 F2]. split.
  - by apply (lookup_model_undefined (_byCid c)), F1.
  - intros Hnn. by apply (lookup_model_undefined (_byId c)), F2.
Qed.

Lemma batch_ok_of_accepted c w cids ids rs :
  accepted c w cids ids rs → own_names w rs → batch_ok c w rs.
Proof.
  intros Hacc Hown. split.
  - by apply (accepted_distinct c w cids ids).
  - intros r Hr. destruct (accepted_lookup c w cids ids rs Hacc r Hr) as (_ & G1 & G2).
    destruct (Hown r Hr) as [I1 I2].
    split; [by apply lookup_model_undefined|].
    intros Hnn. apply lookup_model_undefined. split; [by destruct (G2 Hnn)|by apply I2].
Qed.

(** X11.  [add] returns exactly when every input is, or becomes, a valid
    model and the batch is in order: client ids distinct from one
    another, with [_byCid] answering to none of them, and every server id
    that is neither null nor undefined distinct from the ids before it in
    the batch, with [_byId] not answering to it.  A table answers to a
    name when it holds an entry under it or inherits the name from
    [Object.prototype] (["constructor"], ["toString"], ...).  In every
    other case [add] throws. *)
Theorem add_returns_iff ms o w :
  (add ms o w).1 = Return ()
  ↔ ∃ rs o1 w1,
      prepare_all (to_array ms) o w = (Some <$> rs, o1, w1)
      ∧ batch_ok (coll w) w1 rs.
Proof.
  rewrite add_outcome. split.
  - destruct (add_prepare (to_array ms) o ∅ ∅ w) as [[[[rs cids]|e] o1] w1] eqn:Hp;
      [|done].
    intros _.
    pose proof (add_prepare_own_names this ModelConstructor _validate
                  _ _ _ _ _ _ _ _ _ Hp) as Hown.
    apply add_prepare_Return in Hp
      as (_ & _ & _ & _ & _ & _ & _ & _ & Hacc & _ & Hpa & _).
    exists rs, o1, w1. split; [done|]. by eapply batch_ok_of_accepted.
  - intros (rs & o1 & w1 & Hpa & Hok).
    destruct (add_prepare_accepts this ModelConstructor _validate
                (to_array ms) o ∅ ∅ w rs o1 w1 Hpa) as [cids' ->]; [| |done].
    + apply accepted_of_batch_ok; [done|].
      intros r _. split; [apply lookup_empty|]. intros _. apply lookup_empty.
    + by eapply own_names_of_batch_ok.
Qed.

(** X12.  An [add] that throws, for whatever reason, has changed nothing
    that can be observed through the collection: its fields, the events
    emitted and the pending saves are the same, and every object that
    existed keeps its client id, server id, attributes and handlers.  The
    error is one of the three errors of the first loop. *)
Theorem add_that_throws_changes_nothing ms o w e w' :
  add ms o w = (Throw e, w') →
  coll w' = coll w ∧ log w' = log w ∧ saves w' = saves w
  ∧ (∀ r, r ∈ dom (objs w) →
       r ∈ dom (objs w')
       ∧ cid (deref w' r) = cid (deref w r)
       ∧ id (deref w' r) = id (deref w r)
       ∧ attributes (deref w' r) = attributes (deref w r)
       ∧ _callbacks (deref w' r) = _callbacks (deref w r))
  ∧ (e = InvalidModel ∨ e = DuplicateCid ∨ e = DuplicateId).
Proof.
  intros Hadd.
  pose proof (add_Throw_callbacks _ _ _ _ _ Hadd) as Hcb.
  apply add_Throw in Hadd as ([Hd Hst] & Hc & Hl & Hs & [Hne Hne'] & _).
  split_and!; try done.
  - intros r Hr. destruct (Hst r Hr) as (? & ? & ?).
    split_and!; try done; [by apply Hd|by apply Hcb].
  - destruct e; auto; done.
Qed.

(** *** Where add puts the batch *)

Lemma add_Return_unsorted ms o w w' :
  comparator (coll w) = None →
  add ms o w = (Return (), w') →
  ∃ rs o1 w1,
    prepare_all (to_array ms) o w = (Some <$> rs, o1, w1)
    ∧ models (coll w')
      = splice (models (coll w))
          (default (Z.of_nat (List.length (models (coll w)))) (at_ o)) 0 rs.
Proof.
  intros Hcmp. rewrite add_unfold. cbv zeta.
  destruct (add_prepare _ o ∅ ∅ w) as [[[[rs cids]|e0] o1] w1] eqn:Hp; [|done].
  pose proof (add_prepare_Return _ _ _ _ _ _ _ _ _ _ _ _ Hp)
    as (_ & Hc & _ & _ & _ & Hat & _ & _ & _ & _ & Hpa & _).
  destruct (add_index_fold this rs w1)
    as (_ & _ & _ & _ & _ & Hms2 & Hcmp2 & _).
  set (w2 := foldl add_index w1 rs) in *.
  set (w3 := with_coll _ w2).
  assert (comparator (coll w3) = None) as ->.
  { unfold w3. simpl. by rewrite Hcmp2, Hc. }
  destruct (add_finish this cids o1 w3) as (lg & -> & _).
  intros [= <-]. exists rs, o1, w1. split; [done|].
  simpl. rewrite Hms2, Hc, Hat. by destruct (at_ o).
Qed.

Lemma at_index_lookup (i : nat) w :
  at_index (Z.of_nat i) w
  = match models (coll w) !! i with Some r => VObj r | None => VUndefined end.
Proof.
  unfold at_index. destruct (Z.of_nat i <? 0) eqn:E; [apply Z.ltb_lt in E; lia|].
  by rewrite Nat2Z.id.
Qed.

(** X13.  In a collection without comparator [add] puts the batch, in the
    order given, where [options.at] says: at the end when [at] is absent
    or beyond the end, otherwise in front of the model now at that
    position, the models behind moving up.  [at(i + j)] is then the
    [j]-th model of the batch, and the models in front of [i] stay where
    they were. *)
Theorem add_puts_batch_at ms o w w' :
  comparator (coll w) = None →
  add ms o w = (Return (), w') →
  ∃ rs o1 w1,
    prepare_all (to_array ms) o w = (Some <$> rs, o1, w1)
    ∧ ((at_ o = None ∨ ∃ a, at_ o = Some a ∧ Z.of_nat (List.length (models (coll w))) ≤ a) →
       models (coll w') = models (coll w) ++ rs)
    ∧ ∀ i : nat,
        at_ o = Some (Z.of_nat i) → (i ≤ List.length (models (coll w)))%nat →
        models (coll w') = take i (models (coll w)) ++ rs ++ drop i (models (coll w))
        ∧ (∀ (j : nat) r, rs !! j = Some r → at_index (Z.of_nat (i + j)) w' = VObj r)
        ∧ (∀ j : nat, (j < i)%nat → at_index (Z.of_nat j) w' = at_index (Z.of_nat j) w)
        ∧ (∀ j : nat, (i ≤ j)%nat →
             at_index (Z.of_nat (j + List.length rs)) w' = at_index (Z.of_nat j) w).
Proof.
  intros Hcmp Hadd.
  destruct (add_Return_unsorted _ _ _ _ Hcmp Hadd) as (rs & o1 & w1 & Hpa & Hms).
  exists rs, o1, w1. split; [done|]. split.
  - intros Hat. rewrite Hms. unfold splice, splice_start.
    assert (Z.of_nat (List.length (models (coll w)))
            ≤ default (Z.of_nat (List.length (models (coll w)))) (at_ o)) as Hle.
    { destruct Hat as [->|(a & -> & Ha)]; simpl; lia. }
    destruct (_ <? 0) eqn:E; [lia|].
    rewrite Z.min_r by done. rewrite Nat2Z.id, Nat.add_0_r.
    by rewrite take_ge, drop_ge, app_nil_r by lia.
  - intros i Hat Hi.
    assert (models (coll w') = take i (models (coll w)) ++ rs ++ drop i (models (coll w)))
      as Hms'.
    { rewrite Hms, Hat. simpl. unfold splice, splice_start.
      destruct (_ <? 0) eqn:E; [lia|].
      rewrite Z.min_l by lia. by rewrite Nat2Z.id, Nat.add_0_r. }
    assert (List.length (take i (models (coll w))) = i) as Hlen.
    { rewrite length_take. lia. }
    split_and!; [done| | |].
    + intros j r Hj. rewrite at_index_lookup, Hms'.
      rewrite lookup_app_r by lia. rewrite Hlen.
      replace (i + j - i)%nat with j by lia.
      rewrite lookup_app_l by (by eapply lookup_lt_Some). by rewrite Hj.
    + intros j Hj. rewrite !at_index_lookup, Hms'.
      rewrite lookup_app_l by lia. by rewrite lookup_take_lt.
    + intros j Hj. rewrite !at_index_lookup, Hms'.
      rewrite lookup_app_r by lia. rewrite Hlen.
      rewrite lookup_app_r by lia. rewrite lookup_drop.
      by replace (i + (j + List.length rs - i - List.length rs))%nat with j by lia.
Qed.

(** X14.  After an [add] that returns, every model of the batch is a
    member and can be looked up: [getByCid] finds it by the model or by
    its client id (when that is not empty), [get] finds it by the model
    when its server id is truthy; [length] has grown by the size of the
    batch and the former members are all still there. *)
Theorem added_models_are_found ms o w w' :
  add ms o w = (Return (), w') →
  ∃ rs o1 w1,
    prepare_all (to_array ms) o w = (Some <$> rs, o1, w1)
    ∧ models (coll w') ≡ₚ rs ++ models (coll w)
    ∧ length (coll w') = length (coll w) + Z.of_nat (List.length (to_array ms))
    ∧ ∀ r, r ∈ rs →
        r ∈ models (coll w')
        ∧ (cid (deref w' r) ≠ "" →
           getByCid (VObj r) w' = VObj r
           ∧ getByCid (VStr (cid (deref w' r))) w' = VObj r)
        ∧ (truthy (id (deref w' r)) = true → get (VObj r) w' = VObj r).
Proof.
  intros Hadd.
  pose proof (add_Return_indexed _ _ _ _ _ _ _ Hadd)
    as (rs & Hlen & Hperm & Hpa & _ & Hidx).
  apply add_Return in Hadd
    as (rs' & cids & o1 & w1 & lg & Hp & _ & _ & _ & _ & _ & Hl & _).
  apply add_prepare_Return in Hp
    as (_ & _ & _ & _ & _ & _ & _ & _ & _ & _ & Hpa' & _).
  rewrite Hpa' in Hpa. simpl in Hpa. apply (inj (fmap Some)) in Hpa as <-.
  exists rs', o1, w1. split_and!; [done..|by rewrite Hl, Hlen|].
  intros r Hr. destruct (Hidx r Hr) as [Hc Hi]. split_and!.
  - rewrite Hperm. apply elem_of_app. by left.
  - intros Hne.
    assert (String.eqb (cid (deref w' r)) "" = false) as Hs.
    { by apply String.eqb_neq. }
    split; unfold getByCid, js_or, lookup_model, prop_cid; simpl;
      rewrite Hs; simpl; by rewrite Hc.
  - intros Ht. rewrite get_of_model by done. unfold lookup_model. by rewrite (Hi Ht).
Qed.

(** *** The array and the table agree *)

(** X15.  In a collection that satisfies its invariant the array and the
    client-id table tell the same story: for a model with a non-empty
    client id, [indexOf] (the proxy to Underscore that [remove] uses)
    finds it in [models] exactly when [getByCid] returns it. *)
Theorem indexOf_agrees_with_getByCid w r :
  inv w → cid (deref w r) ≠ "" →
  (0 ≤ indexOf r (models (coll w)) ↔ getByCid (VObj r) w = VObj r)
  ∧ (indexOf r (models (coll w)) = -1 ↔ getByCid (VObj r) w ≠ VObj r).
Proof.
  intros Hinv Hcid.
  assert (r ∈ models (coll w) ↔ getByCid (VObj r) w = VObj r) as Hiff.
  { split.
    - intros Hr. by destruct (member_found w r Hinv Hr Hcid).
    - unfold getByCid. simpl. intros Hk%lookup_model_VObj.
      destruct Hinv as (_ & _ & _ & Hc & _). by destruct (Hc _ _ Hk). }
  destruct (decide (r ∈ models (coll w))) as [Hr|Hr].
  - destruct (indexOf_elem r _ Hr) as (n & -> & _). split.
    + split; [by intros _; apply Hiff|lia].
    + split; [lia|]. intros Hne. by apply Hiff in Hr.
  - rewrite (indexOf_not_elem r _ Hr). split.
    + split; [lia|]. intros Hg. by apply Hiff in Hg.
    + split; [|done]. intros _ Hg. by apply Hiff in Hg.
Qed.

(** *** create and fetch *)

Lemma prepare_all_instances rs o w :
  (prepare_all (Instance <$> rs) o w).1.1 = Some <$> rs.
Proof.
  revert o w. induction rs as [|r rs IH]; intros o w; [done|].
  cbn [fmap list_fmap prepare_all]. simpl.
  destruct (collection (deref w r)).
  - specialize (IH o w). destruct (prepare_all _ o w) as [[ps o1] w1].
    simpl in *. by rewrite IH.
  - specialize (IH o (update_object r (set_collection (Some this)) w)).
    destruct (prepare_all _ o _) as [[ps o1] w1]. simpl in *. by rewrite IH.
Qed.

Lemma add_Throw_prepare ms o w e w' :
  add ms o w = (Throw e, w') →
  ∃ o1, add_prepare (to_array ms) o ∅ ∅ w = (Throw e, o1, w').
Proof.
  rewrite add_unfold. cbv zeta.
  destruct (add_prepare _ o ∅ ∅ w) as [[[[rs cids]|e0] o1] w1] eqn:Hp.
  - set (w2 := with_coll _ _).
    destruct (comparator (coll w2)) as [f|] eqn:Hf.
    + destruct (sort_Some this silent_options w2 f Hf) as (lg & -> & _).
      by destruct (silent o1).
    + by destruct (silent o1).
  - intros [= <- <-]. eauto.
Qed.

Lemma defined_inherited m k : defined ∅ k = true → defined m k = true.
Proof.
  unfold defined, lookup_model. rewrite lookup_empty.
  destruct (m !! k); [done|]. by destruct (inherited k).
Qed.

(** Why the first loop refuses a single model. *)
Lemma add_prepare_single_Throw r o w e o' w' :
  add_prepare [Instance r] o ∅ ∅ w = (Throw e, o', w') →
  (e = DuplicateCid ∧ defined (_byCid (coll w)) (cid (deref w r)) = true)
  ∨ (e = DuplicateId
     ∧ _isNullOrUndefined (id (deref w r)) = false
     ∧ defined (_byId (coll w)) (to_key (id (deref w r))) = true).
Proof.
  cbn [add_prepare _prepareModel].
  destruct (collection (deref w r)); cbv zeta; rewrite ?deref_update_eq;
    change (coll (update_object r (set_collection (Some this)) w)) with (coll w);
    cbn [cid id set_collection].
  all: destruct (defined _ _ || defined _ _) eqn:E1.
  all: try (intros [= <- <- <-]; left; split; [done|];
            apply orb_true_iff in E1 as [E1|E1]; [by apply defined_inherited|done]).
  all: destruct (_isNullOrUndefined (id (deref w r))) eqn:En.
  all: cbn [negb andb].
  all: try (by intros [= ]).
  all: destruct (defined _ (to_key _) || defined _ _) eqn:E2; [|done].
  all: intros [= <- <- <-]; right; split_and!; [done..|].
  all: apply orb_true_iff in E2 as [E2|E2]; [by apply defined_inherited|done].
Qed.

(** X16.  [create] throws only when it does not wait, and then because
    [add] finds the model that [create] has prepared in the way: with the
    duplicate-cid error [_byCid] answers to its client id, with the
    duplicate-id error its server id is neither null nor undefined and
    [_byId] answers to it (by an entry of a member, or by a name the
    table inherits).  No save is issued, and the fields of the
    collection and the events are as before.  With [wait] set, [create]
    itself never throws. *)
Theorem create_throws_only_without_wait it o w e w' :
  create it o w = (Throw e, w') →
  wait o = false
  ∧ coll w' = coll w ∧ log w' = log w ∧ saves w' = saves w
  ∧ ∃ r o1 w1,
      _prepareModel it o w = (Some r, o1, w1)
      ∧ ((e = DuplicateCid
          ∧ lookup_model (_byCid (coll w)) (cid (deref w1 r)) ≠ VUndefined)
         ∨ (e = DuplicateId
            ∧ _isNullOrUndefined (id (deref w1 r)) = false
            ∧ lookup_model (_byId (coll w)) (to_key (id (deref w1 r)))
              ≠ VUndefined)).
Proof.
  unfold create.
  destruct (_prepareModel it o w) as [[m o1] w1] eqn:Hp.
  pose proof (_prepareModel_spec _ _ _ _ _ _ _ _ _ Hp)
    as (_ & Hc & Hl & Hs & _ & _ & Hw & _).
  destruct m as [r|]; [|done].
  rewrite Hw. destruct (wait o); [done|].
  pose proof (add_run_add this ModelConstructor _validate (One (Instance r)) o1 w1)
    as Hadd.
  destruct (add_run (One (Instance r)) o1 w1) as [[[[]|e0] o2] w2]; [done|].
  simpl in Hadd. intros [= <- <-].
  pose proof (add_Throw _ _ _ _ _ _ _ _ Hadd) as (_ & Hc' & Hl' & Hs' & _).
  apply add_Throw_prepare in Hadd as [o3 Hprep].
  assert (∀ m k, defined m k = true → lookup_model m k ≠ VUndefined) as Hdef.
  { intros m k Hd E. unfold defined in Hd. by rewrite E in Hd. }
  split_and!; try congruence.
  exists r, o1, w1. split; [done|].
  apply add_prepare_single_Throw in Hprep as [[-> Hd]|(-> & Hnn & Hd)].
  - left. split; [done|]. rewrite <- Hc. by apply Hdef.
  - right. split_and!; [done..|]. rewrite <- Hc. by apply Hdef.
Qed.

(** X17.  When the query of a [fetch] has resolved and the continuation
    returns: with [options.add] the results join the members, which all
    stay; without it the results replace them, so that the members are
    exactly the results.  A continuation with [options.add] that throws
    leaves the collection as it was; without [options.add] it leaves it
    empty. *)
Theorem fetch_adds_or_replaces adding results o w :
  (∀ w', fetch_then adding results o w = (Return (), w') →
         models (coll w') ≡ₚ (if adding then results ++ models (coll w) else results)
         ∧ NoDup results)
  ∧ (∀ e w', fetch_then adding results o w = (Throw e, w') →
             coll w' = if adding then coll w
                       else MkCollection 0 [] ∅ ∅ (comparator (coll w))).
Proof.
  split.
  - intros w' H. destruct adding; unfold fetch_then in H.
    + pose proof (add_Return_indexed _ _ _ _ _ _ _ H) as (rs & _ & Hperm & Hpa & _).
      apply add_Return in H as (rs' & cids & o1 & w1 & lg & Hp & _).
      apply add_prepare_Return in Hp
        as (_ & _ & _ & _ & _ & _ & _ & _ & Hacc & _ & Hpa' & _).
      change (to_array (Many (Instance <$> results))) with (Instance <$> results)
        in Hpa, Hpa'.
      rewrite prepare_all_instances in Hpa. apply (inj (fmap Some)) in Hpa as <-.
      pose proof (prepare_all_instances results o w) as E. rewrite Hpa' in E.
      simpl in E. apply (inj (fmap Some)) in E as ->.
      split; [done|]. by eapply accepted_NoDup.
    + apply reset_Return in H as (w'' & Hadd & ->).
      pose proof (add_Return_indexed _ _ _ _ _ _ _ Hadd) as (rs & _ & Hperm & Hpa & _).
      apply add_Return in Hadd as (rs' & cids & o1 & w1 & lg & Hp & _).
      apply add_prepare_Return in Hp
        as (_ & _ & _ & _ & _ & _ & _ & _ & Hacc & _ & Hpa' & _).
      change (to_array (default (Many []) (Some (Many (Instance <$> results)))))
        with (Instance <$> results) in Hpa, Hpa'.
      rewrite prepare_all_instances in Hpa. apply (inj (fmap Some)) in Hpa as <-.
      pose proof (prepare_all_instances results silent_options
                    (_reset (detach_all w))) as E.
      rewrite Hpa' in E. simpl in E. apply (inj (fmap Some)) in E as ->.
      simpl in Hperm. rewrite app_nil_r in Hperm.
      split; [by destruct (silent o)|by eapply accepted_NoDup].
  - intros e w' H. destruct adding; unfold fetch_then in H.
    + by apply add_Throw in H as (_ & ? & _).
    + unfold reset in H.
      destruct (add _ silent_options _) as [[[]|e0] w''] eqn:Hadd.
      { by destruct (silent o). }
      injection H as <- <-.
      apply add_Throw in Hadd as (_ & -> & _). simpl.
      destruct (detach_fold this (models (coll w)) w) as (Hc & _).
      fold (detach_all w) in Hc. by rewrite Hc.
Qed.

(** *** The events of add *)

Lemma add_Return_loop ms o w w' :
  add ms o w = (Return (), w') →
  ∃ rs cids o1 w1 W,
    add_prepare (to_array ms) o ∅ ∅ w = (Return (rs, cids), o1, w1)
    ∧ objs W = objs (foldl add_index w1 rs)
    ∧ log W = log w
    ∧ models (coll W) ≡ₚ rs ++ models (coll w)
    ∧ w' = if silent o then W
           else (add_announce_loop cids
                   (seq 0 (List.length (models (coll W)))) o1 W).2.
Proof.
  rewrite add_unfold. cbv zeta.
  destruct (add_prepare _ o ∅ ∅ w) as [[[[rs cids]|e0] o1] w1] eqn:Hp; [|done].
  pose proof (add_prepare_Return _ _ _ _ _ _ _ _ _ _ _ _ Hp)
    as (_ & Hc & Hl & _ & Hsi & _).
  destruct (add_index_fold this rs w1) as (_ & _ & Hl2 & _ & _ & Hms2 & _).
  set (w2 := foldl add_index w1 rs) in *.
  set (w3 := with_coll _ w2).
  assert (models (coll w3) ≡ₚ rs ++ models (coll w)) as Hperm.
  { unfold w3. simpl. rewrite splice_insert_perm. by rewrite Hms2, Hc. }
  destruct (comparator (coll w3)) as [f|] eqn:Hf.
  - destruct (sort_Some this silent_options w3 f Hf) as (lg0 & -> & ->).
    change (silent silent_options) with true. cbv iota. rewrite app_nil_r.
    set (W := with_log _ _). rewrite <- Hsi.
    intros H. exists rs, cids, o1, w1, W. split_and!; try done.
    + unfold W. simpl. by rewrite Hl2, Hl.
    + unfold W. simpl. etrans; [apply sort_models_perm|exact Hperm].
    + destruct (silent o1); by injection H as <-.
  - rewrite <- Hsi. intros H. exists rs, cids, o1, w1, w3. split_and!; try done.
    + unfold w3. simpl. by rewrite Hl2, Hl.
    + destruct (silent o1); by injection H as <-.
Qed.

Lemma announce_block_ext cids o o' lg W i :
  (∀ z, set_index z o' = set_index z o) →
  announce_block this cids o' (with_log lg W) i = announce_block this cids o W i.
Proof.
  intros Ho. unfold announce_block, add_events. simpl.
  change (deref (with_log lg W)) with (deref W).
  destruct (models (coll W) !! i) as [r|]; [|done].
  destruct (defined cids (cid (deref W r))); [|done].
  by rewrite Ho.
Qed.

Lemma add_announce_step cids o W i :
  ∃ o', add_announce cids o W i
        = (Return (), o', with_log (log W ++ announce_block this cids o W i) W)
        ∧ ∀ z, set_index z o' = set_index z o.
Proof.
  unfold add_announce, announce_block.
  destruct (models (coll W) !! i) as [r|].
  2:{ exists o. rewrite app_nil_r. split; [by destruct W|done]. }
  destruct (defined cids (cid (deref W r))).
  2:{ exists o. rewrite app_nil_r. split; [by destruct W|done]. }
  rewrite trigger_model_exact; [|done|done|simpl; by rewrite Pos.eqb_refl].
  eexists. split; [reflexivity|done].
Qed.

Lemma add_announce_exact cids l o W :
  ∃ o',
    add_announce_loop cids l o W
    = (Return (), o',
       with_log (log W ++ concat (map (announce_block this cids o W) l)) W)
    ∧ ∀ z, set_index z o' = set_index z o.
Proof.
  revert o W. induction l as [|i l IH]; intros o W; cbn [add_announce_loop map concat].
  - exists o. rewrite app_nil_r. split; [by destruct W|done].
  - destruct (add_announce_step cids o W i) as (o1 & -> & Ho1).
    destruct (IH o1 (with_log (log W ++ announce_block this cids o W i) W))
      as (o' & -> & Ho').
    exists o'. split; [|intros z; by rewrite Ho', Ho1].
    assert (map (announce_block this cids o1
                   (with_log (log W ++ announce_block this cids o W i) W)) l
            = map (announce_block this cids o W) l) as ->.
    { apply map_ext. intros k. by apply announce_block_ext. }
    unfold with_log. cbn [log objs coll saves concat]. by rewrite <- app_assoc.
Qed.

Lemma new_members_by_cid ms o w rs cids o1 w1 W r :
  inv w →
  add_prepare (to_array ms) o ∅ ∅ w = (Return (rs, cids), o1, w1) →
  objs W = objs (foldl add_index w1 rs) →
  r ∈ rs ++ models (coll w) →
  defined cids (cid (deref W r))
  = bool_decide (r ∈ rs) || inherited (cid (deref W r)).
Proof.
  intros Hinv Hp Hobjs Hr.
  apply add_prepare_Return in Hp
    as (Hst & Hc & _ & _ & _ & _ & _ & _ & Hacc & -> & _).
  pose proof (inv_stable _ _ Hst Hc Hinv) as (_ & _ & Hmem1 & _).
  destruct (add_index_fold this rs w1) as (Hs2 & _).
  assert (cid (deref W r) = cid (deref w1 r)) as ->.
  { unfold deref at 1. rewrite Hobjs. apply Hs2. }
  pose proof (accepted_distinct _ _ _ _ _ Hacc) as Hdist.
  assert (∀ k x, index_cids w1 rs ∅ !! k = Some x ↔ x ∈ rs ∧ cid (deref w1 x) = k)
    as Hlook.
  { intros k x. rewrite index_cids_lookup.
    - rewrite lookup_empty. naive_solver.
    - intros i j a b Hij Ha Hb. by destruct (Hdist i j a b Hij Ha Hb). }
  destruct (decide (r ∈ rs)) as [Hin|Hnin].
  - rewrite bool_decide_eq_true_2 by done.
    by rewrite (defined_Some _ _ r (proj2 (Hlook _ r) (conj Hin eq_refl))).
  - rewrite bool_decide_eq_false_2 by done. cbn [orb].
    unfold defined, lookup_model.
    destruct (index_cids w1 rs ∅ !! _) as [x|] eqn:E.
    2:{ by destruct (inherited _). }
    apply Hlook in E as [Hx E]. exfalso.
    apply elem_of_app in Hr as [?|Hr]; [done|].
    rewrite Hc in Hmem1. destruct (Hmem1 r Hr) as [_ G].
    destruct (accepted_lookup _ _ _ _ _ Hacc x Hx) as (_ & G' & _).
    rewrite E in G'. congruence.
Qed.

(** X18.  Unless silenced, an [add] that returns fires one ['add'] event
    for each member whose client id the table of the batch answers to,
    in the order of their final positions in [models]: that is each model
    of the batch and, should there be one, a member whose client id is a
    name inherited from [Object.prototype] ([add] itself admits none).
    Each event carries that position as [options.index], with the
    options as the first loop left them, and is handed on to the
    listeners of the collection once per registration.  Nothing else is
    emitted. *)
Theorem add_announces_new_members ms o w w' :
  inv w →
  add ms o w = (Return (), w') →
  ∃ rs o1 w1,
    prepare_all (to_array ms) o w = (Some <$> rs, o1, w1)
    ∧ log w'
      = log w ++
        (if silent o then []
         else concat (imap (λ i r, if bool_decide (r ∈ rs)
                                      || inherited (cid (deref w' r))
                                   then add_events o1 w' i r else [])
                        (models (coll w')))).
Proof.
  intros Hinv Hadd.
  apply add_Return_loop in Hadd
    as (rs & cids & o1 & w1 & W & Hp & Hobjs & Hl & Hperm & Hw').
  pose proof (add_prepare_Return _ _ _ _ _ _ _ _ _ _ _ _ Hp)
    as (_ & _ & _ & _ & _ & _ & _ & _ & _ & _ & Hpa & _).
  exists rs, o1, w1. split; [done|].
  destruct (silent o).
  { subst w'. by rewrite Hl, app_nil_r. }
  destruct (add_announce_exact cids (seq 0 (List.length (models (coll W)))) o1 W)
    as (o' & E & _).
  rewrite E in Hw'. simpl in Hw'. subst w'. simpl. rewrite Hl. f_equal.
  unfold announce_block. rewrite (map_seq_lookup
    (λ i r, if defined cids (cid (deref W r)) then add_events o1 W i r else [])).
  f_equal. apply imap_ext. intros i r Hi.
  change (deref (with_log _ W) r) with (deref W r).
  rewrite (new_members_by_cid ms o w rs cids o1 w1 W r Hinv Hp Hobjs); [done|].
  rewrite <- Hperm. by eapply list_elem_of_lookup_2.
Qed.

(** *** add and remove undo each other *)

Lemma splice_insert_delete l i r :
  r ∉ l → splice (splice l i 0 [r]) (indexOf r (splice l i 0 [r])) 1 [] = l.
Proof.
  intros Hr.
  assert (∃ s, splice l i 0 [r] = take s l ++ r :: drop s l) as [s ->].
  { exists (splice_start (List.length l) i). unfold splice. by rewrite Nat.add_0_r. }
  assert ((take s l ++ r :: drop s l) !! List.length (take s l) = Some r) as Hmid.
  { apply list_lookup_middle. done. }
  destruct (indexOf_elem r (take s l ++ r :: drop s l)) as (n & -> & Hn & Hmin).
  { apply elem_of_app. right. by left. }
  assert (n = List.length (take s l)) as ->.
  { destruct (lt_eq_lt_dec n (List.length (take s l))) as [[Hlt| ->]|Hgt]; [|done|].
    - exfalso. apply Hr. rewrite lookup_app_l in Hn by done.
      apply lookup_take_Some in Hn as [Hn _]. by eapply list_elem_of_lookup_2.
    - exfalso. by apply (Hmin _ Hgt). }
  rewrite (splice_delete _ _ r Hmid), delete_middle. apply take_drop.
Qed.

(** X19.  In a collection without comparator, removing a model right
    after it was added on its own undoes the [add]: [remove] returns,
    and the fields of the collection and the heap are what they were,
    wherever [options.at] had put the model.  The model must have been free (no collection, not
    listened to by this one) and have a client id; a model without server
    id must not find the key of its missing id taken in [_byId], which
    [remove] deletes without looking. *)
Theorem add_then_remove_restores r o o' w w1 :
  inv w →
  comparator (coll w) = None →
  collection (deref w r) = None →
  ("all", this) ∉ _callbacks (deref w r) →
  cid (deref w r) ≠ "" →
  (_isNullOrUndefined (id (deref w r)) = true →
   _byId (coll w) !! to_key (id (deref w r)) = None) →
  add (One (Instance r)) o w = (Return (), w1) →
  (remove (One (VObj r)) o' w1).1 = Return ()
  ∧ coll (remove (One (VObj r)) o' w1).2 = coll w
  ∧ objs (remove (One (VObj r)) o' w1).2 = objs w.
Proof.
  intros Hinv Hcmp Hcol Hcb Hcid Hid Hadd.
  assert (r ∈ dom (objs w)) as Hdom.
  { apply elem_of_dom. unfold deref in Hcid. rewrite lookup_total_alt in Hcid.
    destruct (objs w !! r); [eauto|done]. }
  pose proof (inv_add this ModelConstructor _validate (One (Instance r)) o w Hinv)
    as Hinv1.
  rewrite Hadd in Hinv1. simpl in Hinv1.
  destruct (add_Return_unsorted _ _ _ _ Hcmp Hadd) as (rs & o1 & wp & Hpa & Hms).
  assert (rs = [r] ∧ wp = update_object r (set_collection (Some this)) w) as [-> ->].
  { cbn [to_array prepare_all _prepareModel] in Hpa. rewrite Hcol in Hpa.
    destruct rs as [|? [|??]]; simplify_eq/=. done. }
  set (wp := update_object r (set_collection (Some this)) w) in *.
  apply add_Return in Hadd
    as (rs & cids & o1' & w1' & lg & Hp & Hobjs & _ & _ & _ & _
        & Hlen & Hcmp1 & HbyId & HbyCid & _).
  apply add_prepare_Return in Hp
    as (_ & _ & _ & _ & _ & _ & _ & _ & Hacc & _ & Hpa' & _).
  rewrite Hpa in Hpa'. injection Hpa' as Hrs _ <-.
  assert (rs = [r]) as -> by (destruct rs as [|? [|??]]; by simplify_eq/=).
  clear Hrs.
  assert (deref wp r = set_collection (Some this) (deref w r)) as Hwp.
  { apply deref_update_eq. }
  assert (deref w1 r = on "all" this (set_collection (Some this) (deref w r))) as Hw1.
  { unfold deref at 1. rewrite Hobjs. cbn [foldl].
    change (objs (add_index wp r) !!! r) with (deref (add_index wp r) r).
    by rewrite deref_add_index, decide_True, Hwp by done. }
  destruct Hacc as (_ & HfreeCid & HfreeId & _).
  rewrite Hwp in HfreeCid, HfreeId. simpl in HfreeCid, HfreeId.
  assert (r ∉ models (coll w)) as Hnew.
  { intros Hr. destruct Hinv as (_ & _ & Hmem & _).
    destruct (Hmem r Hr) as [_ G]. congruence. }
  assert (r ∈ models (coll w1)) as Hr1.
  { rewrite Hms. unfold splice. apply elem_of_app. right. by left. }
  assert (cid (deref w1 r) ≠ "") as Hcid1 by (by rewrite Hw1).
  destruct (member_found w1 r Hinv1 Hr1 Hcid1) as [_ Hf].
  destruct (remove_step_found this remove_nested o' w1 (VObj r) r Hf) as [n Hstep].
  rewrite (remove_One this), Hstep. cbn [fst snd].
  split; [done|]. split.
  - change (coll (_removeReference r ?W)) with (coll W). cbn [coll with_log with_coll].
    rewrite Hms, Hlen, Hcmp1, HbyId, HbyCid, Hw1. cbn [index_ids index_cids foldl].
    rewrite Hwp. cbn [cid id on set_callbacks set_collection].
    rewrite splice_insert_delete by done.
    rewrite delete_insert_id by done.
    assert (delete (to_key (id (deref w r)))
              (if truthy (id (deref w r))
               then <[to_key (id (deref w r)) := r]> (_byId (coll w))
               else _byId (coll w)) = _byId (coll w)) as ->.
    { destruct (_isNullOrUndefined (id (deref w r))) eqn:En.
      - assert (truthy (id (deref w r)) = false) as ->
          by (by destruct (id (deref w r))).
        apply delete_id. by apply Hid.
      - destruct (truthy (id (deref w r)));
          [apply delete_insert_id|apply delete_id]; by apply HfreeId. }
    destruct (coll w); simpl. f_equal. simpl. lia.
  - unfold _removeReference, update_object.
    cbn [objs with_objs with_log with_coll].
    change (deref (with_log ?l (with_coll ?c w1)) r) with (deref w1 r).
    rewrite Hw1, Hobjs. cbn [foldl]. unfold add_index.
    cbn [objs with_coll update_object with_objs]. 
    change (objs wp) with (<[r := set_collection (Some this) (deref w r)]> (objs w)).
    rewrite !insert_insert_eq.
    apply map_eq. intros k. destruct (decide (k = r)) as [->|Hne].
    + rewrite lookup_insert_eq.
      assert (is_Some (objs w !! r)) as [m Hm] by (by apply elem_of_dom).
      rewrite Hm. f_equal. unfold deref in *. rewrite lookup_total_alt, Hm in *.
      simpl in *. destruct m as [c i a p col cbs]. simpl in *.
      unfold off, on, set_callbacks, set_collection. simpl.
      rewrite decide_True by done. simpl. f_equal; [done|].
      rewrite filter_app, filter_all.
      * rewrite filter_cons_False, filter_nil, app_nil_r; [done|]. by intros ?.
      * intros cb Hin ->. done.
    + by rewrite lookup_insert_ne.
Qed.

(** *** Models of other collections *)

Lemma keeps_owners_refl w : keeps_owners this w w.
Proof. by intros r c _ H. Qed.

Lemma keeps_owners_trans w1 w2 w3 :
  keeps_owners this w1 w2 → keeps_owners this w2 w3 → keeps_owners this w1 w3.
Proof. intros H1 H2 r c Hc Hr. by apply H2, H1. Qed.

Lemma keeps_owners_objs w w' : objs w' = objs w → keeps_owners this w w'.
Proof. intros E r c _. unfold deref. by rewrite E. Qed.

Lemma owned_allocated w r c : collection (deref w r) = Some c → r ∈ dom (objs w).
Proof.
  intros H. apply elem_of_dom. unfold deref in H. rewrite lookup_total_alt in H.
  destruct (objs w !! r); [eauto|done].
Qed.

Lemma _prepareModel_owners it o w : keeps_owners this w (_prepareModel it o w).2.
Proof.
  intros r c _ Hr. destruct it as [attrs|r0]; simpl.
  - pose proof (is_fresh (dom (objs w))) as Hfresh.
    assert (fresh (dom (objs w)) ≠ r) as Hne.
    { intros E. rewrite E in Hfresh. by apply Hfresh, (owned_allocated w r c). }
    destruct (_validate _ _); simpl; unfold deref; simpl;
      by rewrite lookup_total_insert_ne.
  - destruct (collection (deref w r0)) eqn:E; simpl; [done|].
    destruct (decide (r0 = r)) as [->|Hne]; [congruence|].
    by rewrite deref_update_ne.
Qed.

Lemma add_prepare_owners items o cids ids w :
  keeps_owners this w (add_prepare items o cids ids w).2.
Proof.
  revert o cids ids w. induction items as [|it items IH]; intros o cids ids w; simpl.
  - apply keeps_owners_refl.
  - pose proof (_prepareModel_owners it o w) as H1.
    destruct (_prepareModel it o w) as [[m o1] w1]. simpl in H1.
    destruct m as [r0|]; [|done].
    destruct (defined cids _ || defined _ _); [done|].
    destruct (negb _ && _); [done|].
    specialize (IH o1 (<[cid (deref w1 r0) := r0]> cids)
                  (<[to_key (id (deref w1 r0)) := r0]> ids) w1).
    destruct (add_prepare items o1 _ _ w1) as [[[[rs0 c0]|e] o2] w2];
      simpl in *; by eapply keeps_owners_trans.
Qed.

Lemma add_index_fold_owners rs w r :
  collection (deref (foldl add_index w rs) r) = collection (deref w r).
Proof.
  revert w. induction rs as [|r0 rs IH]; intros w; [done|].
  cbn [foldl]. rewrite IH, deref_add_index. by destruct (decide (r0 = r)) as [->|].
Qed.

Lemma add_owners ms o w : keeps_owners this w (add ms o w).2.
Proof.
  pose proof (add_prepare_owners (to_array ms) o ∅ ∅ w) as Hprep.
  destruct (add ms o w) as [[[]|e] w'] eqn:Hadd; simpl.
  - apply add_Return in Hadd as (rs & cids & o1 & w1 & lg & Hp & Hobjs & _).
    rewrite Hp in Hprep. simpl in Hprep.
    intros r c Hc Hr. unfold deref. rewrite Hobjs.
    change (objs ?W !!! r) with (deref W r).
    rewrite add_index_fold_owners. by apply Hprep.
  - apply add_Throw_prepare in Hadd as [o1 Hp]. by rewrite Hp in Hprep.
Qed.

Lemma _removeReference_owners r0 w : keeps_owners this w (_removeReference r0 w).
Proof.
  intros r c Hc Hr. unfold _removeReference.
  destruct (decide (r0 = r)) as [->|Hne].
  - rewrite deref_update_eq, decide_False; [done|]. congruence.
  - by rewrite deref_update_ne.
Qed.

Lemma remove_step_owners rm o w x : keeps_owners this w (remove_step rm o w x).2.
Proof.
  destruct (found_or_falsy x w) as [[r0 Hf]|[(k & Hf & _)|Hf]].
  - destruct (remove_step_found this rm o w x r0 Hf) as [n ->]. cbn [snd].
    eapply keeps_owners_trans; [|apply _removeReference_owners].
    by apply keeps_owners_objs.
  - rewrite (remove_step_native this rm o w x k Hf). by apply keeps_owners_objs.
  - rewrite remove_step_skip by done. apply keeps_owners_refl.
Qed.

Lemma remove_owners xs o w : keeps_owners this w (remove xs o w).2.
Proof.
  rewrite remove_eq. unfold remove_with. cbn [snd].
  generalize (to_array xs) as l. intros l. revert o w.
  induction l as [|x l IH]; intros o w; cbn [remove_loop]; [apply keeps_owners_refl|].
  pose proof (remove_step_owners remove_nested o w x) as H1.
  destruct (remove_step remove_nested o w x) as [[[[]|e] o1] w1]; [|done].
  eapply keeps_owners_trans; [exact H1|apply IH].
Qed.

Lemma detach_all_owners w : keeps_owners this w (detach_all w).
Proof.
  unfold detach_all. generalize (models (coll w)) as l. intros l. revert w.
  induction l as [|r0 l IH]; intros w; cbn [foldl]; [apply keeps_owners_refl|].
  eapply keeps_owners_trans; [apply _removeReference_owners|apply IH].
Qed.

Lemma sort_owners o w : keeps_owners this w (sort o w).2.
Proof.
  apply keeps_owners_objs. unfold sort.
  destruct (comparator (coll w)); [|done]. by destruct (silent o).
Qed.

Lemma reset_owners ms o w : keeps_owners this w (reset ms o w).2.
Proof.
  unfold reset.
  pose proof (add_owners (default (Many []) ms) silent_options (_reset (detach_all w)))
    as Hadd.
  assert (keeps_owners this w (_reset (detach_all w))) as H0.
  { eapply keeps_owners_trans; [apply detach_all_owners|by apply keeps_owners_objs]. }
  destruct (add _ silent_options _) as [[[]|e] w1]; simpl in Hadd.
  - eapply keeps_owners_trans; [exact H0|].
    eapply keeps_owners_trans; [exact Hadd|].
    apply keeps_owners_objs. by destruct (silent o).
  - by eapply keeps_owners_trans.
Qed.

Lemma create_owners it o w : keeps_owners this w (create it o w).2.
Proof.
  unfold create.
  pose proof (_prepareModel_owners it o w) as H1.
  destruct (_prepareModel it o w) as [[m o1] w1]. simpl in H1.
  destruct m as [r0|]; [|done].
  destruct (wait o1).
  - eapply keeps_owners_trans; [exact H1|]. by apply keeps_owners_objs.
  - pose proof (add_owners (One (Instance r0)) o1 w1) as H2.
    rewrite (add_run_add this) in H2. cbn [snd] in H2.
    destruct (add_run _ o1 w1) as [[[[]|e] o2] w2]; simpl in H2.
    + eapply keeps_owners_trans; [exact H1|].
      eapply keeps_owners_trans; [exact H2|]. by apply keeps_owners_objs.
    + by eapply keeps_owners_trans.
Qed.

(** X20.  The collection never takes a model away from another
    collection and never releases it for the other: a model whose
    [collection] is another collection still has that [collection] after
    the constructor, [add], [remove], [reset], [sort] or [create] has
    run, whether the call returns or throws and whether the model is one
    of its arguments, a member, or neither. *)
Theorem foreign_owner_kept w r c :
  c ≠ this →
  collection (deref w r) = Some c →
  (∀ ms o, collection (deref (add ms o w).2 r) = Some c)
  ∧ (∀ xs o, collection (deref (remove xs o w).2 r) = Some c)
  ∧ (∀ ms o, collection (deref (reset ms o w).2 r) = Some c)
  ∧ (∀ o, collection (deref (sort o w).2 r) = Some c)
  ∧ (∀ it o, collection (deref (create it o w).2 r) = Some c)
  ∧ (∀ ms cmp lg,
       collection (deref (Parse_Collection ms cmp (objs w) lg).2 r) = Some c).
Proof.
  intros Hc Hr. split_and!.
  - intros ms o. by apply add_owners.
  - intros xs o. by apply remove_owners.
  - intros ms o. by apply reset_owners.
  - intros o. by apply sort_owners.
  - intros it o. by apply create_owners.
  - intros ms cmp lg. unfold Parse_Collection.
    set (w0 := _reset _).
    assert (collection (deref w0 r) = Some c) as H0 by done.
    destruct ms as [ms|]; [|done]. by apply reset_owners.
Qed.

End Further.

(** ** The further properties at work on concrete collections *)

Lemma foreign_add_remove_ignored_witness :
  let args := [ArgV (VObj 1%positive); ArgC 2%positive; ArgO no_options] in
  _onModelEvent Demo.me "add" args Demo.abc_collection
  = (Return (), Demo.abc_collection)
  ∧ trigger_model Demo.me 1%positive "add" args Demo.abc_collection
    = (Return (),
       with_log (log Demo.abc_collection ++ [Emitted (OnModel 1%positive) "add" args])
         Demo.abc_collection).
Proof.
  intros args.
  apply (foreign_add_remove_ignored Demo.me 1%positive "add" 2%positive
           (VObj 1%positive) no_options Demo.abc_collection).
  - left. reflexivity.
  - intros H. vm_compute in H. discriminate H.
Defined.

Lemma other_events_proxied_witness :
  let args := [ArgV (VObj 1%positive)] in
  let w := Demo.abc_collection in
  plain "change"
  ∧ trigger_model Demo.me 1%positive "change" args w
    = (Return (),
       with_log (log w ++ Emitted (OnModel 1%positive) "change" args
                   :: replicate (subscriptions Demo.me (deref w 1%positive))
                        (Emitted (OnCollection Demo.me) "change" args)) w).
Proof.
  intros args w.
  assert (plain "change") as H by (repeat split).
  split; [exact H|].
  exact (proj2 (other_events_proxied Demo.me 1%positive "change" args w H)).
Defined.

Lemma destroy_removes_member_witness :
  let w := Demo.abc_collection in
  let w' := (_onModelEvent Demo.me "destroy"
               [ArgV (VObj 2%positive); ArgC Demo.me; ArgO no_options] w).2 in
  inv w'
  ∧ (2%positive ∉ models (coll w'))
  ∧ length (coll w') = length (coll w) - 1
  ∧ detached Demo.me w' 2%positive.
Proof.
  intros w w'.
  assert (2%positive ∈ models (coll w)) as Hin.
  { apply list_elem_of_In. vm_compute. tauto. }
  assert (cid (deref w 2%positive) ≠ "") as Hcid.
  { intros H. vm_compute in H. discriminate H. }
  pose proof (destroy_removes_member Demo.me 2%positive Demo.me no_options w
                inv_abc_collection Hin Hcid) as H.
  cbv zeta in H. destruct H as (_ & H1 & H2 & _ & H4 & _ & H6 & _).
  split_and!; assumption.
Defined.


Lemma member_events_reach_collection_witness :
  ("all", Demo.me) ∈ _callbacks (deref Demo.abc_collection 1%positive).
Proof.
  refine (proj1 (member_events_reach_collection Demo.me Demo.construct Demo.validate
                   Demo.abc_collection 1%positive "change" [] _ _ _)).
  - apply reach_add, reach_new.
  - apply list_elem_of_In. vm_compute. tauto.
  - repeat split.
Defined.

Lemma silent_operations_emit_nothing_witness :
  let w := Demo.abc_collection in
  log (add Demo.me Demo.construct Demo.validate (One (Attrs ∅)) silent_options w).2
  = log w
  ∧ log (remove Demo.me (One (VObj 1%positive)) silent_options w).2 = log w.
Proof.
  intros w.
  destruct (silent_operations_emit_nothing Demo.me Demo.construct Demo.validate
              silent_options w eq_refl) as (Ha & Hr & _).
  split; [apply Ha|apply Hr].
Defined.

Lemma reset_with_nothing_empties_witness :
  ∃ w', reset Demo.me Demo.construct Demo.validate None no_options Demo.abc_collection
        = (Return (), w')
        ∧ coll w' = MkCollection 0 [] ∅ ∅ (comparator (coll Demo.abc_collection))
        ∧ detached Demo.me w' 1%positive.
Proof.
  destruct (reset_with_nothing_empties Demo.me Demo.construct Demo.validate
              None no_options Demo.abc_collection eq_refl)
    as (w' & H1 & H2 & H3 & _).
  exists w'. split_and!; [exact H1|exact H2|].
  apply H3. apply list_elem_of_In. vm_compute. tauto.
Defined.

Lemma reset_that_throws_leaves_empty_witness :
  let w := Demo.abc_collection in
  let ms := Some (Many [Instance 1%positive; Instance 1%positive]) in
  let w' := (reset Demo.me Demo.construct Demo.validate ms no_options w).2 in
  reset Demo.me Demo.construct Demo.validate ms no_options w = (Throw DuplicateCid, w')
  ∧ coll w' = MkCollection 0 [] ∅ ∅ (comparator (coll w))
  ∧ log w' = log w.
Proof.
  intros w ms w'.
  assert (reset Demo.me Demo.construct Demo.validate ms no_options w
          = (Throw DuplicateCid, w')) as H.
  { vm_compute. reflexivity. }
  destruct (reset_that_throws_leaves_empty Demo.me Demo.construct Demo.validate
              ms no_options w DuplicateCid w' H) as (H1 & _ & H3 & _).
  split_and!; assumption.
Defined.


Lemma add_returns_iff_witness :
  let w := Demo.new_collection None Demo.heap0 in
  ∃ rs o1 w1,
    prepare_all Demo.me Demo.construct Demo.validate
      [Instance 1%positive; Instance 2%positive] no_options w = (Some <$> rs, o1, w1)
    ∧ batch_ok (coll w) w1 rs.
Proof.
  intros w.
  apply (proj1 (add_returns_iff Demo.me Demo.construct Demo.validate
                  (Many [Instance 1%positive; Instance 2%positive]) no_options w)).
  vm_compute. reflexivity.
Defined.

Lemma add_that_throws_changes_nothing_witness :
  let w := Demo.abc_collection in
  let w' := (add Demo.me Demo.construct Demo.validate (One (Instance 1%positive))
               no_options w).2 in
  add Demo.me Demo.construct Demo.validate (One (Instance 1%positive)) no_options w
  = (Throw DuplicateCid, w')
  ∧ coll w' = coll w ∧ log w' = log w ∧ saves w' = saves w.
Proof.
  intros w w'.
  assert (add Demo.me Demo.construct Demo.validate (One (Instance 1%positive))
            no_options w = (Throw DuplicateCid, w')) as H.
  { vm_compute. reflexivity. }
  destruct (add_that_throws_changes_nothing Demo.me Demo.construct Demo.validate
              (One (Instance 1%positive)) no_options w DuplicateCid w' H)
    as (H1 & H2 & H3 & _).
  split_and!; assumption.
Defined.

Lemma add_puts_batch_at_witness :
  let w := Demo.abc_collection in
  let o := MkOptions (Some 1) false false None None false in
  let w' := (add Demo.me Demo.construct Demo.validate (One (Attrs ∅)) o w).2 in
  ∃ rs o1 w1,
    prepare_all Demo.me Demo.construct Demo.validate [Attrs ∅] o w
    = (Some <$> rs, o1, w1)
    ∧ models (coll w') = take 1 (models (coll w)) ++ rs ++ drop 1 (models (coll w)).
Proof.
  intros w o w'.
  assert (comparator (coll w) = None) as Hcmp by (vm_compute; reflexivity).
  assert (add Demo.me Demo.construct Demo.validate (One (Attrs ∅)) o w
          = (Return (), w')) as H.
  { vm_compute. reflexivity. }
  destruct (add_puts_batch_at Demo.me Demo.construct Demo.validate
              (One (Attrs ∅)) o w w' Hcmp H) as (rs & o1 & w1 & Hpa & _ & Hat).
  exists rs, o1, w1. split; [exact Hpa|].
  assert ((1 ≤ List.length (models (coll w)))%nat) as Hlen by (vm_compute; lia).
  exact (proj1 (Hat 1%nat eq_refl Hlen)).
Defined.

Lemma added_models_are_found_witness :
  let w := Demo.new_collection None Demo.heap0 in
  let ms := Many [Instance 1%positive; Instance 3%positive] in
  let w' := (add Demo.me Demo.construct Demo.validate ms no_options w).2 in
  ∃ rs o1 w1,
    prepare_all Demo.me Demo.construct Demo.validate (to_array ms) no_options w
    = (Some <$> rs, o1, w1)
    ∧ models (coll w') ≡ₚ rs ++ models (coll w)
    ∧ length (coll w') = length (coll w) + Z.of_nat (List.length (to_array ms)).
Proof.
  intros w ms w'.
  assert (add Demo.me Demo.construct Demo.validate ms no_options w
          = (Return (), w')) as H.
  { vm_compute. reflexivity. }
  destruct (added_models_are_found Demo.me Demo.construct Demo.validate
              ms no_options w w' H) as (rs & o1 & w1 & Hpa & Hperm & Hlen & _).
  exists rs, o1, w1. split_and!; assumption.
Defined.

Lemma indexOf_agrees_with_getByCid_witness :
  0 ≤ indexOf 2%positive (models (coll Demo.abc_collection))
  ↔ getByCid (VObj 2%positive) Demo.abc_collection = VObj 2%positive.
Proof.
  refine (proj1 (indexOf_agrees_with_getByCid Demo.abc_collection 2%positive
                   inv_abc_collection _)).
  intros H. vm_compute in H. discriminate H.
Defined.

Lemma create_throws_only_without_wait_witness :
  let w := Demo.abc_collection in
  let w' := (create Demo.me Demo.construct Demo.validate (Instance 1%positive)
               no_options w).2 in
  create Demo.me Demo.construct Demo.validate (Instance 1%positive) no_options w
  = (Throw DuplicateCid, w')
  ∧ wait no_options = false
  ∧ coll w' = coll w ∧ saves w' = saves w.
Proof.
  intros w w'.
  assert (create Demo.me Demo.construct Demo.validate (Instance 1%positive)
            no_options w = (Throw DuplicateCid, w')) as H.
  { vm_compute. reflexivity. }
  destruct (create_throws_only_without_wait Demo.me Demo.construct Demo.validate
              (Instance 1%positive) no_options w DuplicateCid w' H)
    as (H1 & H2 & _ & H4 & _).
  split_and!; assumption.
Defined.

Lemma fetch_adds_or_replaces_witness :
  let w := Demo.abc_collection in
  let results := [2%positive; 1%positive] in
  let w' := (fetch_then Demo.me Demo.construct Demo.validate false results
               no_options w).2 in
  models (coll w') ≡ₚ results ∧ NoDup results.
Proof.
  intros w results w'.
  assert (fetch_then Demo.me Demo.construct Demo.validate false results no_options w
          = (Return (), w')) as H.
  { vm_compute. reflexivity. }
  exact (proj1 (fetch_adds_or_replaces Demo.me Demo.construct Demo.validate
                  false results no_options w) w' H).
Defined.

Lemma add_announces_new_members_witness :
  let w := Demo.abc_collection in
  let w' := (add Demo.me Demo.construct Demo.validate (One (Attrs ∅))
               no_options w).2 in
  ∃ rs o1 w1,
    prepare_all Demo.me Demo.construct Demo.validate [Attrs ∅] no_options w
    = (Some <$> rs, o1, w1)
    ∧ log w'
      = log w ++ concat (imap (λ i r, if bool_decide (r ∈ rs)
                                         || inherited (cid (deref w' r))
                                      then add_events Demo.me o1 w' i r else [])
                           (models (coll w'))).
Proof.
  intros w w'.
  assert (add Demo.me Demo.construct Demo.validate (One (Attrs ∅)) no_options w
          = (Return (), w')) as H.
  { vm_compute. reflexivity. }
  exact (add_announces_new_members Demo.me Demo.construct Demo.validate
           (One (Attrs ∅)) no_options w w' inv_abc_collection H).
Defined.

Lemma add_then_remove_restores_witness :
  let w := (add Demo.me Demo.construct Demo.validate
              (Many [Instance 1%positive; Instance 2%positive]) no_options
              (Demo.new_collection None Demo.heap0)).2 in
  let w1 := (add Demo.me Demo.construct Demo.validate (One (Instance 3%positive))
               no_options w).2 in
  (remove Demo.me (One (VObj 3%positive)) no_options w1).1 = Return ()
  ∧ coll (remove Demo.me (One (VObj 3%positive)) no_options w1).2 = coll w
  ∧ objs (remove Demo.me (One (VObj 3%positive)) no_options w1).2 = objs w.
Proof.
  intros w w1.
  apply (add_then_remove_restores Demo.me Demo.construct Demo.validate
           3%positive no_options no_options w w1).
  - unfold w. apply inv_add, inv_Parse_Collection.
  - vm_compute. reflexivity.
  - vm_compute. reflexivity.
  - intros H%list_elem_of_In. vm_compute in H. exact H.
  - intros H. vm_compute in H. discriminate H.
  - intros _. vm_compute. reflexivity.
  - vm_compute. reflexivity.
Defined.

Lemma foreign_owner_kept_witness :
  let heap : gmap ref Object :=
    {[ 1%positive := MkObject "A" VUndefined ∅ ∅ (Some 2%positive) [] ]} in
  let w := Demo.new_collection None heap in
  let w1 := (add Demo.me Demo.construct Demo.validate (One (Instance 1%positive))
               no_options w).2 in
  let w2 := (remove Demo.me (One (VObj 1%positive)) no_options w1).2 in
  1%positive ∈ models (coll w1)
  ∧ collection (deref w1 1%positive) = Some 2%positive
  ∧ collection (deref w2 1%positive) = Some 2%positive.
Proof.
  intros heap w w1 w2.
  assert (2%positive ≠ Demo.me) as Hne.
  { intros H. vm_compute in H. discriminate H. }
  assert (collection (deref w 1%positive) = Some 2%positive) as H0.
  { vm_compute. reflexivity. }
  destruct (foreign_owner_kept Demo.me Demo.construct Demo.validate
              w 1%positive 2%positive Hne H0) as (Ha & _).
  pose proof (Ha (One (Instance 1%positive)) no_options) as H1.
  destruct (foreign_owner_kept Demo.me Demo.construct Demo.validate
              w1 1%positive 2%positive Hne H1) as (_ & Hr & _).
  split_and!; [|exact H1|apply Hr].
  apply list_elem_of_In. vm_compute. tauto.
Defined.
